(** * kysely-access-control: a shallow embedding of the access-control
      engine and of the grant resolution layer

    The development follows the two source modules:
    - [kyselyAccessControl.ts]: the [Transformer] that walks a query's
      operation nodes, asks the guard about every table and column and
      rewrites or rejects the query;
    - [kyselyGrants.ts]: [createKyselyGrantGuard], which turns a list of
      grants into a guard.

    Operation nodes, the expression builder and the default (copying)
    [OperationNodeTransformer] belong to kysely, an external dependency;
    the fragment of them the engine touches is modelled in the modules
    [IR] and [Kysely] below. *)

From Stdlib Require Import String List Bool Arith ZArith Lia Permutation.
Import ListNotations.
Local Open Scope string_scope.
Local Open Scope list_scope.

(* ================================================================== *)
(** ** Decision vocabulary *)
(* ================================================================== *)

Inductive StatementType : Type := Select | Insert | Update | Delete.

Inductive ColumnUsageContext : Type :=
| ColumnInSelectOrReturning
| ColumnInWhereOrJoin
| ColumnInUpdateSet
| ColumnInInsert.

Inductive TableUsageContext : Type := TableTopLevel | TableInJoin.

Definition ColumnUsageContext_eqb (a b : ColumnUsageContext) : bool :=
  match a, b with
  | ColumnInSelectOrReturning, ColumnInSelectOrReturning
  | ColumnInWhereOrJoin, ColumnInWhereOrJoin
  | ColumnInUpdateSet, ColumnInUpdateSet
  | ColumnInInsert, ColumnInInsert => true
  | _, _ => false
  end.

(* ================================================================== *)
(** ** The operation nodes the engine looks at *)
(* ================================================================== *)

Module IR.

(** [TableNode]: [node.table.schema?.name] and [node.table.identifier.name]. *)
Record TableNode : Type := mkTableNode {
  tn_schema : option string;
  tn_name : string
}.

Inductive Value : Type :=
| VString (s : string)
| VNumber (n : Z)
| VBool (b : bool)
| VNull.

(** The [column] field of a [ReferenceNode]: a [ColumnNode] or a
    [SelectAllNode] ([table.*]). *)
Inductive ColumnOrSelectAll : Type :=
| ColumnNode (column : string)
| SelectAllNode.

Record ReferenceNode : Type := mkReferenceNode {
  ref_table : option TableNode;
  ref_column : ColumnOrSelectAll
}.

(** Expressions that occur in filters, join conditions, values and
    row predicates: column references, values, binary operations,
    conjunctions, disjunctions, parentheses and raw text. A sub-select
    used as an expression and the nodes embedded in a raw fragment are
    not part of this type. *)
Inductive Expression : Type :=
| ReferenceExpr (r : ReferenceNode)
| ValueNode (v : Value)
| BinaryOperationNode (l : Expression) (op : string) (r : Expression)
| AndNode (l r : Expression)
| OrNode (l r : Expression)
| ParensNode (e : Expression)
| RawNode (sql : string).

Record WhereNode : Type := mkWhereNode { where_ : Expression }.
Record OnNode : Type := mkOnNode { on_ : Expression }.

(** The child of a [SelectionNode]: a reference, a bare [SelectAllNode],
    or an aliased expression. *)
Inductive SelectionChild : Type :=
| SelReference (r : ReferenceNode)
| SelSelectAll
| SelAlias (e : Expression) (alias : string).

Record SelectionNode : Type := mkSelectionNode { selection : SelectionChild }.

(** Select queries nest through aliased sub-selects used as relations.
    A [FromNode] is represented by its [froms] list. *)
Inductive SelectQueryNode : Type :=
| mkSelectQueryNode (from : option (list TableExpr))
                    (selections : option (list SelectionNode))
                    (joins : option (list JoinNode))
                    (where_clause : option WhereNode)
with TableExpr : Type :=
| TableE (t : TableNode)
| AliasE (node : SelectQueryNode) (alias : string)
with JoinNode : Type :=
| mkJoinNode (joinType : string) (table : TableExpr) (on : option OnNode).

Definition sq_from (q : SelectQueryNode) :=
  match q with mkSelectQueryNode f _ _ _ => f end.
Definition sq_selections (q : SelectQueryNode) :=
  match q with mkSelectQueryNode _ s _ _ => s end.
Definition sq_joins (q : SelectQueryNode) :=
  match q with mkSelectQueryNode _ _ j _ => j end.
Definition sq_where (q : SelectQueryNode) :=
  match q with mkSelectQueryNode _ _ _ w => w end.

Definition join_type (j : JoinNode) := match j with mkJoinNode t _ _ => t end.
Definition join_table (j : JoinNode) := match j with mkJoinNode _ t _ => t end.
Definition join_on (j : JoinNode) := match j with mkJoinNode _ _ o => o end.

Record ReturningNode : Type := mkReturningNode {
  ret_selections : list SelectionNode
}.

Record ColumnUpdateNode : Type := mkColumnUpdateNode {
  cu_column : string;
  cu_value : Expression
}.

(** [columns] are [ColumnNode]s, kept by name; [values] is the
    [ValuesNode], one list of expressions per row. *)
Record InsertQueryNode : Type := mkInsertQueryNode {
  ins_into : TableNode;
  ins_columns : option (list string);
  ins_values : option (list (list Expression));
  ins_returning : option ReturningNode
}.

Record UpdateQueryNode : Type := mkUpdateQueryNode {
  upd_table : TableExpr;
  upd_from : option (list TableExpr);
  upd_joins : option (list JoinNode);
  upd_where : option WhereNode;
  upd_updates : option (list ColumnUpdateNode);
  upd_returning : option ReturningNode
}.

Record DeleteQueryNode : Type := mkDeleteQueryNode {
  del_from : list TableExpr;
  del_using : option (list TableExpr);
  del_joins : option (list JoinNode);
  del_where : option WhereNode;
  del_returning : option ReturningNode
}.

Inductive RootOperationNode : Type :=
| SelectQuery (q : SelectQueryNode)
| InsertQuery (q : InsertQueryNode)
| UpdateQuery (q : UpdateQueryNode)
| DeleteQuery (q : DeleteQueryNode).

(** What [nodeStack] holds: every node [transformNode] is visiting. *)
Inductive OperationNode : Type :=
| OSelectQuery (q : SelectQueryNode)
| OInsertQuery (q : InsertQueryNode)
| OUpdateQuery (q : UpdateQueryNode)
| ODeleteQuery (q : DeleteQueryNode)
| OFrom (froms : list TableExpr)
| OUsing (tables : list TableExpr)
| OJoin (j : JoinNode)
| OWhere (w : WhereNode)
| OOn (o : OnNode)
| OReturning (r : ReturningNode)
| OTableExpr (t : TableExpr)
| OSelection (s : SelectionNode)
| OAliasedExpression (e : Expression) (alias : string)
| OExpression (e : Expression)
| OColumnUpdate (u : ColumnUpdateNode)
| OValues (rows : list (list Expression)).

Definition WhereNode_is (n : OperationNode) : bool :=
  match n with OWhere _ => true | _ => false end.
Definition JoinNode_is (n : OperationNode) : bool :=
  match n with OJoin _ => true | _ => false end.
Definition FromNode_is (n : OperationNode) : bool :=
  match n with OFrom _ => true | _ => false end.
Definition UsingNode_is (n : OperationNode) : bool :=
  match n with OUsing _ => true | _ => false end.

(** [SelectionNode.createSelectAll()] *)
Definition createSelectAll : SelectionNode := mkSelectionNode SelSelectAll.

(** [SelectQueryNode.cloneWithSelections(SelectQueryNode.createFrom([t]),
    [SelectionNode.createSelectAll()])] *)
Definition selectAllFrom (t : TableNode) : SelectQueryNode :=
  mkSelectQueryNode (Some [TableE t]) (Some [createSelectAll]) None None.

End IR.
Export IR.

(* ================================================================== *)
(** ** kysely's expression builder *)
(* ================================================================== *)

Module Kysely.

Inductive Combinator : Type := CombAnd | CombOr.

(** [parseFilterList]: what [eb.and(list)] and [eb.or(list)] build. The
    items are chained to the left; more than one item is wrapped in
    parentheses; the empty list is the comparison [1 = 1] or [1 = 0]. *)
Definition parseFilterList (exprs : list Expression) (combinator : Combinator)
  : Expression :=
  let combine := match combinator with CombAnd => AndNode | CombOr => OrNode end in
  match exprs with
  | [] =>
      BinaryOperationNode (ValueNode (VNumber 1%Z)) "="
        (ValueNode (VNumber (match combinator with CombAnd => 1%Z | CombOr => 0%Z end)))
  | first :: rest =>
      let node := fold_left combine rest first in
      if (1 <? length exprs)%nat then ParensNode node else node
  end.

Definition eb_and (exprs : list Expression) := parseFilterList exprs CombAnd.
Definition eb_or (exprs : list Expression) := parseFilterList exprs CombOr.
(** [eb.lit(b)]: an immediate value. *)
Definition eb_lit (b : bool) : Expression := ValueNode (VBool b).

End Kysely.
Export Kysely.

(* ================================================================== *)
(** ** Truth of a row predicate *)
(* ================================================================== *)

(** A row fixes the truth of every comparison; the connectives and the
    boolean literals are interpreted, everything else is an atom. *)
Section Holds.
Variable atom : Expression -> bool.

Fixpoint holds (e : Expression) : bool :=
  match e with
  | AndNode l r => holds l && holds r
  | OrNode l r => holds l || holds r
  | ParensNode e' => holds e'
  | ValueNode (VBool b) => b
  | _ => atom e
  end.
End Holds.

(* ================================================================== *)
(** ** Guard results and guards *)
(* ================================================================== *)

Inductive TableGuardResult : Type :=
| TAllow
| TAllowWhere (e : Expression)
| TDeny
| TDenyReason (reason : string).

Inductive ColumnGuardResult : Type :=
| CAllow
| COmit
| CDeny
| CDenyReason (reason : string).

Record FullKyselyAccessControlGuard : Type := mkGuard {
  guard_table : TableNode -> StatementType -> TableUsageContext -> TableGuardResult;
  guard_column : TableNode -> string -> StatementType -> ColumnUsageContext
                 -> ColumnGuardResult
}.

(** [KyselyAccessControlGuard = Partial<FullKyselyAccessControlGuard>] *)
Record KyselyAccessControlGuard : Type := mkPartialGuard {
  pg_table : option (TableNode -> StatementType -> TableUsageContext
                     -> TableGuardResult);
  pg_column : option (TableNode -> string -> StatementType -> ColumnUsageContext
                      -> ColumnGuardResult)
}.

(** The [fullGuard] of [createAccessControlPlugin]: defaults that allow,
    overridden by whatever the caller supplied. *)
Definition fullGuard (guard : KyselyAccessControlGuard) : FullKyselyAccessControlGuard :=
  {| guard_table := match pg_table guard with
                    | Some f => f
                    | None => fun _ _ _ => TAllow
                    end;
     guard_column := match pg_column guard with
                     | Some f => f
                     | None => fun _ _ _ _ => CAllow
                     end |}.

(* ================================================================== *)
(** ** Grants ([kyselyGrants.ts]) *)
(* ================================================================== *)

Module Grants.

Inductive Permission : Type := ForAll | ForSelect | ForUpdate | ForInsert | ForDelete.

Inductive WhereType : Type := permissive | restrictive.

(** The extra fields of a [GrantWithWhereClause]; [gw_where] is the
    expression the grant's [where] callback builds. *)
Record WhereClause : Type := mkWhereClause {
  gw_where : Expression;
  gw_whereType : option WhereType
}.

Record Grant : Type := mkGrant {
  g_table : string;
  g_schema : option string;
  g_for : Permission;
  g_columns : option (list string);
  g_whereClause : option WhereClause
}.

Definition isGrantWithWhereClause (grant : Grant) : bool :=
  match g_whereClause grant with Some _ => true | None => false end.

(** [grant.for === statementType] *)
Definition for_is_statement (p : Permission) (s : StatementType) : bool :=
  match p, s with
  | ForSelect, Select | ForInsert, Insert | ForUpdate, Update
  | ForDelete, Delete => true
  | _, _ => false
  end.

Definition for_is_all (p : Permission) : bool :=
  match p with ForAll => true | _ => false end.

(** [grant.schema === undefined || grant.schema === table.schema?.name] *)
Definition schemaMatches (grant : Grant) (table : TableNode) : bool :=
  match g_schema grant with
  | None => true
  | Some s => match tn_schema table with
              | Some s' => String.eqb s s'
              | None => false
              end
  end.

(** The filter callback of the table guard. *)
Definition tableGrantMatches (table : TableNode) (statementType : StatementType)
           (grant : Grant) : bool :=
  schemaMatches grant table
  && String.eqb (g_table grant) (tn_name table)
  && (for_is_all (g_for grant) || for_is_statement (g_for grant) statementType).

Definition isRestrictive (grant : Grant) : bool :=
  match g_whereClause grant with
  | Some {| gw_whereType := Some restrictive |} => true
  | _ => false
  end.

(** [grant.where(expressionBuilder())] over a list of grants that all
    carry a where clause. *)
Fixpoint wheresOf (grants : list Grant) : list Expression :=
  match grants with
  | [] => []
  | g :: rest =>
      match g_whereClause g with
      | Some w => gw_where w :: wheresOf rest
      | None => wheresOf rest
      end
  end.

Definition allowGrantsOf (grants : list Grant) (table : TableNode)
           (statementType : StatementType) : list Grant :=
  filter (tableGrantMatches table statementType) grants.

Definition grantsWithRestrictiveWheresOf (allowGrants : list Grant) : list Grant :=
  filter isRestrictive (filter isGrantWithWhereClause allowGrants).

Definition grantsWithPermissiveWheresOf (allowGrants : list Grant) : list Grant :=
  filter (fun g => negb (isRestrictive g)) (filter isGrantWithWhereClause allowGrants).

(** [guard.table] of [createKyselyGrantGuard]. *)
Definition grantTableGuard (grants : list Grant) (table : TableNode)
           (statementType : StatementType) (_ : TableUsageContext)
  : TableGuardResult :=
  let allowGrants := allowGrantsOf grants table statementType in
  if (length allowGrants =? 0)%nat then TDeny
  else
    let grantsWithRestrictiveWheres := grantsWithRestrictiveWheresOf allowGrants in
    let grantsWithPermissiveWheres := grantsWithPermissiveWheresOf allowGrants in
    if (length grantsWithRestrictiveWheres =? 0)%nat
       && (length grantsWithPermissiveWheres =? 0)%nat
    then TAllow
    else if (length grantsWithPermissiveWheres =? 0)%nat
            && (0 <? length grantsWithRestrictiveWheres)%nat
    then TAllowWhere (eb_lit false)
    else
      let permissiveEbs := eb_or (wheresOf grantsWithPermissiveWheres) in
      if (0 <? length grantsWithRestrictiveWheres)%nat
      then TAllowWhere
             (eb_and [permissiveEbs; eb_and (wheresOf grantsWithRestrictiveWheres)])
      else TAllowWhere permissiveEbs.

(** [grant.columns === undefined || grant.columns.includes(column.name)] *)
Definition columnsInclude (grant : Grant) (column : string) : bool :=
  match g_columns grant with
  | None => true
  | Some cols => existsb (String.eqb column) cols
  end.

(** The [find] callback of the column guard. It never reads the
    statement type. *)
Definition columnGrantMatches (table : TableNode) (column : string)
           (statementType : StatementType)
           (columnUsageContext : ColumnUsageContext) (grant : Grant) : bool :=
  let rightSchemaAndTableAndColumns :=
    schemaMatches grant table
    && String.eqb (g_table grant) (tn_name table)
    && columnsInclude grant column in
  if negb rightSchemaAndTableAndColumns then false
  else if for_is_all (g_for grant) then true
  else if for_is_statement (g_for grant) Select
          && (ColumnUsageContext_eqb columnUsageContext ColumnInSelectOrReturning
              || ColumnUsageContext_eqb columnUsageContext ColumnInWhereOrJoin)
  then true
  else if for_is_statement (g_for grant) Update
          && ColumnUsageContext_eqb ColumnInUpdateSet columnUsageContext
  then true
  else if for_is_statement (g_for grant) Insert
          && ColumnUsageContext_eqb ColumnInInsert columnUsageContext
  then true
  else false.

(** [guard.column] of [createKyselyGrantGuard]. *)
Definition grantColumnGuard (grants : list Grant) (table : TableNode)
           (column : string) (statementType : StatementType)
           (columnUsageContext : ColumnUsageContext) : ColumnGuardResult :=
  match find (columnGrantMatches table column statementType columnUsageContext)
             grants with
  | None => CDeny
  | Some _ => CAllow
  end.

Definition createKyselyGrantGuard (grants : list Grant) : KyselyAccessControlGuard :=
  {| pg_table := Some (grantTableGuard grants);
     pg_column := Some (grantColumnGuard grants) |}.

(** The column rule as the specification words it: the permission is
    "all", or it is the statement's own type and the usage context is
    one that permission covers. *)
Definition specColumnGrantMatches (table : TableNode) (column : string)
           (statementType : StatementType)
           (columnUsageContext : ColumnUsageContext) (grant : Grant) : bool :=
  schemaMatches grant table
  && String.eqb (g_table grant) (tn_name table)
  && columnsInclude grant column
  && (for_is_all (g_for grant)
      || (for_is_statement (g_for grant) statementType
          && match g_for grant, columnUsageContext with
             | ForSelect, ColumnInSelectOrReturning
             | ForSelect, ColumnInWhereOrJoin
             | ForUpdate, ColumnInUpdateSet
             | ForInsert, ColumnInInsert => true
             | _, _ => false
             end)).

End Grants.
Export Grants.

(* ================================================================== *)
(** ** The transformer ([kyselyAccessControl.ts]) *)
(* ================================================================== *)

Module Engine.

(** Every call of a guard function is recorded, in order. *)
Inductive Event : Type :=
| TableGuardCalled (table : TableNode) (statementType : StatementType)
                   (tableUsageContext : TableUsageContext)
| ColumnGuardCalled (table : TableNode) (column : string)
                    (statementType : StatementType)
                    (columnUsageContext : ColumnUsageContext).

(** How a transformation stops early: [Denied] is an error raised by
    [throwIfDenyWithReason], [Thrown] any other [throw new Error],
    [TypeError] a property read on [undefined], [InvariantFailed] a
    failed [invariant]. [OutOfFuel] belongs to the model only: the
    recursion through nested selects is bounded by a counter. *)
Inductive Error : Type :=
| Denied (msg : string)
| Thrown (msg : string)
| TypeError
| InvariantFailed (msg : string)
| OutOfFuel.

Inductive Result (A : Type) : Type :=
| Ok (a : A)
| Err (e : Error).
Arguments Ok {A} a.
Arguments Err {A} e.

(** A computation yields the guard calls it made and its outcome. *)
Definition M (A : Type) : Type := (list Event * Result A)%type.

Definition ret {A} (a : A) : M A := ([], Ok a).

Definition throw {A} (e : Error) : M A := ([], Err e).

Definition bind {A B} (m : M A) (f : A -> M B) : M B :=
  match m with
  | (log, Ok a) => let (log', r) := f a in (log ++ log', r)
  | (log, Err e) => (log, Err e)
  end.

Definition events {A} (m : M A) : list Event := fst m.
Definition outcome {A} (m : M A) : Result A := snd m.

Declare Scope engine_scope.
Delimit Scope engine_scope with engine.
Notation "x <- c1 ;; c2" := (bind c1 (fun x => c2))
  (at level 61, c1 at next level, right associativity) : engine_scope.
Notation "c1 ;;; c2" := (bind c1 (fun _ => c2))
  (at level 61, right associativity) : engine_scope.
Local Open Scope engine_scope.

Definition invariant (condition : bool) (message : string) : M unit :=
  if condition then ret tt else throw (InvariantFailed message).

(** [transformNodeList]: the items are visited left to right. *)
Fixpoint transformNodeList {A} (f : A -> M A) (nodes : list A) : M (list A) :=
  match nodes with
  | [] => ret []
  | x :: rest =>
      x' <- f x ;;
      rest' <- transformNodeList f rest ;;
      ret (x' :: rest')
  end.

(** [transformNode(undefined)] is [undefined]. *)
Definition transformOptional {A} (f : A -> M A) (node : option A) : M (option A) :=
  match node with
  | None => ret None
  | Some n => n' <- f n ;; ret (Some n')
  end.

(** Guard results that may be a denial. *)
Class GuardResult (R : Type) : Type := denial : R -> option (option string).

#[export] Instance TableGuardResult_denial : GuardResult TableGuardResult :=
  fun r => match r with
           | TDeny => Some None
           | TDenyReason reason => Some (Some reason)
           | _ => None
           end.

#[export] Instance ColumnGuardResult_denial : GuardResult ColumnGuardResult :=
  fun r => match r with
           | CDeny => Some None
           | CDenyReason reason => Some (Some reason)
           | _ => None
           end.

Definition throwIfDenyWithReason {R} `{GuardResult R} (guardResult : R)
           (coreErrorString : string) : M unit :=
  match denial guardResult with
  | Some None => throw (Denied coreErrorString)
  | Some (Some reason) => throw (Denied (coreErrorString ++ ": " ++ reason))
  | None => ret tt
  end.

(** [${table.schema?.name ? `${table.schema.name}.` : ""}${table.identifier.name}] *)
Definition qualifiedTableName (t : TableNode) : string :=
  match tn_schema t with
  | Some s => if String.eqb s "" then tn_name t else s ++ "." ++ tn_name t
  | None => tn_name t
  end.

Definition push (nodeStack : list OperationNode) (n : OperationNode) :=
  nodeStack ++ [n].

(** [nodeStack[nodeStack.length - 2]] *)
Definition getParentNode (nodeStack : list OperationNode) : option OperationNode :=
  if (length nodeStack <? 2)%nat then None
  else nth_error nodeStack (length nodeStack - 2).

Definition isAChildOf (is_ : OperationNode -> bool)
           (nodeStack : list OperationNode) : bool :=
  existsb is_ nodeStack.

Fixpoint findIndex {A} (p : A -> bool) (l : list A) : option nat :=
  match l with
  | [] => None
  | x :: rest => if p x then Some 0
                 else match findIndex p rest with
                      | Some i => Some (S i)
                      | None => None
                      end
  end.

Definition kindOf (n : OperationNode) : string :=
  match n with
  | OSelectQuery _ => "SelectQueryNode"
  | OInsertQuery _ => "InsertQueryNode"
  | OUpdateQuery _ => "UpdateQueryNode"
  | ODeleteQuery _ => "DeleteQueryNode"
  | OFrom _ => "FromNode"
  | OUsing _ => "UsingNode"
  | OJoin _ => "JoinNode"
  | OWhere _ => "WhereNode"
  | OOn _ => "OnNode"
  | OReturning _ => "ReturningNode"
  | OTableExpr (TableE _) => "TableNode"
  | OTableExpr (AliasE _ _) => "AliasNode"
  | OSelection _ => "SelectionNode"
  | OAliasedExpression _ _ => "AliasNode"
  | OExpression (ReferenceExpr _) => "ReferenceNode"
  | OExpression (ValueNode _) => "ValueNode"
  | OExpression (BinaryOperationNode _ _ _) => "BinaryOperationNode"
  | OExpression (AndNode _ _) => "AndNode"
  | OExpression (OrNode _ _) => "OrNode"
  | OExpression (ParensNode _) => "ParensNode"
  | OExpression (RawNode _) => "RawNode"
  | OColumnUpdate _ => "ColumnUpdateNode"
  | OValues _ => "ValuesNode"
  end.

Section Transformer.

Variable fullGuard : FullKyselyAccessControlGuard.

Definition callTableGuard (table : TableNode) (statementType : StatementType)
           (ctx : TableUsageContext) : M TableGuardResult :=
  ([TableGuardCalled table statementType ctx],
   Ok (guard_table fullGuard table statementType ctx)).

Definition callColumnGuard (table : TableNode) (column : string)
           (statementType : StatementType) (ctx : ColumnUsageContext)
  : M ColumnGuardResult :=
  ([ColumnGuardCalled table column statementType ctx],
   Ok (guard_column fullGuard table column statementType ctx)).

(** [_topLevelHasMoreThanOneTable] *)
Definition _topLevelHasMoreThanOneTable (node : OperationNode) : M bool :=
  match node with
  | OUpdateQuery q =>
      match upd_from q with
      | Some froms => ret (0 <? length froms)%nat
      | None => ret false
      end
  | OSelectQuery q =>
      match sq_joins q with
      | Some joins => ret (0 <? length joins)%nat
      | None => ret false
      end
  | ODeleteQuery q =>
      match del_using q with
      | Some tables => ret (0 <? length tables)%nat
      | None => ret false
      end
  | _ =>
      throw (Thrown "_topLevelHasMoreThanOneTable called with something that is not a select, update, or delete query")
  end.

(** [_getTableNodeFromTopLevelQueryNode], together with the two
    invariants its caller checks on the result. *)
Definition _getTableNodeFromTopLevelQueryNode (node : OperationNode)
  : M TableNode :=
  match node with
  | OUpdateQuery q =>
      match upd_table q with
      | TableE t => ret t
      | AliasE _ _ =>
          throw (InvariantFailed "kysely-access-control: update query must have a table")
      end
  | OSelectQuery q =>
      match sq_from q with
      | Some [TableE t] => ret t
      | Some [AliasE _ _] =>
          throw (InvariantFailed "kysely-access-control: select query must have a table")
      | _ =>
          throw (InvariantFailed "kysely-access-control: select query must have exactly one from")
      end
  | ODeleteQuery q =>
      match del_from q with
      | [TableE t] => ret t
      | [AliasE _ _] =>
          throw (InvariantFailed "kysely-access-control: delete query must have a table")
      | _ =>
          throw (InvariantFailed "kysely-access-control: delete query must have exactly one from")
      end
  | OInsertQuery q => ret (ins_into q)
  | _ =>
      throw (Thrown "_getTopLevelTableNode called with something that is not a select, update, delete, or insert query")
  end.

(** [super.transformReference]: the table and the column are copied. *)
Definition super_transformReference (node : ReferenceNode) : M ReferenceNode :=
  ret node.

(** The [tableNode] that [transformReference] settles on: the table
    written with the column, else the single table of the statement
    that owns the enclosing where clause. *)
Definition resolveReferenceTable (nodeStack : list OperationNode)
           (node : ReferenceNode) : M TableNode :=
  let isAChildOfWhere := isAChildOf WhereNode_is nodeStack in
  match ref_table node with
  | None =>
      if negb isAChildOfWhere
      then throw (Thrown "kysely-access-control: could not find table node for column reference in join")
      else
        let reversedStack := rev nodeStack in
        let idxOfParent :=
          match findIndex WhereNode_is reversedStack with
          | Some idxOfWhere => idxOfWhere + 1
          | None => 0
          end in
        match nth_error reversedStack idxOfParent with
        | None =>
            throw (InvariantFailed "kysely-access-control: could not find parent of where node")
        | Some parentOfWhere =>
            hasJoins <- _topLevelHasMoreThanOneTable parentOfWhere ;;
            if hasJoins : bool
            then throw (Thrown "kysely-access-control: if joins are present, each column reference in where must specify the table")
            else _getTableNodeFromTopLevelQueryNode parentOfWhere
        end
  | Some tableNodeSpecifiedWithColumn => ret tableNodeSpecifiedWithColumn
  end.

(** [transformReference]. [nodeStack] is the stack while the method
    runs, the reference itself on top. *)
Definition transformReference (nodeStack : list OperationNode)
           (node : ReferenceNode) : M ReferenceNode :=
  let isAChildOfWhere := isAChildOf WhereNode_is nodeStack in
  let isAChildOfJoin := isAChildOf JoinNode_is nodeStack in
  if negb isAChildOfWhere && negb isAChildOfJoin
  then super_transformReference node
  else
    tableNode <- resolveReferenceTable nodeStack node ;;
    match ref_column node with
    | SelectAllNode =>
        throw (InvariantFailed "kysely-access-control: select all in filter statement is not supported")
    | ColumnNode column =>
        guardResult <- callColumnGuard tableNode column Select ColumnInWhereOrJoin ;;
        throwIfDenyWithReason guardResult
          ("FILTER denied on column " ++ qualifiedTableName tableNode ++ "." ++ column) ;;;
        (* Must be allow now *)
        super_transformReference node
    end.

(** Expressions: the default transformer copies every node and
    visits its children left to right; references go through
    [transformReference]. [nodeStack] has [e] on top. *)
Fixpoint transformExpression (nodeStack : list OperationNode) (e : Expression)
  : M Expression :=
  let visit := fun child => transformExpression (push nodeStack (OExpression child)) child in
  match e with
  | ReferenceExpr r =>
      r' <- transformReference nodeStack r ;; ret (ReferenceExpr r')
  | ValueNode v => ret (ValueNode v)
  | BinaryOperationNode l op r =>
      l' <- visit l ;; r' <- visit r ;; ret (BinaryOperationNode l' op r')
  | AndNode l r => l' <- visit l ;; r' <- visit r ;; ret (AndNode l' r')
  | OrNode l r => l' <- visit l ;; r' <- visit r ;; ret (OrNode l' r')
  | ParensNode e1 => e1' <- visit e1 ;; ret (ParensNode e1')
  | RawNode sql => ret (RawNode sql)
  end.

Definition visitExpression (nodeStack : list OperationNode) (e : Expression)
  : M Expression :=
  transformExpression (push nodeStack (OExpression e)) e.

(** [super.transformWhere], called on the current stack. *)
Definition super_transformWhere (nodeStack : list OperationNode) (node : WhereNode)
  : M WhereNode :=
  e' <- visitExpression nodeStack (where_ node) ;; ret (mkWhereNode e').

Definition visitWhere (nodeStack : list OperationNode) (node : WhereNode)
  : M WhereNode :=
  super_transformWhere (push nodeStack (OWhere node)) node.

Definition visitOn (nodeStack : list OperationNode) (node : OnNode) : M OnNode :=
  e' <- visitExpression (push nodeStack (OOn node)) (on_ node) ;; ret (mkOnNode e').

(** [transformSelection] (default). *)
Definition visitSelection (nodeStack : list OperationNode) (node : SelectionNode)
  : M SelectionNode :=
  let nodeStack := push nodeStack (OSelection node) in
  match selection node with
  | SelReference r =>
      r' <- transformReference (push nodeStack (OExpression (ReferenceExpr r))) r ;;
      ret (mkSelectionNode (SelReference r'))
  | SelSelectAll => ret (mkSelectionNode SelSelectAll)
  | SelAlias e alias =>
      e' <- visitExpression (push nodeStack (OAliasedExpression e alias)) e ;;
      ret (mkSelectionNode (SelAlias e' alias))
  end.

(** The loop of [_transformSelections]. *)
Fixpoint transformSelectionsLoop (selections : list SelectionNode)
         (tableNode : TableNode) (scopedHasMoreThanOneTable : bool)
         (statementType : StatementType) : M (list SelectionNode) :=
  match selections with
  | [] => ret []
  | selectionNode :: rest =>
      match selection selectionNode with
      | SelReference r =>
          match ref_column r with
          | SelectAllNode =>
              throw (InvariantFailed "kysely-access-control: .selectAll() is not supported")
          | ColumnNode column =>
              tableNodeToUseForColumn <-
                (if scopedHasMoreThanOneTable
                 then match ref_table r with
                      | Some columnIncludedTableNode => ret columnIncludedTableNode
                      | None =>
                          throw (InvariantFailed
                                   ("kysely-access-control: table must be specified for each column when joining - could not infer table for " ++ column))
                      end
                 else ret tableNode) ;;
              guardResult <- callColumnGuard tableNodeToUseForColumn column
                               statementType ColumnInSelectOrReturning ;;
              throwIfDenyWithReason guardResult
                ("SELECT denied on column "
                   ++ qualifiedTableName tableNodeToUseForColumn ++ "." ++ column) ;;;
              transformedRest <- transformSelectionsLoop rest tableNode
                                   scopedHasMoreThanOneTable statementType ;;
              match guardResult with
              | COmit => ret transformedRest
              | _ => ret (selectionNode :: transformedRest)
              end
          end
      | _ =>
          throw (InvariantFailed "kysely-access-control: selection must be a reference node")
      end
  end.

(** [_transformSelections] *)
Definition _transformSelections (nodeStack : list OperationNode)
           (selections : list SelectionNode) (tableNode : TableNode)
           (scopedHasMoreThanOneTable : bool) (statementType : StatementType)
  : M (list SelectionNode) :=
  let selectAllIsAllowed :=
    isAChildOf JoinNode_is nodeStack
    || isAChildOf FromNode_is nodeStack
    || isAChildOf UsingNode_is nodeStack in
  if selectAllIsAllowed then ret selections
  else transformSelectionsLoop selections tableNode scopedHasMoreThanOneTable
         statementType.

(** [_transformWhere] *)
Definition _transformWhere (nodeStack : list OperationNode)
           (guardResult : TableGuardResult) (nodeWhere : option WhereNode)
  : M (option WhereNode) :=
  match guardResult with
  | TAllow => ret nodeWhere
  | TAllowWhere guardWhereUnguarded =>
      let guardWhere := mkWhereNode guardWhereUnguarded in
      let newWhere :=
        match nodeWhere with
        | Some w => mkWhereNode (AndNode (where_ guardWhere) (where_ w))
        | None => guardWhere
        end in
      w' <- super_transformWhere nodeStack newWhere ;; ret (Some w')
  | _ =>
      throw (InvariantFailed "kysely-access-control: returned where must be an expression wrapper")
  end.

(** [transformReturning]; [nodeStack] has the returning node on top. *)
Definition super_transformReturning (nodeStack : list OperationNode)
           (node : ReturningNode) : M ReturningNode :=
  selections' <- transformNodeList (visitSelection nodeStack) (ret_selections node) ;;
  ret (mkReturningNode selections').

Definition transformReturning (nodeStack : list OperationNode)
           (node : ReturningNode) : M ReturningNode :=
  match getParentNode nodeStack with
  | None => throw TypeError
  | Some parentNode =>
      found <-
        match parentNode with
        | OInsertQuery q => ret (Insert, Some (TableE (ins_into q)))
        | OUpdateQuery q => ret (Update, Some (upd_table q))
        | ODeleteQuery q => ret (Delete, nth_error (del_from q) 0)
        | _ =>
            throw (InvariantFailed
                     ("kysely-access-control: returning must be used with insert, update, or delete. kind was " ++ kindOf parentNode))
        end ;;
      let '(statementType, tableNode) := found in
      match tableNode with
      | None => throw TypeError
      | Some (AliasE _ _) =>
          throw (InvariantFailed "kysely-access-control: currently only update/delete from a table")
      | Some (TableE tableNode) =>
          transformedSelections <- _transformSelections nodeStack
                                     (ret_selections node) tableNode false
                                     statementType ;;
          super_transformReturning nodeStack (mkReturningNode transformedSelections)
      end
  end.

Definition visitReturning (nodeStack : list OperationNode) (node : ReturningNode)
  : M ReturningNode :=
  transformReturning (push nodeStack (OReturning node)) node.

(** *** The part that recurses through nested selects

    [visitSelectQuery] stands for [this.transformNode] on a nested
    [SelectQueryNode]; its stack argument already has that node on
    top. *)
Section Nested.

Variable visitSelectQuery :
  list OperationNode -> SelectQueryNode -> M SelectQueryNode.

(** [transformNode] on a relation: a [TableNode] is copied, an
    [AliasNode] has its sub-select transformed. *)
Definition visitTableExpr (nodeStack : list OperationNode) (t : TableExpr)
  : M TableExpr :=
  match t with
  | TableE tn => ret (TableE tn)
  | AliasE q alias =>
      let nodeStack := push nodeStack (OTableExpr t) in
      q' <- visitSelectQuery (push nodeStack (OSelectQuery q)) q ;;
      ret (AliasE q' alias)
  end.

(** [AliasNode.create(SelectQueryNode.cloneWithSelections(
    SelectQueryNode.createFrom([table]), [SelectionNode.createSelectAll()]),
    IdentifierNode.create(table.table.identifier.name))] *)
Definition rlsSubquery (tableNode : TableNode) : TableExpr :=
  AliasE (selectAllFrom tableNode) (tn_name tableNode).

Definition super_transformJoin (nodeStack : list OperationNode) (node : JoinNode)
  : M JoinNode :=
  table' <- visitTableExpr nodeStack (join_table node) ;;
  on' <- transformOptional (visitOn nodeStack) (join_on node) ;;
  ret (mkJoinNode (join_type node) table' on').

(** [transformJoin]; [nodeStack] has the join node on top. *)
Definition transformJoin (nodeStack : list OperationNode) (node : JoinNode)
  : M JoinNode :=
  match join_table node with
  | AliasE _ _ => super_transformJoin nodeStack node
  | TableE tableNode =>
      guardResult <- callTableGuard tableNode Select TableInJoin ;;
      throwIfDenyWithReason guardResult
        ("JOIN denied on table " ++ qualifiedTableName tableNode) ;;;
      match guardResult with
      | TAllow => super_transformJoin nodeStack node
      | _ =>
          let newTable := rlsSubquery tableNode in
          super_transformJoin nodeStack
            (mkJoinNode (join_type node) newTable (join_on node))
      end
  end.

Definition visitJoin (nodeStack : list OperationNode) (node : JoinNode)
  : M JoinNode :=
  transformJoin (push nodeStack (OJoin node)) node.

(** The [map] callback shared by [transformFrom] and
    [transformUsing]. *)
Definition guardSecondarySource (statementType : StatementType)
           (from : TableExpr) : M TableExpr :=
  match from with
  | AliasE _ _ => ret from
  | TableE tableNode =>
      guardResult <- callTableGuard tableNode statementType TableInJoin ;;
      throwIfDenyWithReason guardResult
        ("JOIN denied on table " ++ qualifiedTableName tableNode) ;;;
      match guardResult with
      | TAllow => ret from
      | _ => ret (rlsSubquery tableNode)
      end
  end.

(** [transformFrom]; [nodeStack] has the from node on top. *)
Definition transformFrom (nodeStack : list OperationNode)
           (froms : list TableExpr) : M (list TableExpr) :=
  match getParentNode nodeStack with
  | None => throw TypeError
  | Some (OUpdateQuery _) =>
      newFroms <- transformNodeList (guardSecondarySource Update) froms ;;
      transformNodeList (visitTableExpr nodeStack) newFroms
  | Some _ => transformNodeList (visitTableExpr nodeStack) froms
  end.

Definition visitFrom (nodeStack : list OperationNode) (froms : list TableExpr)
  : M (list TableExpr) :=
  transformFrom (push nodeStack (OFrom froms)) froms.

(** [transformUsing]; [nodeStack] has the using node on top. *)
Definition transformUsing (nodeStack : list OperationNode)
           (tables : list TableExpr) : M (list TableExpr) :=
  match getParentNode nodeStack with
  | None => throw TypeError
  | Some (ODeleteQuery _) =>
      newTables <- transformNodeList (guardSecondarySource Delete) tables ;;
      transformNodeList (visitTableExpr nodeStack) newTables
  | Some _ => transformNodeList (visitTableExpr nodeStack) tables
  end.

Definition visitUsing (nodeStack : list OperationNode) (tables : list TableExpr)
  : M (list TableExpr) :=
  transformUsing (push nodeStack (OUsing tables)) tables.

(** [super.transformSelectQuery]: from, selections, joins, where. *)
Definition super_transformSelectQuery (nodeStack : list OperationNode)
           (node : SelectQueryNode) : M SelectQueryNode :=
  from' <- transformOptional (visitFrom nodeStack) (sq_from node) ;;
  selections' <- transformOptional (transformNodeList (visitSelection nodeStack))
                   (sq_selections node) ;;
  joins' <- transformOptional (transformNodeList (visitJoin nodeStack))
              (sq_joins node) ;;
  where' <- transformOptional (visitWhere nodeStack) (sq_where node) ;;
  ret (mkSelectQueryNode from' selections' joins' where').

(** [transformSelectQuery]; [nodeStack] has the select node on top. *)
Definition transformSelectQueryBody (nodeStack : list OperationNode)
           (node : SelectQueryNode) : M SelectQueryNode :=
  match sq_from node with
  | None => super_transformSelectQuery nodeStack node
  | Some froms =>
      invariant (length froms =? 1)%nat
        "kysely-access-control: there must be exactly one from node when not joining" ;;;
      match nth_error froms 0 with
      | Some (TableE tableNode) =>
          match sq_selections node with
          | None =>
              throw (InvariantFailed "kysely-access-control: selections should be defined")
          | Some selections =>
              guardResult <- callTableGuard tableNode Select TableTopLevel ;;
              throwIfDenyWithReason guardResult
                ("SELECT denied on table " ++ qualifiedTableName tableNode) ;;;
              let hasJoin :=
                match sq_joins node with
                | Some joins => (0 <? length joins)%nat
                | None => false
                end in
              transformedSelections <- _transformSelections nodeStack selections
                                         tableNode hasJoin Select ;;
              newWhere <- _transformWhere nodeStack guardResult (sq_where node) ;;
              super_transformSelectQuery nodeStack
                (mkSelectQueryNode (sq_from node) (Some transformedSelections)
                                   (sq_joins node) newWhere)
          end
      | _ =>
          throw (InvariantFailed "kysely-access-control: currently only select from table/view is supported")
      end
  end.

(** The loop over [node.updates] in [transformUpdateQuery]. *)
Fixpoint checkUpdateColumns (tableNode : TableNode)
         (updates : list ColumnUpdateNode) : M unit :=
  match updates with
  | [] => ret tt
  | columnUpdateNode :: rest =>
      let column := cu_column columnUpdateNode in
      guardResult <- callColumnGuard tableNode column Update ColumnInUpdateSet ;;
      throwIfDenyWithReason guardResult
        ("UPDATE denied on column " ++ qualifiedTableName tableNode ++ "." ++ column) ;;;
      match guardResult with
      | COmit =>
          throw (Thrown ("Omit is not supported in update set: got Omit for " ++ column))
      | _ => checkUpdateColumns tableNode rest
      end
  end.

Definition visitColumnUpdate (nodeStack : list OperationNode)
           (node : ColumnUpdateNode) : M ColumnUpdateNode :=
  value' <- visitExpression (push nodeStack (OColumnUpdate node)) (cu_value node) ;;
  ret (mkColumnUpdateNode (cu_column node) value').

(** [super.transformUpdateQuery]: table, from, joins, where, updates,
    returning. *)
Definition super_transformUpdateQuery (nodeStack : list OperationNode)
           (node : UpdateQueryNode) : M UpdateQueryNode :=
  table' <- visitTableExpr nodeStack (upd_table node) ;;
  from' <- transformOptional (visitFrom nodeStack) (upd_from node) ;;
  joins' <- transformOptional (transformNodeList (visitJoin nodeStack))
              (upd_joins node) ;;
  where' <- transformOptional (visitWhere nodeStack) (upd_where node) ;;
  updates' <- transformOptional (transformNodeList (visitColumnUpdate nodeStack))
                (upd_updates node) ;;
  returning' <- transformOptional (visitReturning nodeStack)
                  (upd_returning node) ;;
  ret (mkUpdateQueryNode table' from' joins' where' updates' returning').

(** [transformUpdateQuery]; [nodeStack] has the update node on top. *)
Definition transformUpdateQuery (nodeStack : list OperationNode)
           (node : UpdateQueryNode) : M UpdateQueryNode :=
  match upd_table node with
  | AliasE _ _ =>
      throw (InvariantFailed "kysely-access-control: only table nodes are supported for update queries")
  | TableE tableNode =>
      guardResult <- callTableGuard tableNode Update TableTopLevel ;;
      throwIfDenyWithReason guardResult
        ("UPDATE denied on table " ++ qualifiedTableName tableNode) ;;;
      match upd_updates node with
      | Some updates => checkUpdateColumns tableNode updates
      | None => ret tt
      end ;;;
      newWhere <- _transformWhere nodeStack guardResult (upd_where node) ;;
      super_transformUpdateQuery nodeStack
        (mkUpdateQueryNode (upd_table node) (upd_from node) (upd_joins node)
                           newWhere (upd_updates node) (upd_returning node))
  end.

(** [super.transformDeleteQuery]: from, using, joins, where,
    returning. *)
Definition super_transformDeleteQuery (nodeStack : list OperationNode)
           (node : DeleteQueryNode) : M DeleteQueryNode :=
  from' <- visitFrom nodeStack (del_from node) ;;
  using' <- transformOptional (visitUsing nodeStack) (del_using node) ;;
  joins' <- transformOptional (transformNodeList (visitJoin nodeStack))
              (del_joins node) ;;
  where' <- transformOptional (visitWhere nodeStack) (del_where node) ;;
  returning' <- transformOptional (visitReturning nodeStack)
                  (del_returning node) ;;
  ret (mkDeleteQueryNode from' using' joins' where' returning').

(** [transformDeleteQuery]; [nodeStack] has the delete node on top. *)
Definition transformDeleteQuery (nodeStack : list OperationNode)
           (node : DeleteQueryNode) : M DeleteQueryNode :=
  invariant (length (del_from node) =? 1)%nat
    "kysely-access-control: can only delete from one table at a time" ;;;
  match nth_error (del_from node) 0 with
  | Some (TableE tableNode) =>
      guardResult <- callTableGuard tableNode Delete TableTopLevel ;;
      throwIfDenyWithReason guardResult
        ("DELETE denied on table " ++ qualifiedTableName tableNode) ;;;
      (* Must be allow - TODO add RLS *)
      super_transformDeleteQuery nodeStack node
  | _ =>
      throw (InvariantFailed "kysely-access-control: can only delete from tables")
  end.

End Nested.

(** The loop over [columns] in [transformInsertQuery]. *)
Fixpoint transformInsertColumns (tableNode : TableNode) (columns : list string)
  : M (list string) :=
  match columns with
  | [] => ret []
  | column :: rest =>
      guardResult <- callColumnGuard tableNode column Insert ColumnInInsert ;;
      throwIfDenyWithReason guardResult
        ("INSERT denied on column " ++ qualifiedTableName tableNode ++ "." ++ column) ;;;
      transformedRest <- transformInsertColumns tableNode rest ;;
      match guardResult with
      | COmit => ret transformedRest
      | _ => ret (column :: transformedRest)
      end
  end.

(** [super.transformInsertQuery]: into, columns, values, returning. *)
Definition super_transformInsertQuery (nodeStack : list OperationNode)
           (node : InsertQueryNode) : M InsertQueryNode :=
  values' <- transformOptional
               (fun rows =>
                  transformNodeList
                    (transformNodeList (visitExpression (push nodeStack (OValues rows))))
                    rows)
               (ins_values node) ;;
  returning' <- transformOptional (visitReturning nodeStack) (ins_returning node) ;;
  ret (mkInsertQueryNode (ins_into node) (ins_columns node) values' returning').

(** [transformInsertQuery]; [nodeStack] has the insert node on top. *)
Definition transformInsertQuery (nodeStack : list OperationNode)
           (node : InsertQueryNode) : M InsertQueryNode :=
  let tableNode := ins_into node in
  let columns := ins_columns node in
  guardResult <- callTableGuard tableNode Insert TableTopLevel ;;
  throwIfDenyWithReason guardResult
    ("INSERT denied on table " ++ qualifiedTableName tableNode) ;;;
  match columns with
  | None => super_transformInsertQuery nodeStack node
  | Some columns =>
      transformedColumns <- transformInsertColumns tableNode columns ;;
      super_transformInsertQuery nodeStack
        (mkInsertQueryNode (ins_into node) (Some transformedColumns)
                           (ins_values node) (ins_returning node))
  end.

(** [transformNode] on a select query: the recursion through nested
    selects is cut after [fuel] levels. *)
Fixpoint transformSelectQuery (fuel : nat)
  : list OperationNode -> SelectQueryNode -> M SelectQueryNode :=
  match fuel with
  | O => fun _ _ => throw OutOfFuel
  | S fuel' => transformSelectQueryBody (transformSelectQuery fuel')
  end.

(** Levels of nested selects the transformer may enter below a
    node: a joined table may become a sub-select. *)
Fixpoint depthSelect (q : SelectQueryNode) : nat :=
  match q with
  | mkSelectQueryNode _ _ joins _ =>
      S (match joins with
         | None => 0
         | Some js =>
             (fix depthJoins (l : list JoinNode) : nat :=
                match l with
                | [] => 0
                | j :: rest => Nat.max (depthJoin j) (depthJoins rest)
                end) js
         end)
  end
with depthTableExpr (t : TableExpr) : nat :=
  match t with
  | TableE _ => 1
  | AliasE q _ => depthSelect q
  end
with depthJoin (j : JoinNode) : nat :=
  match j with
  | mkJoinNode _ t _ => depthTableExpr t
  end.

Definition depthTableExprs (l : list TableExpr) : nat :=
  fold_right (fun t acc => Nat.max (depthTableExpr t) acc) 0 l.

Definition depthJoins (l : option (list JoinNode)) : nat :=
  match l with
  | None => 0
  | Some js => fold_right (fun j acc => Nat.max (depthJoin j) acc) 0 js
  end.

Definition depthRoot (node : RootOperationNode) : nat :=
  match node with
  | SelectQuery q => depthSelect q
  | InsertQuery _ => 0
  | UpdateQuery q =>
      Nat.max (depthTableExprs (match upd_from q with Some f => f | None => [] end))
              (depthJoins (upd_joins q))
  | DeleteQuery q =>
      Nat.max (depthTableExprs (del_from q))
              (Nat.max (depthTableExprs (match del_using q with Some u => u | None => [] end))
                       (depthJoins (del_joins q)))
  end.

(** [plugin.transformQuery]: a fresh transformer's [transformNode] on
    the root, with fuel for every level the root can reach. *)
Definition transformQuery (node : RootOperationNode) : M RootOperationNode :=
  let fuel := depthRoot node in
  match node with
  | SelectQuery q =>
      q' <- transformSelectQuery fuel [OSelectQuery q] q ;; ret (SelectQuery q')
  | InsertQuery q =>
      q' <- transformInsertQuery [OInsertQuery q] q ;; ret (InsertQuery q')
  | UpdateQuery q =>
      q' <- transformUpdateQuery (transformSelectQuery fuel) [OUpdateQuery q] q ;;
      ret (UpdateQuery q')
  | DeleteQuery q =>
      q' <- transformDeleteQuery (transformSelectQuery fuel) [ODeleteQuery q] q ;;
      ret (DeleteQuery q')
  end.

End Transformer.

(** [createAccessControlPlugin(guard).transformQuery] *)
Definition createAccessControlPlugin (guard : KyselyAccessControlGuard)
  : RootOperationNode -> M RootOperationNode :=
  transformQuery (fullGuard guard).

End Engine.

(* ================================================================== *)
(** ** Definitions used to state the properties *)
(* ================================================================== *)

(** The usage contexts a grant's permission covers, whatever the
    statement: "all" covers every context, "select" projection/returning
    and filter/join conditions, "update" the set clause, "insert" the
    insert column list, "delete" none. *)
Definition permissionCovers (p : Permission) (ctx : ColumnUsageContext) : bool :=
  match p, ctx with
  | ForAll, _ => true
  | ForSelect, ColumnInSelectOrReturning
  | ForSelect, ColumnInWhereOrJoin
  | ForUpdate, ColumnInUpdateSet
  | ForInsert, ColumnInInsert => true
  | _, _ => false
  end.

(** A grant without [where]. *)
Definition grantHasNoPredicate (g : Grant) : bool := negb (isGrantWithWhereClause g).

(** What a computation of the transformer guarantees: [P] of the value
    it returns, or [E] of the error it stops with. *)
Definition Post {A} (P : A -> Prop) (E : Engine.Error -> Prop) (m : Engine.M A)
  : Prop :=
  match Engine.outcome m with
  | Engine.Ok a => P a
  | Engine.Err e => E e
  end.

(** The errors that reject a statement for its shape, as opposed to an
    authorization denial. *)
Definition unsupportedConstruct (e : Engine.Error) : Prop :=
  match e with
  | Engine.Thrown _ | Engine.TypeError | Engine.InvariantFailed _ => True
  | Engine.Denied _ | Engine.OutOfFuel => False
  end.

(** Any error of the source: the model's recursion bound was not hit. *)
Definition withinFuel (e : Engine.Error) : Prop := e <> Engine.OutOfFuel.

(** A guard whose two functions always return plain Allow. *)
Definition alwaysAllows (g : FullKyselyAccessControlGuard) : Prop :=
  (forall t s c, guard_table g t s c = TAllow)
  /\ (forall t col s c, guard_column g t col s c = CAllow).

(** No guard supplied: [createAccessControlPlugin({})]. *)
Definition noGuard : KyselyAccessControlGuard := mkPartialGuard None None.

(** How a filter clause [w'] relates to the original [w] after the table
    guard answered [r]: unchanged under plain Allow; under Allow with a
    predicate, the predicate, AND-ed in front of the original filter if
    there was one. *)
Definition splicedWhere (r : TableGuardResult) (w w' : option WhereNode) : Prop :=
  match r with
  | TAllow => w' = w
  | TAllowWhere p =>
      w' = Some (mkWhereNode match w with
                             | Some w0 => AndNode p (where_ w0)
                             | None => p
                             end)
  | TDeny | TDenyReason _ => False
  end.

(** The table a statement is primarily about, with the statement type
    the table guard is asked for: the single source table of a select
    that has a selection list, the target of an insert, the table of an
    update, the single source table of a delete. *)
Definition primaryTable (node : RootOperationNode)
  : option (StatementType * TableNode) :=
  match node with
  | SelectQuery q =>
      match sq_from q, sq_selections q with
      | Some [TableE t], Some _ => Some (Select, t)
      | _, _ => None
      end
  | InsertQuery q => Some (Insert, ins_into q)
  | UpdateQuery q =>
      match upd_table q with
      | TableE t => Some (Update, t)
      | AliasE _ _ => None
      end
  | DeleteQuery q =>
      match del_from q with
      | [TableE t] => Some (Delete, t)
      | _ => None
      end
  end.

(** No constraint on the error: used when only returned values matter. *)
Definition anyError (e : Engine.Error) : Prop := True.

(** Any error but an authorization denial. *)
Definition notDenied (e : Engine.Error) : Prop :=
  match e with
  | Engine.Denied _ => False
  | _ => True
  end.

(** Levels of nested selects below a relation that is only copied: a
    table needs none. *)
Definition nestedDepth (t : TableExpr) : nat :=
  match t with
  | TableE _ => 0
  | AliasE q _ => Engine.depthSelect q
  end.

(** [guardResult === Omit] *)
Definition isOmit (r : ColumnGuardResult) : bool :=
  match r with
  | COmit => true
  | _ => false
  end.

(** The same grant with another column list. *)
Definition withColumns (g : Grant) (columns : list string) : Grant :=
  mkGrant (g_table g) (g_schema g) (g_for g) (Some columns) (g_whereClause g).

(** [joins !== undefined && joins.length > 0] *)
Definition selectHasJoin (q : SelectQueryNode) : bool :=
  match sq_joins q with
  | Some joins => (0 <? length joins)%nat
  | None => false
  end.

(** What the column guard answers for an item of a projection or
    returning list: the item must be a column reference; its table is the
    one written with the column when more than one table is in scope,
    the statement's table otherwise. *)
Definition projectionAnswer (g : FullKyselyAccessControlGuard) (tableNode : TableNode)
           (scopedHasMoreThanOneTable : bool) (statementType : StatementType)
           (s : SelectionNode) : option ColumnGuardResult :=
  match selection s with
  | SelReference r =>
      match ref_column r with
      | ColumnNode c =>
          match (if scopedHasMoreThanOneTable then ref_table r else Some tableNode) with
          | Some t => Some (guard_column g t c statementType ColumnInSelectOrReturning)
          | None => None
          end
      | SelectAllNode => None
      end
  | _ => None
  end.

Definition authorizedProjection (g : FullKyselyAccessControlGuard)
           (tableNode : TableNode) (scoped : bool) (statementType : StatementType)
           (s : SelectionNode) : Prop :=
  exists r, projectionAnswer g tableNode scoped statementType s = Some r
            /\ @Engine.denial _ Engine.ColumnGuardResult_denial r = None.

Definition keptInProjection (g : FullKyselyAccessControlGuard)
           (tableNode : TableNode) (scoped : bool) (statementType : StatementType)
           (s : SelectionNode) : bool :=
  match projectionAnswer g tableNode scoped statementType s with
  | Some COmit => false
  | _ => true
  end.

(** The statement a returning clause belongs to, with its table. *)
Definition returningOwner (parentNode : OperationNode)
  : option (StatementType * TableNode) :=
  match parentNode with
  | OInsertQuery q => Some (Insert, ins_into q)
  | OUpdateQuery q =>
      match upd_table q with
      | TableE t => Some (Update, t)
      | AliasE _ _ => None
      end
  | ODeleteQuery q =>
      match del_from q with
      | TableE t :: _ => Some (Delete, t)
      | _ => None
      end
  | _ => None
  end.

(** [isAChildOf(JoinNode) || isAChildOf(FromNode) || isAChildOf(UsingNode)] *)
Definition underSecondarySource (nodeStack : list OperationNode) : bool :=
  Engine.isAChildOf JoinNode_is nodeStack
  || Engine.isAChildOf FromNode_is nodeStack
  || Engine.isAChildOf UsingNode_is nodeStack.

(** The operation named in a table denial. *)
Definition operationName (statementType : StatementType) : string :=
  match statementType with
  | Select => "SELECT"
  | Insert => "INSERT"
  | Update => "UPDATE"
  | Delete => "DELETE"
  end.

(** What the [map] callback of [transformFrom] and [transformUsing]
    makes of a source [t]: a denied table stops the transformation, a
    table allowed with a predicate becomes the derived [select * from t]
    aliased with the table's name, anything else is kept. *)
Definition guardedSource (g : FullKyselyAccessControlGuard)
           (statementType : StatementType) (t t1 : TableExpr) : Prop :=
  match t with
  | TableE tableNode =>
      match guard_table g tableNode statementType TableInJoin with
      | TAllow => t1 = t
      | TAllowWhere _ => t1 = Engine.rlsSubquery tableNode
      | TDeny | TDenyReason _ => False
      end
  | AliasE _ _ => t1 = t
  end.

(** What the copying transformer then makes of a source [t1]: a table is
    copied; an aliased sub-select keeps its alias, and when it is
    [select * from t] it is filtered as the table guard decides for a
    top-level Select on [t]. *)
Definition visitedSource (g : FullKyselyAccessControlGuard) (t1 t' : TableExpr)
  : Prop :=
  match t1 with
  | TableE _ => t' = t1
  | AliasE q alias =>
      exists q',
        t' = AliasE q' alias
        /\ forall tableNode,
            q = selectAllFrom tableNode ->
            exists w,
              q' = mkSelectQueryNode (Some [TableE tableNode])
                                     (Some [createSelectAll]) None w
              /\ splicedWhere (guard_table g tableNode Select TableTopLevel) None w
  end.

(** How a secondary source of an update (its from list) or of a delete
    (its using list) is rewritten, [statementType] being the statement's
    own type. *)
Definition secondarySourceRewritten (g : FullKyselyAccessControlGuard)
           (statementType : StatementType) (t t' : TableExpr) : Prop :=
  match t with
  | TableE tableNode =>
      match guard_table g tableNode statementType TableInJoin with
      | TAllow => t' = TableE tableNode
      | TAllowWhere _ =>
          exists w,
            t' = AliasE (mkSelectQueryNode (Some [TableE tableNode])
                                           (Some [createSelectAll]) None w)
                        (tn_name tableNode)
            /\ splicedWhere (guard_table g tableNode Select TableTopLevel) None w
      | TDeny | TDenyReason _ => False
      end
  | AliasE _ alias => exists q', t' = AliasE q' alias
  end.

(** Two answers of a table guard that grant the same: the same decision
    and, for Allow with a predicate, predicates that hold of the same
    rows. *)
Definition equivalentTableAnswers (r r' : TableGuardResult) : Prop :=
  match r, r' with
  | TAllow, TAllow | TDeny, TDeny => True
  | TAllowWhere e, TAllowWhere e' => forall atom, holds atom e = holds atom e'
  | TDenyReason reason, TDenyReason reason' => reason = reason'
  | _, _ => False
  end.

(** A guard call that asks the column guard about a column as an item
    of a projection or of a returning list. *)
Definition isProjectionCheck (ev : Engine.Event) : bool :=
  match ev with
  | Engine.ColumnGuardCalled _ _ _ ColumnInSelectOrReturning => true
  | _ => false
  end.

(** A computation none of whose guard calls is such a call. *)
Definition noProjectionCheck {A} (m : Engine.M A) : Prop :=
  Forall (fun ev => isProjectionCheck ev = false) (Engine.events m).

(** The calls of the column guard that the column references of a filter
    or of a join condition give rise to, in the order of the expression:
    one for each reference to a column whose table is known, asked for a
    Select statement and the filter/join usage. [scope] is the table of a
    column written without its table, when the statement that owns the
    filter has a single table in scope. *)
Fixpoint filterChecks (scope : option TableNode) (e : Expression)
  : list Engine.Event :=
  match e with
  | ReferenceExpr r =>
      match ref_column r, match ref_table r with
                          | Some t => Some t
                          | None => scope
                          end with
      | ColumnNode c, Some t =>
          [Engine.ColumnGuardCalled t c Select ColumnInWhereOrJoin]
      | _, _ => []
      end
  | BinaryOperationNode l _ r => filterChecks scope l ++ filterChecks scope r
  | AndNode l r => filterChecks scope l ++ filterChecks scope r
  | OrNode l r => filterChecks scope l ++ filterChecks scope r
  | ParensNode e1 => filterChecks scope e1
  | ValueNode _ => []
  | RawNode _ => []
  end.

Definition whereChecks (scope : option TableNode) (w : option WhereNode)
  : list Engine.Event :=
  match w with
  | Some w0 => filterChecks scope (where_ w0)
  | None => []
  end.

(** A join condition has no table of its own: its columns must be
    written with their tables. *)
Definition joinChecks (j : JoinNode) : list Engine.Event :=
  match join_on j with
  | Some o => filterChecks None (on_ o)
  | None => []
  end.

Definition joinsChecks (joins : option (list JoinNode)) : list Engine.Event :=
  match joins with
  | Some js => flat_map joinChecks js
  | None => []
  end.

(** The table that a column written without its table belongs to in the
    filter of a statement: the statement's table when no other table is
    in scope ([_topLevelHasMoreThanOneTable] is false and
    [_getTableNodeFromTopLevelQueryNode] finds a table). *)
Definition filterScopeOf (stmt : OperationNode) : option TableNode :=
  match stmt with
  | OSelectQuery q =>
      if selectHasJoin q then None
      else match sq_from q with
           | Some [TableE t] => Some t
           | _ => None
           end
  | OUpdateQuery q =>
      match upd_from q with
      | Some (_ :: _) => None
      | _ => match upd_table q with
             | TableE t => Some t
             | AliasE _ _ => None
             end
      end
  | ODeleteQuery q =>
      match del_using q with
      | Some (_ :: _) => None
      | _ => match del_from q with
             | [TableE t] => Some t
             | _ => None
             end
      end
  | _ => None
  end.

(** The root of a statement as the transformer's node stack holds it. *)
Definition rootOperationNode (node : RootOperationNode) : OperationNode :=
  match node with
  | SelectQuery q => OSelectQuery q
  | InsertQuery q => OInsertQuery q
  | UpdateQuery q => OUpdateQuery q
  | DeleteQuery q => ODeleteQuery q
  end.

(** The calls of the column guard for the columns of a statement's own
    filter clause and of the conditions of its joins. *)
Definition statementFilterChecks (node : RootOperationNode) : list Engine.Event :=
  let scope := filterScopeOf (rootOperationNode node) in
  match node with
  | SelectQuery q => whereChecks scope (sq_where q) ++ joinsChecks (sq_joins q)
  | UpdateQuery q => whereChecks scope (upd_where q) ++ joinsChecks (upd_joins q)
  | DeleteQuery q => whereChecks scope (del_where q) ++ joinsChecks (del_joins q)
  | InsertQuery _ => []
  end.

(** A guard call made for the filter/join usage names the statement type
    Select. *)
Definition filterUsageIsSelect (ev : Engine.Event) : Prop :=
  match ev with
  | Engine.ColumnGuardCalled _ _ statementType ColumnInWhereOrJoin =>
      statementType = Select
  | _ => True
  end.

(** A computation all of whose filter/join-usage calls name Select. *)
Definition selectUsage {A} (m : Engine.M A) : Prop :=
  Forall filterUsageIsSelect (Engine.events m).

(** The guard does not answer Deny to the call [ev]. *)
Definition notDeniedBy (g : FullKyselyAccessControlGuard) (ev : Engine.Event)
  : Prop :=
  match ev with
  | Engine.TableGuardCalled t statementType usage =>
      @Engine.denial _ Engine.TableGuardResult_denial
                     (guard_table g t statementType usage) = None
  | Engine.ColumnGuardCalled t c statementType usage =>
      @Engine.denial _ Engine.ColumnGuardResult_denial
                     (guard_column g t c statementType usage) = None
  end.

(** Whenever the computation [m] returns a value, it has made every call
    of [need], and the guard denied none of them. *)
Definition Checks (g : FullKyselyAccessControlGuard) {A}
           (need : list Engine.Event) (m : Engine.M A) : Prop :=
  forall log a,
    m = (log, Engine.Ok a) -> incl need log /\ Forall (notDeniedBy g) need.

(** Concrete tables, guards and statements, after the repository's tests. *)
Module Examples.

Definition person : TableNode := mkTableNode None "person".
Definition rsvp : TableNode := mkTableNode None "rsvp".

Definition col (t : TableNode) (c : string) : ReferenceNode :=
  mkReferenceNode (Some t) (ColumnNode c).
Definition sel (r : ReferenceNode) : SelectionNode :=
  mkSelectionNode (SelReference r).
Definition equals (a b : Expression) : Expression := BinaryOperationNode a "=" b.
Definition str (s : string) : Expression := ValueNode (VString s).

Definition firstNameIs (s : string) : Expression :=
  equals (ReferenceExpr (col person "first_name")) (str s).
Definition lastNameIs (s : string) : Expression :=
  equals (ReferenceExpr (col person "last_name")) (str s).

(** [{table: "person", for: "all"}] *)
Definition blanketGrant : Grant := mkGrant "person" None ForAll None None.

(** [{table: "person", for: "all", where: first_name = 'Ben'}] *)
Definition benGrant : Grant :=
  mkGrant "person" None ForAll None
          (Some (mkWhereClause (firstNameIs "Ben") None)).

Definition georgeGrant : Grant :=
  mkGrant "person" None ForAll None
          (Some (mkWhereClause (firstNameIs "George") (Some permissive))).

Definition smithGrant : Grant :=
  mkGrant "person" None ForAll None
          (Some (mkWhereClause (lastNameIs "Smith") (Some restrictive))).

(** [{table: "person", for: "select", columns}] *)
Definition selectGrant (columns : list string) : Grant :=
  mkGrant "person" None ForSelect (Some columns) None.

(** A table guard that puts [first_name = 'Ben'] on [person]. *)
Definition benGuard : FullKyselyAccessControlGuard :=
  fullGuard (mkPartialGuard
               (Some (fun t _ _ => if String.eqb (tn_name t) "person"
                                   then TAllowWhere (firstNameIs "Ben")
                                   else TAllow))
               None).

Definition lastNameLike : Expression :=
  BinaryOperationNode (ReferenceExpr (col person "last_name")) "like" (str "%P").

(** [select person.id from person where person.last_name like '%P'] *)
Definition selectWithFilter : SelectQueryNode :=
  mkSelectQueryNode (Some [TableE person]) (Some [sel (col person "id")]) None
                    (Some (mkWhereNode lastNameLike)).

(** [update person set first_name = 'Jane'], no filter. *)
Definition updateWithoutFilter : UpdateQueryNode :=
  mkUpdateQueryNode (TableE person) None None None
                    (Some [mkColumnUpdateNode "first_name" (str "Jane")]) None.

Definition rsvpAttended : Expression :=
  equals (ReferenceExpr (col rsvp "attended")) (ValueNode (VBool true)).

(** A guard that answers Allow with a predicate for [rsvp] used in a
    join, and plain Allow for every other use. *)
Definition joinOnlyPredicateGuard : FullKyselyAccessControlGuard :=
  fullGuard (mkPartialGuard
               (Some (fun t _ ctx =>
                        match ctx with
                        | TableInJoin => if String.eqb (tn_name t) "rsvp"
                                         then TAllowWhere rsvpAttended
                                         else TAllow
                        | TableTopLevel => TAllow
                        end))
               None).

(** [... inner join rsvp on rsvp.person_id = person.id] *)
Definition joinRsvp : JoinNode :=
  mkJoinNode "InnerJoin" (TableE rsvp)
             (Some (mkOnNode (equals (ReferenceExpr (col rsvp "person_id"))
                                     (ReferenceExpr (col person "id"))))).

(** [select person.id from person inner join rsvp on ...] *)
Definition selectJoiningRsvp : SelectQueryNode :=
  mkSelectQueryNode (Some [TableE person]) (Some [sel (col person "id")])
                    (Some [joinRsvp]) None.

(** [... inner join person on person.id = rsvp.person_id] *)
Definition joinPerson : JoinNode :=
  mkJoinNode "InnerJoin" (TableE person)
             (Some (mkOnNode (equals (ReferenceExpr (col person "id"))
                                     (ReferenceExpr (col rsvp "person_id"))))).

(** A column guard that answers Omit for [last_name], in any context. *)
Definition omitLastNameGuard : FullKyselyAccessControlGuard :=
  fullGuard (mkPartialGuard
               None
               (Some (fun _ column _ _ => if String.eqb column "last_name"
                                          then COmit else CAllow))).

(** [select person.id from person where person.last_name = 'Doe'] *)
Definition selectFilteringOnLastName : SelectQueryNode :=
  mkSelectQueryNode (Some [TableE person]) (Some [sel (col person "id")]) None
                    (Some (mkWhereNode (lastNameIs "Doe"))).

(** [insert into person (first_name, last_name) values ('John', 'Doe')] *)
Definition insertJohnDoe : InsertQueryNode :=
  mkInsertQueryNode person (Some ["first_name"; "last_name"])
                    (Some [[str "John"; str "Doe"]]) None.

(** A table guard that denies [rsvp], in any context. *)
Definition denyRsvpGuard : FullKyselyAccessControlGuard :=
  fullGuard (mkPartialGuard
               (Some (fun t _ _ => if String.eqb (tn_name t) "rsvp"
                                   then TDeny else TAllow))
               None).

(** [select * from person] *)
Definition selectAllFromPerson : SelectQueryNode := selectAllFrom person.

Definition personIdIsOne : Expression :=
  equals (ReferenceExpr (col person "id")) (ValueNode (VNumber 1%Z)).

(** [update person set first_name = 'Jane' where person.id = 1] *)
Definition updateWithFilter : UpdateQueryNode :=
  mkUpdateQueryNode (TableE person) None None (Some (mkWhereNode personIdIsOne))
                    (Some [mkColumnUpdateNode "first_name" (str "Jane")]) None.

(** [insert into person (first_name) values ('Ben')
    returning person.first_name, person.last_name] *)
Definition insertReturningNames : InsertQueryNode :=
  mkInsertQueryNode person (Some ["first_name"]) (Some [[str "Ben"]])
                    (Some (mkReturningNode [sel (col person "first_name");
                                            sel (col person "last_name")])).

(** [select person.first_name, person.last_name from person] *)
Definition selectNames : SelectQueryNode :=
  mkSelectQueryNode (Some [TableE person])
                    (Some [sel (col person "first_name"); sel (col person "last_name")])
                    None None.

(** [delete from person where person.last_name = 'Doe'] *)
Definition deleteDoe : DeleteQueryNode :=
  mkDeleteQueryNode [TableE person] None None
                    (Some (mkWhereNode (lastNameIs "Doe"))) None.

(** A guard that denies every table, with a reason. *)
Definition denyWithReasonGuard : FullKyselyAccessControlGuard :=
  fullGuard (mkPartialGuard (Some (fun _ _ _ => TDenyReason "read only")) None).

Definition rsvpOfPerson : Expression :=
  equals (ReferenceExpr (col rsvp "person_id")) (ReferenceExpr (col person "id")).

(** [update rsvp set attended = true from person
    where rsvp.person_id = person.id] *)
Definition updateRsvpFromPerson : UpdateQueryNode :=
  mkUpdateQueryNode (TableE rsvp) (Some [TableE person]) None
                    (Some (mkWhereNode rsvpOfPerson))
                    (Some [mkColumnUpdateNode "attended" (ValueNode (VBool true))])
                    None.

(** [delete from rsvp using person where rsvp.person_id = person.id] *)
Definition deleteRsvpUsingPerson : DeleteQueryNode :=
  mkDeleteQueryNode [TableE rsvp] (Some [TableE person]) None
                    (Some (mkWhereNode rsvpOfPerson)) None.

(** [select * from person where person.first_name = 'Ben'], aliased
    [person]. *)
Definition personOfBen : TableExpr :=
  AliasE (mkSelectQueryNode (Some [TableE person]) (Some [createSelectAll]) None
                            (Some (mkWhereNode (firstNameIs "Ben"))))
         "person".

(** [select first_name from person where last_name = 'Doe'] *)
Definition selectUnqualified : SelectQueryNode :=
  mkSelectQueryNode
    (Some [TableE person])
    (Some [sel (mkReferenceNode None (ColumnNode "first_name"))])
    None
    (Some (mkWhereNode
             (equals (ReferenceExpr (mkReferenceNode None (ColumnNode "last_name")))
                     (str "Doe")))).

(** [update rsvp set attended = true
    from (select person.first_name, person.last_name from person) as person] *)
Definition updateRsvpFromNames : UpdateQueryNode :=
  mkUpdateQueryNode (TableE rsvp) (Some [AliasE selectNames "person"]) None None
                    (Some [mkColumnUpdateNode "attended" (ValueNode (VBool true))])
                    None.

(** The node stack when the transformer reaches the sub-select of
    [updateRsvpFromNames]. *)
Definition stackAtUpdateFromSubselect : list OperationNode :=
  [OUpdateQuery updateRsvpFromNames;
   OFrom [AliasE selectNames "person"];
   OTableExpr (AliasE selectNames "person");
   OSelectQuery selectNames].

End Examples.

(* ================================================================== *)
(** ** Properties of the grant resolution layer *)
(* ================================================================== *)

Section GrantFacts.

Lemma length_eqb_0 {A} (l : list A) : (length l =? 0)%nat = true <-> l = [].
Proof. destruct l; simpl; split; congruence. Qed.

Lemma length_ltb_0 {A} (l : list A) : (0 <? length l)%nat = true <-> l <> [].
Proof.
  destruct l; simpl; split; intros H; try discriminate; try reflexivity.
  now elim H.
Qed.

(** A grant without predicate contributes nothing to [wheresOf]; one
    with a predicate contributes exactly it. *)
Lemma wheresOf_nil_iff (gs : list Grant) :
  (forall g, In g gs -> isGrantWithWhereClause g = true) ->
  (wheresOf gs = [] <-> gs = []).
Proof.
  intros Hall. split; [|intros ->; reflexivity].
  destruct gs as [|g rest]; [reflexivity|].
  simpl. specialize (Hall g (or_introl eq_refl)).
  unfold isGrantWithWhereClause in Hall.
  destruct (g_whereClause g); [discriminate|discriminate].
Qed.

Lemma restrictive_have_where allowGrants g :
  In g (grantsWithRestrictiveWheresOf allowGrants) -> isGrantWithWhereClause g = true.
Proof.
  unfold grantsWithRestrictiveWheresOf. intros H.
  apply filter_In in H as [H _]. apply filter_In in H as [_ H]. exact H.
Qed.

Lemma permissive_have_where allowGrants g :
  In g (grantsWithPermissiveWheresOf allowGrants) -> isGrantWithWhereClause g = true.
Proof.
  unfold grantsWithPermissiveWheresOf. intros H.
  apply filter_In in H as [H _]. apply filter_In in H as [_ H]. exact H.
Qed.

(** Both predicate groups are empty exactly when no matching grant
    carries a predicate. *)
Lemma no_predicates_iff allowGrants :
  grantsWithRestrictiveWheresOf allowGrants = []
  /\ grantsWithPermissiveWheresOf allowGrants = []
  <-> forallb grantHasNoPredicate allowGrants = true.
Proof.
  unfold grantsWithRestrictiveWheresOf, grantsWithPermissiveWheresOf, grantHasNoPredicate.
  induction allowGrants as [|g rest IH]; simpl.
  - tauto.
  - destruct (isGrantWithWhereClause g) eqn:Hw; simpl.
    + destruct (isRestrictive g); simpl; split;
        try discriminate; intros [H1 H2]; discriminate.
    + exact IH.
Qed.

Section Truth.
Variable atom : Expression -> bool.

Lemma holds_fold_or rest : forall first,
  holds atom (fold_left OrNode rest first)
  = holds atom first || existsb (holds atom) rest.
Proof.
  induction rest as [|e rest IH]; intros first; simpl.
  - now rewrite orb_false_r.
  - rewrite IH. simpl. now rewrite orb_assoc.
Qed.

Lemma holds_fold_and rest : forall first,
  holds atom (fold_left AndNode rest first)
  = holds atom first && forallb (holds atom) rest.
Proof.
  induction rest as [|e rest IH]; intros first; simpl.
  - now rewrite andb_true_r.
  - rewrite IH. simpl. now rewrite andb_assoc.
Qed.

Lemma holds_eb_or exprs :
  exprs <> [] -> holds atom (eb_or exprs) = existsb (holds atom) exprs.
Proof.
  destruct exprs as [|first rest]; [congruence|]. intros _.
  unfold eb_or, parseFilterList.
  destruct (1 <? length (first :: rest))%nat; simpl; apply holds_fold_or.
Qed.

Lemma holds_eb_and exprs :
  exprs <> [] -> holds atom (eb_and exprs) = forallb (holds atom) exprs.
Proof.
  destruct exprs as [|first rest]; [congruence|]. intros _.
  unfold eb_and, parseFilterList.
  destruct (1 <? length (first :: rest))%nat; simpl; apply holds_fold_and.
Qed.
End Truth.

(** With at least one restrictive predicate among the matching grants,
    the guard allows with a predicate that is the OR of the permissive
    predicates AND-ed with every restrictive one. *)
Lemma grantTableGuard_restricted grants table statementType ctx :
  let allowGrants := allowGrantsOf grants table statementType in
  let P := wheresOf (grantsWithPermissiveWheresOf allowGrants) in
  let R := wheresOf (grantsWithRestrictiveWheresOf allowGrants) in
  R <> [] ->
  exists e,
    grantTableGuard grants table statementType ctx = TAllowWhere e
    /\ forall atom,
        holds atom e = existsb (holds atom) P && forallb (holds atom) R.
Proof.
  intros allowGrants P R HR.
  assert (Hrs : grantsWithRestrictiveWheresOf allowGrants <> []).
  { intros E. apply HR. unfold R. now rewrite E. }
  assert (Hallow : allowGrants <> []).
  { intros E. apply Hrs. now rewrite E. }
  unfold grantTableGuard. fold allowGrants.
  destruct (length allowGrants =? 0)%nat eqn:E0.
  { apply length_eqb_0 in E0. contradiction. }
  destruct (length (grantsWithRestrictiveWheresOf allowGrants) =? 0)%nat eqn:E1.
  { apply length_eqb_0 in E1. contradiction. }
  simpl.
  assert (E2 : (0 <? length (grantsWithRestrictiveWheresOf allowGrants))%nat = true)
    by now apply length_ltb_0.
  rewrite E2.
  destruct (length (grantsWithPermissiveWheresOf allowGrants) =? 0)%nat eqn:E3; simpl.
  - apply length_eqb_0 in E3.
    exists (eb_lit false). split; [reflexivity|].
    intros atom. unfold P. rewrite E3. reflexivity.
  - eexists. split; [reflexivity|]. intros atom.
    assert (HP : P <> []).
    { unfold P. intros E.
      apply wheresOf_nil_iff in E; [|apply permissive_have_where].
      rewrite E in E3. discriminate. }
    cbn [holds]. fold P R.
    rewrite holds_eb_or by exact HP.
    rewrite holds_eb_and by exact HR. reflexivity.
Qed.

(** ** C1 *)

(** C1, as stated, fails: with a blanket grant and a grant carrying a
    predicate both matching, one matching grant has no predicate, yet
    the table guard does not return plain Allow: it returns Allow with
    the other grant's predicate. *)
Lemma C1_blanket_grant_does_not_override :
  let grants := [Examples.blanketGrant; Examples.benGrant] in
  existsb grantHasNoPredicate (allowGrantsOf grants Examples.person Select) = true
  /\ grantTableGuard grants Examples.person Select TableTopLevel
     = TAllowWhere (Examples.firstNameIs "Ben")
  /\ grantTableGuard grants Examples.person Select TableTopLevel <> TAllow.
Proof. repeat split; try reflexivity. discriminate. Qed.

(** C1 (amended): the grant-resolved table guard returns Deny exactly
    when no grant matches (schema when specified, table name, and
    permission equal to the statement type or "all"), and it returns
    plain Allow exactly when at least one grant matches and none of
    the matching grants has a predicate. *)
Theorem C1_table_guard_deny_and_plain_allow grants table statementType ctx :
  let allowGrants := filter (tableGrantMatches table statementType) grants in
  (grantTableGuard grants table statementType ctx = TDeny <-> allowGrants = [])
  /\ (grantTableGuard grants table statementType ctx = TAllow
      <-> allowGrants <> [] /\ forallb grantHasNoPredicate allowGrants = true).
Proof.
  intros allowGrants.
  unfold grantTableGuard, allowGrantsOf. fold allowGrants.
  destruct (length allowGrants =? 0)%nat eqn:E0.
  - apply length_eqb_0 in E0. split.
    + tauto.
    + split; [discriminate|]. intros [H _]. contradiction.
  - assert (Hne : allowGrants <> []).
    { intros E. rewrite E in E0. discriminate. }
    pose proof (no_predicates_iff allowGrants) as Hnp.
    destruct (length (grantsWithRestrictiveWheresOf allowGrants) =? 0)%nat eqn:E1;
      destruct (length (grantsWithPermissiveWheresOf allowGrants) =? 0)%nat eqn:E2;
      simpl;
      try destruct (0 <? length (grantsWithRestrictiveWheresOf allowGrants))%nat;
      (split; [split; [discriminate|contradiction]|]);
      (split; [try discriminate|try reflexivity]).
    all: first
           [ intros _; split; [exact Hne|]; apply Hnp;
             apply length_eqb_0 in E1; apply length_eqb_0 in E2; now split
           | intros [_ H]; apply Hnp in H as [H1 H2];
             first [ rewrite H1 in E1; discriminate
                   | rewrite H2 in E2; discriminate ] ].
Qed.

(** ** C2 *)

(** C2: when the matching grants that carry predicates are the
    permissive P1, P2 and the restrictive R, the table guard returns
    Allow with a predicate equivalent to (P1 OR P2) AND R; when only
    restrictive predicates match, it returns Allow with a predicate no
    row satisfies. *)
Theorem C2_rls_combination grants table statementType ctx :
  let allowGrants := allowGrantsOf grants table statementType in
  let permissives := wheresOf (grantsWithPermissiveWheresOf allowGrants) in
  let restrictives := wheresOf (grantsWithRestrictiveWheresOf allowGrants) in
  (forall P1 P2 R,
      permissives = [P1; P2] -> restrictives = [R] ->
      exists e,
        grantTableGuard grants table statementType ctx = TAllowWhere e
        /\ forall atom,
            holds atom e = (holds atom P1 || holds atom P2) && holds atom R)
  /\ (permissives = [] -> restrictives <> [] ->
      exists e,
        grantTableGuard grants table statementType ctx = TAllowWhere e
        /\ forall atom, holds atom e = false).
Proof.
  intros allowGrants permissives restrictives. split.
  - intros P1 P2 R HP HR.
    destruct (grantTableGuard_restricted grants table statementType ctx)
      as [e [He Hh]].
    { fold allowGrants. fold restrictives. rewrite HR. discriminate. }
    exists e. split; [exact He|]. intros atom. rewrite Hh.
    fold allowGrants. fold permissives. fold restrictives. rewrite HP, HR.
    simpl. now rewrite orb_false_r, andb_true_r.
  - intros HP HR.
    destruct (grantTableGuard_restricted grants table statementType ctx)
      as [e [He Hh]]; [exact HR|].
    exists e. split; [exact He|]. intros atom. rewrite Hh.
    fold allowGrants. fold permissives. rewrite HP. reflexivity.
Qed.

(** C2 at the grants of the repository's test (Ben or George, and
    Smith), and at the restrictive grant alone. *)
Lemma C2_rls_combination_witness :
  (exists e,
      grantTableGuard [Examples.benGrant; Examples.georgeGrant; Examples.smithGrant]
                      Examples.person Select TableTopLevel = TAllowWhere e
      /\ forall atom,
          holds atom e
          = (holds atom (Examples.firstNameIs "Ben")
             || holds atom (Examples.firstNameIs "George"))
            && holds atom (Examples.lastNameIs "Smith"))
  /\ (exists e,
         grantTableGuard [Examples.smithGrant] Examples.person Select TableTopLevel
         = TAllowWhere e
         /\ forall atom, holds atom e = false).
Proof.
  split.
  - apply (proj1 (C2_rls_combination
                    [Examples.benGrant; Examples.georgeGrant; Examples.smithGrant]
                    Examples.person Select TableTopLevel)); reflexivity.
  - apply (proj2 (C2_rls_combination [Examples.smithGrant]
                    Examples.person Select TableTopLevel));
      [reflexivity | discriminate].
Defined.

(** ** C9 *)

(** The [find] callback, in one formula. *)
Lemma columnGrantMatches_covers table column statementType ctx g :
  columnGrantMatches table column statementType ctx g
  = schemaMatches g table
    && String.eqb (g_table g) (tn_name table)
    && columnsInclude g column
    && permissionCovers (g_for g) ctx.
Proof.
  unfold columnGrantMatches.
  destruct (schemaMatches g table), (String.eqb (g_table g) (tn_name table)),
    (columnsInclude g column); simpl; try reflexivity.
  destruct (g_for g), ctx; reflexivity.
Qed.

Lemma columnsInclude_withColumns g columns column :
  columnsInclude (withColumns g columns) column = existsb (String.eqb column) columns.
Proof. reflexivity. Qed.

(** C9, as stated, fails: a select grant makes the column guard allow
    a column in the returning clause of an insert, although the
    grant's permission is neither "all" nor the statement's type. The
    repository's test "select on a column does enables/disables
    returning" relies on this. *)
Lemma C9_select_grant_allows_insert_returning :
  let grants := [Examples.selectGrant ["id"; "first_name"]] in
  grantColumnGuard grants Examples.person "first_name" Insert ColumnInSelectOrReturning
  = CAllow
  /\ existsb (specColumnGrantMatches Examples.person "first_name" Insert
                ColumnInSelectOrReturning) grants = false.
Proof. split; reflexivity. Qed.

(** C9 (amended): the grant-resolved column guard returns Allow
    exactly when some grant matches the schema (when specified), the
    table, a column set that is absent or contains the column, and
    whose permission covers the usage context (whatever the statement
    type: "all" covers every context, select projection/returning and
    filter/join conditions, update only the set clause, insert only the
    insert column list); otherwise it returns Deny, never Omit. Two
    grants that differ only in their column sets allow what one grant
    with the union of the two sets allows. *)
Theorem C9_column_guard grants table column statementType ctx :
  (grantColumnGuard grants table column statementType ctx = CAllow
   <-> exists g, In g grants
                 /\ schemaMatches g table = true
                 /\ g_table g = tn_name table
                 /\ columnsInclude g column = true
                 /\ permissionCovers (g_for g) ctx = true)
  /\ (grantColumnGuard grants table column statementType ctx = CAllow
      \/ grantColumnGuard grants table column statementType ctx = CDeny)
  /\ (forall g xs ys,
         grantColumnGuard [withColumns g xs; withColumns g ys]
                          table column statementType ctx
         = grantColumnGuard [withColumns g (xs ++ ys)]
                            table column statementType ctx).
Proof.
  split; [|split].
  - unfold grantColumnGuard.
    destruct (find (columnGrantMatches table column statementType ctx) grants)
      as [g|] eqn:Hfind.
    + split; [intros _|reflexivity].
      apply find_some in Hfind as [Hin Hm].
      rewrite columnGrantMatches_covers in Hm.
      apply andb_prop in Hm as [Hm Hc]. apply andb_prop in Hm as [Hm Hcols].
      apply andb_prop in Hm as [Hs Ht]. apply String.eqb_eq in Ht.
      exists g. repeat split; assumption.
    + split; [discriminate|]. intros [g [Hin [Hs [Ht [Hcols Hc]]]]].
      pose proof (find_none _ _ Hfind g Hin) as Hno.
      rewrite columnGrantMatches_covers in Hno.
      apply String.eqb_eq in Ht. rewrite Hs, Ht, Hcols, Hc in Hno. discriminate.
  - unfold grantColumnGuard.
    destruct (find _ grants); [left|right]; reflexivity.
  - intros g xs ys. unfold grantColumnGuard. cbn [find].
    rewrite !columnGrantMatches_covers, !columnsInclude_withColumns.
    rewrite existsb_app.
    change (schemaMatches (withColumns g xs) table) with (schemaMatches g table).
    change (schemaMatches (withColumns g ys) table) with (schemaMatches g table).
    change (schemaMatches (withColumns g (xs ++ ys)) table)
      with (schemaMatches g table).
    cbn [withColumns g_table g_for].
    destruct (schemaMatches g table), (String.eqb (g_table g) (tn_name table)),
      (permissionCovers (g_for g) ctx),
      (existsb (String.eqb column) xs), (existsb (String.eqb column) ys);
      reflexivity.
Qed.

End GrantFacts.

(* ================================================================== *)
(** ** Reasoning about transformer computations *)
(* ================================================================== *)

Import Engine.
Local Open Scope engine_scope.

#[global] Arguments bind : simpl never.
#[global] Arguments ret : simpl never.
#[global] Arguments throw : simpl never.
#[global] Arguments invariant : simpl never.
#[global] Arguments callTableGuard : simpl never.
#[global] Arguments callColumnGuard : simpl never.
#[global] Arguments throwIfDenyWithReason : simpl never.

Section MonadFacts.

Context {A B : Type}.

Lemma bind_of_ok (m : M A) (f : A -> M B) l1 a :
  m = (l1, Ok a) -> bind m f = (l1 ++ events (f a), outcome (f a)).
Proof. intros ->. unfold bind, events, outcome. now destruct (f a). Qed.

Lemma bind_of_err (m : M A) (f : A -> M B) l1 e :
  m = (l1, Err e) -> bind m f = (l1, Err e).
Proof. now intros ->. Qed.

Lemma Post_ret (P : A -> Prop) E a : P a -> Post P E (ret a).
Proof. exact (fun H => H). Qed.

Lemma Post_throw (P : A -> Prop) (E : Error -> Prop) e : E e -> Post P E (throw e).
Proof. exact (fun H => H). Qed.

Lemma Post_bind (P : A -> Prop) (Q : B -> Prop) E (m : M A) (f : A -> M B) :
  Post P E m -> (forall a, P a -> Post Q E (f a)) -> Post Q E (bind m f).
Proof.
  unfold Post, bind, outcome. destruct m as [l [a|e]]; simpl; [|tauto].
  intros Ha Hf. specialize (Hf a Ha). destruct (f a) as [l2 r]. exact Hf.
Qed.

Lemma Post_weaken (P P' : A -> Prop) (E E' : Error -> Prop) (m : M A) :
  Post P E m -> (forall a, P a -> P' a) -> (forall e, E e -> E' e) -> Post P' E' m.
Proof. unfold Post. destruct (outcome m); auto. Qed.

Lemma Post_and (P P' : A -> Prop) (E E' : Error -> Prop) (m : M A) :
  Post P E m -> Post P' E' m -> Post (fun a => P a /\ P' a) (fun e => E e /\ E' e) m.
Proof. unfold Post. destruct (outcome m); auto. Qed.

Lemma Post_ok (P : A -> Prop) E (m : M A) log a :
  Post P E m -> m = (log, Ok a) -> P a.
Proof. intros H ->. exact H. Qed.

End MonadFacts.

Section ListFacts.

Context {A : Type}.
Variable E : Error -> Prop.

Lemma Post_transformNodeList (Q : A -> A -> Prop) (f : A -> M A) (l : list A) :
  (forall x, In x l -> Post (Q x) E (f x)) ->
  Post (Forall2 Q l) E (transformNodeList f l).
Proof.
  induction l as [|x rest IH]; intros Hf; simpl.
  - apply Post_ret. constructor.
  - eapply Post_bind; [apply Hf; now left|]. intros x' Hx.
    eapply Post_bind; [apply IH; intros y Hy; apply Hf; now right|].
    intros rest' Hrest. apply Post_ret. now constructor.
Qed.

Lemma Forall2_eq (l l' : list A) : Forall2 eq l l' -> l = l'.
Proof. induction 1; congruence. Qed.

Lemma Post_transformNodeList_id (f : A -> M A) (l : list A) :
  (forall x, In x l -> Post (eq x) E (f x)) ->
  Post (eq l) E (transformNodeList f l).
Proof.
  intros Hf. eapply Post_weaken; [apply Post_transformNodeList, Hf| |auto].
  intros l' H. symmetry. symmetry. now apply Forall2_eq.
Qed.

Lemma Post_transformOptional (Q : A -> A -> Prop) (f : A -> M A) (o : option A) :
  (forall x, o = Some x -> Post (Q x) E (f x)) ->
  Post (fun o' => match o, o' with
                  | Some x, Some x' => Q x x'
                  | None, None => True
                  | _, _ => False
                  end) E (transformOptional f o).
Proof.
  destruct o as [x|]; intros Hf; simpl.
  - eapply Post_bind; [now apply Hf|]. intros x' Hx. now apply Post_ret.
  - now apply Post_ret.
Qed.

Lemma Post_transformOptional_id (f : A -> M A) (o : option A) :
  (forall x, o = Some x -> Post (eq x) E (f x)) ->
  Post (eq o) E (transformOptional f o).
Proof.
  intros Hf. eapply Post_weaken; [apply Post_transformOptional, Hf| |auto].
  intros o' H. destruct o, o'; try contradiction; congruence.
Qed.

End ListFacts.

Create HintDb post discriminated.

Lemma Post_bind_True {A B} (Q : B -> Prop) E (m : M A) (f : A -> M B) :
  Post (fun _ => True) E m -> (forall a, Post Q E (f a)) -> Post Q E (bind m f).
Proof. intros Hm Hf. eapply Post_bind; [exact Hm|]. intros a _. apply Hf. Qed.

Lemma Post_True {A} (P : A -> Prop) E (m : M A) :
  Post P E m -> Post (fun _ => True) E m.
Proof. intros H. eapply Post_weaken; [exact H| |]; auto. Qed.

Lemma Post_invariant E c msg :
  E (InvariantFailed msg) -> Post (fun _ => c = true) E (invariant c msg).
Proof. destruct c; simpl; intros H; [reflexivity|exact H]. Qed.

Lemma Post_invariant_True E c msg :
  E (InvariantFailed msg) -> Post (fun _ => True) E (invariant c msg).
Proof. destruct c; simpl; intros H; [exact I|exact H]. Qed.

Lemma Post_throwIfDenyWithReason {R} `{GuardResult R} E (r : R) msg :
  (denial r <> None -> forall m, E (Denied m)) ->
  Post (fun _ => denial r = None) E (throwIfDenyWithReason r msg).
Proof.
  unfold throwIfDenyWithReason. intros HE.
  destruct (denial r) as [[reason|]|]; simpl.
  - apply HE. discriminate.
  - apply HE. discriminate.
  - reflexivity.
Qed.

Lemma Post_callTableGuard g E t s c :
  Post (fun r => r = guard_table g t s c) E (callTableGuard g t s c).
Proof. reflexivity. Qed.

Lemma Post_callColumnGuard g E t col s c :
  Post (fun r => r = guard_column g t col s c) E (callColumnGuard g t col s c).
Proof. reflexivity. Qed.

(** One step through a computation: a leaf, a bind, or a case split. *)
Ltac post_step :=
  lazymatch goal with
  | |- Post _ _ (ret _) => apply Post_ret
  | |- Post _ _ (throw _) => apply Post_throw
  | |- Post _ _ (bind (callTableGuard _ _ _ _) _) =>
      eapply Post_bind;
      [apply Post_callTableGuard | intros ? ?; cbv beta in *; subst]
  | |- Post _ _ (bind (callColumnGuard _ _ _ _ _) _) =>
      eapply Post_bind;
      [apply Post_callColumnGuard | intros ? ?; cbv beta in *; subst]
  | |- Post _ _ (bind (@throwIfDenyWithReason _ _ _ _) _) =>
      eapply Post_bind;
      [apply Post_throwIfDenyWithReason | intros ? ?; cbv beta in *]
  | |- Post _ _ (bind (invariant _ _) _) =>
      eapply Post_bind; [apply Post_invariant | intros ? ?; cbv beta in *]
  | |- Post _ _ (bind _ _) =>
      first [ eapply Post_bind;
              [solve [eauto 3 with post] | intros ? ?; cbv beta in *; subst]
            | apply Post_bind_True; [|intros ?] ]
  | |- Post _ _ (match ?x with _ => _ end) => destruct x eqn:?
  | |- Post _ _ (if ?x then _ else _) => destruct x eqn:?
  end.

Ltac post := repeat (post_step; cbv zeta); eauto with post.

(** *** Expressions, filters and selections: every guard *)

Section ExpressionFacts.

Variable g : FullKyselyAccessControlGuard.
Variable E : Error -> Prop.
Hypothesis E_thrown : forall m, E (Thrown m).
Hypothesis E_invariant : forall m, E (InvariantFailed m).
Hypothesis E_type : E TypeError.
Hypothesis E_denied_table :
  forall t s c, denial (guard_table g t s c) <> None -> forall m, E (Denied m).
Hypothesis E_denied_column :
  forall t col s c, denial (guard_column g t col s c) <> None -> forall m, E (Denied m).

#[local] Hint Resolve E_thrown E_invariant E_type E_denied_table E_denied_column : post.

Lemma Post__topLevelHasMoreThanOneTable n :
  Post (fun _ => True) E (_topLevelHasMoreThanOneTable n).
Proof. unfold _topLevelHasMoreThanOneTable. post. Qed.

Lemma Post__getTableNodeFromTopLevelQueryNode n :
  Post (fun _ => True) E (_getTableNodeFromTopLevelQueryNode n).
Proof. unfold _getTableNodeFromTopLevelQueryNode. post. Qed.

#[local] Hint Resolve Post__topLevelHasMoreThanOneTable
  Post__getTableNodeFromTopLevelQueryNode : post.

(** A reference is never rewritten. *)
Lemma Post_transformReference nodeStack r :
  Post (eq r) E (transformReference g nodeStack r).
Proof.
  unfold transformReference, resolveReferenceTable, super_transformReference.
  post.
Qed.

#[local] Hint Resolve Post_transformReference : post.

Lemma Post_transformExpression e : forall nodeStack,
  Post (eq e) E (transformExpression g nodeStack e).
Proof.
  induction e; intros nodeStack; simpl; post.
Qed.

Lemma Post_visitExpression nodeStack e :
  Post (eq e) E (visitExpression g nodeStack e).
Proof. apply Post_transformExpression. Qed.

#[local] Hint Resolve Post_visitExpression : post.

Lemma Post_super_transformWhere nodeStack w :
  Post (eq w) E (super_transformWhere g nodeStack w).
Proof. unfold super_transformWhere. post. now destruct w. Qed.

#[local] Hint Resolve Post_super_transformWhere : post.

Lemma Post_visitWhere nodeStack w : Post (eq w) E (visitWhere g nodeStack w).
Proof. apply Post_super_transformWhere. Qed.

Lemma Post_visitOn nodeStack o : Post (eq o) E (visitOn g nodeStack o).
Proof. unfold visitOn. post. now destruct o. Qed.

Lemma Post_visitSelection nodeStack s :
  Post (eq s) E (visitSelection g nodeStack s).
Proof.
  unfold visitSelection. destruct s as [[r| |e alias]]; simpl; post.
Qed.

#[local] Hint Resolve Post_visitWhere Post_visitOn Post_visitSelection : post.

Lemma Post_super_transformReturning nodeStack r :
  Post (eq r) E (super_transformReturning g nodeStack r).
Proof.
  unfold super_transformReturning.
  eapply Post_bind.
  - apply Post_transformNodeList_id. intros x _. apply Post_visitSelection.
  - intros l <-. apply Post_ret. now destruct r.
Qed.

(** What [_transformWhere] returns: the filter itself under plain Allow,
    the guard's predicate AND-ed in front of it otherwise. *)
Lemma Post__transformWhere nodeStack guardResult nodeWhere :
  Post (fun w' =>
          match guardResult with
          | TAllow => w' = nodeWhere
          | TAllowWhere p =>
              w' = Some (mkWhereNode
                           (match nodeWhere with
                            | Some w => AndNode p (where_ w)
                            | None => p
                            end))
          | _ => False
          end) E (_transformWhere g nodeStack guardResult nodeWhere).
Proof.
  unfold _transformWhere. destruct guardResult; post.
  destruct nodeWhere; reflexivity.
Qed.

End ExpressionFacts.

(** *** Statements: every guard, looking at returned values only *)

Lemma Post_trivial {A} (m : M A) : Post (fun _ => True) anyError m.
Proof. unfold Post. now destruct (outcome m). Qed.

#[export] Hint Resolve Post_trivial : post.

Lemma getParentNode_push2 s x y : getParentNode (push (push s x) y) = Some x.
Proof.
  unfold getParentNode, push. rewrite !length_app. simpl.
  replace (length s + 1 + 1 <? 2)%nat with false
    by (symmetry; apply Nat.ltb_ge; lia).
  replace (length s + 1 + 1 - 2) with (length s) by lia.
  rewrite <- app_assoc. simpl. rewrite nth_error_app2 by lia.
  now rewrite Nat.sub_diag.
Qed.

Section WhereFacts.

Variable g : FullKyselyAccessControlGuard.
Variable visitSelectQuery : list OperationNode -> SelectQueryNode -> M SelectQueryNode.

Lemma Post_visitWhere_any nodeStack w : Post (eq w) anyError (visitWhere g nodeStack w).
Proof. apply Post_visitWhere; intros; exact I. Qed.

Lemma Post_super_transformSelectQuery_where nodeStack node :
  Post (fun q' => sq_where q' = sq_where node) anyError
       (super_transformSelectQuery g visitSelectQuery nodeStack node).
Proof.
  unfold super_transformSelectQuery.
  do 3 (apply Post_bind_True; [apply Post_trivial|intros ?]).
  eapply Post_bind.
  - apply Post_transformOptional_id. intros w _. apply Post_visitWhere_any.
  - intros w' <-. now apply Post_ret.
Qed.

Lemma Post_super_transformUpdateQuery_where nodeStack node :
  Post (fun q' => upd_where q' = upd_where node) anyError
       (super_transformUpdateQuery g visitSelectQuery nodeStack node).
Proof.
  unfold super_transformUpdateQuery.
  do 3 (apply Post_bind_True; [apply Post_trivial|intros ?]).
  eapply Post_bind.
  - apply Post_transformOptional_id. intros w _. apply Post_visitWhere_any.
  - intros w' <-.
    do 2 (apply Post_bind_True; [apply Post_trivial|intros ?]).
    now apply Post_ret.
Qed.

Lemma Post__transformWhere_any nodeStack r w :
  Post (splicedWhere r w) anyError (_transformWhere g nodeStack r w).
Proof.
  eapply Post_weaken; [apply Post__transformWhere with (E := anyError)| |auto];
    try (intros; exact I).
  intros w'. unfold splicedWhere. destruct r; auto.
Qed.

Lemma Post_transformSelectQueryBody_where nodeStack node froms tableNode :
  sq_from node = Some froms ->
  nth_error froms 0 = Some (TableE tableNode) ->
  Post (fun q' => splicedWhere (guard_table g tableNode Select TableTopLevel)
                               (sq_where node) (sq_where q'))
       anyError (transformSelectQueryBody g visitSelectQuery nodeStack node).
Proof.
  intros Hfrom Hnth. unfold transformSelectQueryBody. rewrite Hfrom.
  apply Post_bind_True; [apply Post_trivial|intros _].
  rewrite Hnth. destruct (sq_selections node) as [selections|]; [|exact I].
  eapply Post_bind; [apply Post_callTableGuard|]. intros r ->.
  apply Post_bind_True; [apply Post_trivial|intros _].
  apply Post_bind_True; [apply Post_trivial|intros transformedSelections].
  eapply Post_bind; [apply Post__transformWhere_any|]. intros newWhere Hw.
  eapply Post_weaken; [apply Post_super_transformSelectQuery_where| |auto].
  intros q' Hq'. simpl in Hq'. now rewrite Hq'.
Qed.

Lemma Post_transformUpdateQuery_where nodeStack node tableNode :
  upd_table node = TableE tableNode ->
  Post (fun q' => splicedWhere (guard_table g tableNode Update TableTopLevel)
                               (upd_where node) (upd_where q'))
       anyError (transformUpdateQuery g visitSelectQuery nodeStack node).
Proof.
  intros Htable. unfold transformUpdateQuery. rewrite Htable.
  eapply Post_bind; [apply Post_callTableGuard|]. intros r ->.
  apply Post_bind_True; [apply Post_trivial|intros _].
  apply Post_bind_True; [apply Post_trivial|intros _].
  eapply Post_bind; [apply Post__transformWhere_any|]. intros newWhere Hw.
  eapply Post_weaken; [apply Post_super_transformUpdateQuery_where| |auto].
  intros q' Hq'. simpl in Hq'. now rewrite Hq'.
Qed.

End WhereFacts.

(** ** C4 *)

(** C4: for every Select statement (over its single source table) and
    every Update statement that is rewritten, when the table guard
    returns Allow with a predicate the rewritten filter clause is the
    logical AND of the guard's predicate and the original filter, or the
    predicate alone if the statement had no filter; with plain Allow the
    filter clause is unchanged. *)
Theorem C4_filter_clause_splice g fuel nodeStack :
  (forall node froms tableNode log node',
      sq_from node = Some froms ->
      nth_error froms 0 = Some (TableE tableNode) ->
      transformSelectQuery g fuel nodeStack node = (log, Ok node') ->
      splicedWhere (guard_table g tableNode Select TableTopLevel)
                   (sq_where node) (sq_where node'))
  /\ (forall node tableNode log node',
         upd_table node = TableE tableNode ->
         transformUpdateQuery g (transformSelectQuery g fuel) nodeStack node
         = (log, Ok node') ->
         splicedWhere (guard_table g tableNode Update TableTopLevel)
                      (upd_where node) (upd_where node')).
Proof.
  split.
  - intros node froms tableNode log node' Hfrom Hnth Hrun.
    destruct fuel as [|fuel']; [discriminate|].
    simpl in Hrun.
    exact (Post_ok _ _ _ _ _
             (Post_transformSelectQueryBody_where g _ nodeStack node froms tableNode
                                                  Hfrom Hnth) Hrun).
  - intros node tableNode log node' Htable Hrun.
    exact (Post_ok _ _ _ _ _
             (Post_transformUpdateQuery_where g _ nodeStack node tableNode Htable)
             Hrun).
Qed.

(** C4 on the repository's scenario: the grant's [first_name = 'Ben'] is
    AND-ed in front of the application's [last_name like '%P']; an
    update without filter gets the predicate as its filter. *)
Lemma C4_filter_clause_splice_witness :
  (exists log node',
      transformSelectQuery Examples.benGuard 1
        [OSelectQuery Examples.selectWithFilter] Examples.selectWithFilter
      = (log, Ok node')
      /\ sq_where node'
         = Some (mkWhereNode (AndNode (Examples.firstNameIs "Ben")
                                      Examples.lastNameLike)))
  /\ (exists log node',
         transformUpdateQuery Examples.benGuard
           (transformSelectQuery Examples.benGuard 1)
           [OUpdateQuery Examples.updateWithoutFilter] Examples.updateWithoutFilter
         = (log, Ok node')
         /\ upd_where node' = Some (mkWhereNode (Examples.firstNameIs "Ben"))).
Proof.
  split.
  - eexists. eexists. split; [vm_compute; reflexivity|].
    exact (proj1 (C4_filter_clause_splice Examples.benGuard 1
                    [OSelectQuery Examples.selectWithFilter])
                 Examples.selectWithFilter [TableE Examples.person] Examples.person
                 _ _ eq_refl eq_refl eq_refl).
  - eexists. eexists. split; [vm_compute; reflexivity|].
    exact (proj2 (C4_filter_clause_splice Examples.benGuard 1
                    [OUpdateQuery Examples.updateWithoutFilter])
                 Examples.updateWithoutFilter Examples.person
                 _ _ eq_refl eq_refl).
Defined.

(** *** Joined tables *)

Section JoinFacts.

Variable g : FullKyselyAccessControlGuard.

(** The derived sub-select [select * from t], transformed where
    [visitTableExpr] puts it: the table guard is asked again, for a
    top-level Select, and its answer decides the filter. *)
Lemma Post_transformSelectQuery_selectAllFrom fuel s t :
  Post (fun q' =>
          exists w,
            q' = mkSelectQueryNode (Some [TableE t]) (Some [createSelectAll]) None w
            /\ splicedWhere (guard_table g t Select TableTopLevel) None w)
       anyError
       (transformSelectQuery g fuel (push s (OSelectQuery (selectAllFrom t)))
                             (selectAllFrom t)).
Proof.
  destruct fuel as [|fuel']; [exact I|].
  simpl. unfold transformSelectQueryBody. simpl.
  apply Post_bind_True; [apply Post_trivial|intros _].
  eapply Post_bind; [apply Post_callTableGuard|]. intros r ->.
  apply Post_bind_True; [apply Post_trivial|intros _].
  eapply Post_bind with (P := eq [createSelectAll]).
  { unfold _transformSelections.
    destruct (_ || _); [now apply Post_ret|exact I]. }
  intros selections <-.
  eapply Post_bind; [apply Post__transformWhere_any|]. intros newWhere Hw.
  unfold super_transformSelectQuery. simpl.
  unfold visitFrom, transformFrom. rewrite getParentNode_push2. simpl.
  eapply Post_bind with (P := eq (Some [TableE t])); [reflexivity|].
  intros from' <-.
  eapply Post_bind with (P := eq (Some [createSelectAll])); [reflexivity|].
  intros selections' <-.
  eapply Post_bind with (P := eq None); [reflexivity|].
  intros joins' <-.
  eapply Post_bind with (P := eq newWhere).
  { apply Post_transformOptional_id. intros w _. apply Post_visitWhere_any. }
  intros where' <-. apply Post_ret. now exists newWhere.
Qed.

Lemma Post_super_transformJoin_table (P : TableExpr -> Prop) visit nodeStack node :
  Post P anyError (visitTableExpr visit nodeStack (join_table node)) ->
  Post (fun node' => P (join_table node')) anyError
       (super_transformJoin g visit nodeStack node).
Proof.
  intros Htable. unfold super_transformJoin.
  eapply Post_bind; [exact Htable|]. intros table' Ht.
  apply Post_bind_True; [apply Post_trivial|intros on'].
  now apply Post_ret.
Qed.

(** What [transformJoin] makes of a joined table. *)
Lemma Post_transformJoin_table fuel nodeStack joinType tableNode on :
  Post (fun node' =>
          match guard_table g tableNode Select TableInJoin with
          | TAllow => join_table node' = TableE tableNode
          | TAllowWhere _ =>
              exists w,
                join_table node'
                = AliasE (mkSelectQueryNode (Some [TableE tableNode])
                                            (Some [createSelectAll]) None w)
                         (tn_name tableNode)
                /\ splicedWhere (guard_table g tableNode Select TableTopLevel) None w
          | TDeny | TDenyReason _ => False
          end)
       anyError
       (transformJoin g (transformSelectQuery g fuel) nodeStack
                      (mkJoinNode joinType (TableE tableNode) on)).
Proof.
  unfold transformJoin. simpl.
  eapply Post_bind; [apply Post_callTableGuard|]. intros r ->.
  eapply Post_bind;
    [apply Post_throwIfDenyWithReason with (E := anyError); intros; exact I|].
  intros u Hallowed. cbv beta in Hallowed. clear u.
  destruct (guard_table g tableNode Select TableInJoin) as [|p| |reason];
    try discriminate Hallowed.
  - apply (Post_super_transformJoin_table (fun t' => t' = TableE tableNode)).
    now apply Post_ret.
  - apply (Post_super_transformJoin_table
             (fun t' =>
                exists w,
                  t' = AliasE (mkSelectQueryNode (Some [TableE tableNode])
                                                 (Some [createSelectAll]) None w)
                              (tn_name tableNode)
                  /\ splicedWhere (guard_table g tableNode Select TableTopLevel)
                                  None w)).
    simpl. unfold rlsSubquery.
    eapply Post_bind; [apply Post_transformSelectQuery_selectAllFrom|].
    intros q' [w [-> Hw]]. apply Post_ret. now exists w.
Qed.

End JoinFacts.

(** ** C3 *)

(** C3 does not hold of the code: the table guard answers Allow with the
    predicate [rsvp.attended = true] for [rsvp] used in a join, and the
    statement is rewritten with [rsvp] replaced by the derived sub-select
    [select * from rsvp] aliased [rsvp] that has no filter at all: the
    predicate returned for the join is dropped, and the sub-select is
    only filtered by what the guard answers when it is asked again about
    [rsvp] as the source of a top-level Select, here plain Allow. *)
Theorem C3_join_predicate_not_applied :
  guard_table Examples.joinOnlyPredicateGuard Examples.rsvp Select TableInJoin
  = TAllowWhere Examples.rsvpAttended
  /\ transformQuery Examples.joinOnlyPredicateGuard
                    (SelectQuery Examples.selectJoiningRsvp)
     = ([TableGuardCalled Examples.person Select TableTopLevel;
         ColumnGuardCalled Examples.person "id" Select ColumnInSelectOrReturning;
         TableGuardCalled Examples.rsvp Select TableInJoin;
         TableGuardCalled Examples.rsvp Select TableTopLevel;
         ColumnGuardCalled Examples.rsvp "person_id" Select ColumnInWhereOrJoin;
         ColumnGuardCalled Examples.person "id" Select ColumnInWhereOrJoin],
        Ok (SelectQuery
              (mkSelectQueryNode
                 (Some [TableE Examples.person])
                 (Some [Examples.sel (Examples.col Examples.person "id")])
                 (Some [mkJoinNode "InnerJoin"
                          (AliasE (mkSelectQueryNode (Some [TableE Examples.rsvp])
                                                     (Some [createSelectAll]) None None)
                                  "rsvp")
                          (join_on Examples.joinRsvp)])
                 None))).
Proof. split; reflexivity. Qed.

(** What the code does with a named table in a join clause, for every
    join that is rewritten: if the table guard (asked for a Select with
    the in-join usage) returns Allow without a predicate, the table is
    left untouched; if it returns Allow with a predicate, the table is
    replaced by the derived sub-select [select * from t] aliased with the
    table's name, and that sub-select is filtered as the table guard
    decides when asked again about the table as the source of a top-level
    Select: by that answer's predicate, or not at all if that answer is
    plain Allow. Only when the guard gives the same answer for both
    usages is the sub-select filtered by the predicate returned for the
    join. *)
Theorem join_source_is_rewritten g fuel nodeStack joinType tableNode on log node' :
  transformJoin g (transformSelectQuery g fuel) nodeStack
                (mkJoinNode joinType (TableE tableNode) on) = (log, Ok node') ->
  match guard_table g tableNode Select TableInJoin with
  | TAllow => join_table node' = TableE tableNode
  | TAllowWhere p =>
      (exists w,
          join_table node'
          = AliasE (mkSelectQueryNode (Some [TableE tableNode])
                                      (Some [createSelectAll]) None w)
                   (tn_name tableNode)
          /\ splicedWhere (guard_table g tableNode Select TableTopLevel) None w)
      /\ (guard_table g tableNode Select TableTopLevel = TAllowWhere p ->
          join_table node'
          = AliasE (mkSelectQueryNode (Some [TableE tableNode])
                                      (Some [createSelectAll]) None
                                      (Some (mkWhereNode p)))
                   (tn_name tableNode))
  | TDeny | TDenyReason _ => False
  end.
Proof.
  intros Hrun.
  pose proof (Post_ok _ _ _ _ _
                (Post_transformJoin_table g fuel nodeStack joinType tableNode on)
                Hrun) as H.
  destruct (guard_table g tableNode Select TableInJoin) as [|p| |reason];
    try exact H.
  split; [exact H|]. intros Htop.
  destruct H as [w [Ht Hw]]. rewrite Htop in Hw. simpl in Hw.
  now rewrite Ht, Hw.
Qed.

(** The repository's scenario: joining [person] under the guard that
    filters it by [first_name = 'Ben'], whatever the usage. *)
Lemma join_source_is_rewritten_witness :
  exists log node',
    transformJoin Examples.benGuard (transformSelectQuery Examples.benGuard 1)
                  [OSelectQuery Examples.selectJoiningRsvp; OJoin Examples.joinPerson]
                  Examples.joinPerson = (log, Ok node')
    /\ join_table node'
       = AliasE (mkSelectQueryNode (Some [TableE Examples.person])
                                   (Some [createSelectAll]) None
                                   (Some (mkWhereNode (Examples.firstNameIs "Ben"))))
                "person".
Proof.
  eexists. eexists. split; [vm_compute; reflexivity|].
  exact (proj2 (join_source_is_rewritten Examples.benGuard 1
                  [OSelectQuery Examples.selectJoiningRsvp; OJoin Examples.joinPerson]
                  "InnerJoin" Examples.person (join_on Examples.joinPerson)
                  _ _ eq_refl) eq_refl).
Defined.

(** *** Column references in filters and join conditions *)

Section ReferenceFacts.

Variable g : FullKyselyAccessControlGuard.

Lemma events_bind {A B} (m : M A) (f : A -> M B) :
  events (bind m f)
  = match outcome m with
    | Ok a => events m ++ events (f a)
    | Err _ => events m
    end.
Proof.
  unfold bind, events, outcome. destruct m as [l [a|e]]; simpl; [|reflexivity].
  now destruct (f a).
Qed.

Lemma outcome_bind {A B} (m : M A) (f : A -> M B) :
  outcome (bind m f)
  = match outcome m with
    | Ok a => outcome (f a)
    | Err e => Err e
    end.
Proof.
  unfold bind, outcome. destruct m as [l [a|e]]; simpl; [|reflexivity].
  now destruct (f a).
Qed.

(** Finding the table of a reference asks no guard. *)
Lemma events_resolveReferenceTable nodeStack node :
  events (resolveReferenceTable nodeStack node) = [].
Proof.
  unfold resolveReferenceTable.
  destruct (ref_table node); [reflexivity|].
  destruct (negb _); [reflexivity|].
  destruct (nth_error _ _) as [parentOfWhere|]; [|reflexivity].
  rewrite events_bind.
  destruct parentOfWhere as [q|q|q|q| | | | | | | | | | | |]; simpl; try reflexivity.
  - destruct (sq_joins q) as [joins|]; simpl;
      [destruct (0 <? length joins)%nat; simpl; try reflexivity|];
      destruct (sq_from q) as [[|[t|sub alias] [|]]|]; reflexivity.
  - destruct (upd_from q) as [froms|]; simpl;
      [destruct (0 <? length froms)%nat; simpl; try reflexivity|];
      destruct (upd_table q); reflexivity.
  - destruct (del_using q) as [tables|]; simpl;
      [destruct (0 <? length tables)%nat; simpl; try reflexivity|];
      destruct (del_from q) as [|[t|sub alias] [|]]; reflexivity.
Qed.

Lemma resolveReferenceTable_explicit nodeStack node t :
  ref_table node = Some t -> resolveReferenceTable nodeStack node = ret t.
Proof. unfold resolveReferenceTable. now intros ->. Qed.

(** Under a where clause or a join, the guard calls of
    [transformReference] are at most one call of the column guard, for a
    Select statement and the filter/join usage. *)
Lemma events_transformReference nodeStack node :
  isAChildOf WhereNode_is nodeStack || isAChildOf JoinNode_is nodeStack = true ->
  match outcome (resolveReferenceTable nodeStack node), ref_column node with
  | Ok t, ColumnNode c =>
      events (transformReference g nodeStack node)
      = [ColumnGuardCalled t c Select ColumnInWhereOrJoin]
  | _, _ => events (transformReference g nodeStack node) = []
  end.
Proof.
  intros Hchild. unfold transformReference.
  replace (negb (isAChildOf WhereNode_is nodeStack)
           && negb (isAChildOf JoinNode_is nodeStack)) with false
    by (rewrite <- negb_orb, Hchild; reflexivity).
  rewrite events_bind, events_resolveReferenceTable.
  destruct (outcome (resolveReferenceTable nodeStack node)) as [t|e];
    [|now destruct (ref_column node)].
  destruct (ref_column node) as [c|]; [|reflexivity].
  simpl. rewrite events_bind. simpl. rewrite events_bind.
  unfold throwIfDenyWithReason.
  destruct (denial (guard_column g t c Select ColumnInWhereOrJoin)) as [[r|]|];
    reflexivity.
Qed.

(** A reference that survives [transformReference] under a where clause
    or a join had its column guard called. *)
Lemma outcome_transformReference_ok nodeStack node node' :
  isAChildOf WhereNode_is nodeStack || isAChildOf JoinNode_is nodeStack = true ->
  outcome (transformReference g nodeStack node) = Ok node' ->
  exists t c, outcome (resolveReferenceTable nodeStack node) = Ok t
              /\ ref_column node = ColumnNode c.
Proof.
  intros Hchild. unfold transformReference.
  replace (negb (isAChildOf WhereNode_is nodeStack)
           && negb (isAChildOf JoinNode_is nodeStack)) with false
    by (rewrite <- negb_orb, Hchild; reflexivity).
  rewrite outcome_bind.
  destruct (outcome (resolveReferenceTable nodeStack node)) as [t|e];
    [|discriminate].
  destruct (ref_column node) as [c|]; [|discriminate].
  intros _. now exists t, c.
Qed.

End ReferenceFacts.

(** For a column reference under a where clause or a join condition,
    whatever statement encloses it, the only guard call
    [transformReference] makes is the column guard with statement type
    Select and the filter/join usage: exactly that call, on the
    reference's table and column, when the reference names its table, and
    whenever the reference is accepted. *)
Lemma transformReference_filter_usage g nodeStack node :
  isAChildOf WhereNode_is nodeStack || isAChildOf JoinNode_is nodeStack = true ->
  (forall ev, In ev (events (transformReference g nodeStack node)) ->
              exists t c, ev = ColumnGuardCalled t c Select ColumnInWhereOrJoin)
  /\ (forall t c, ref_table node = Some t -> ref_column node = ColumnNode c ->
                  events (transformReference g nodeStack node)
                  = [ColumnGuardCalled t c Select ColumnInWhereOrJoin])
  /\ (forall node', outcome (transformReference g nodeStack node) = Ok node' ->
                    exists t c, events (transformReference g nodeStack node)
                                = [ColumnGuardCalled t c Select ColumnInWhereOrJoin]).
Proof.
  intros Hchild.
  pose proof (events_transformReference g nodeStack node Hchild) as Hev.
  split; [|split].
  - intros ev Hin.
    destruct (outcome (resolveReferenceTable nodeStack node)) as [t|e];
      [destruct (ref_column node) as [c|]|];
      rewrite Hev in Hin; simpl in Hin; try contradiction.
    destruct Hin as [<-|[]]. now exists t, c.
  - intros t c Ht Hc.
    rewrite (resolveReferenceTable_explicit nodeStack node t Ht), Hc in Hev.
    exact Hev.
  - intros node' Hok.
    destruct (outcome_transformReference_ok g nodeStack node node' Hchild Hok)
      as [t [c [Ht Hc]]].
    rewrite Ht, Hc in Hev. now exists t, c.
Qed.

(** ** C5 *)

(** Under a where clause or a join, a column the guard answers Omit for
    is returned as it is, like an allowed one. *)
Lemma transformReference_Omit_kept g nodeStack t c :
  isAChildOf WhereNode_is nodeStack || isAChildOf JoinNode_is nodeStack = true ->
  guard_column g t c Select ColumnInWhereOrJoin = COmit ->
  transformReference g nodeStack (mkReferenceNode (Some t) (ColumnNode c))
  = ([ColumnGuardCalled t c Select ColumnInWhereOrJoin],
     Ok (mkReferenceNode (Some t) (ColumnNode c))).
Proof.
  intros Hchild Homit. unfold transformReference.
  replace (negb (isAChildOf WhereNode_is nodeStack)
           && negb (isAChildOf JoinNode_is nodeStack)) with false
    by (rewrite <- negb_orb, Hchild; reflexivity).
  unfold resolveReferenceTable. simpl.
  unfold callColumnGuard, bind, ret. rewrite Homit. reflexivity.
Qed.

(** C5 does not hold of the code: the column guard answers Omit for
    [last_name] used in the filter, and the statement is returned
    unchanged, the filter still reading [last_name]; no error is
    raised. *)
Theorem C5_omit_in_filter_is_silently_kept :
  guard_column Examples.omitLastNameGuard Examples.person "last_name"
               Select ColumnInWhereOrJoin = COmit
  /\ transformQuery Examples.omitLastNameGuard
                    (SelectQuery Examples.selectFilteringOnLastName)
     = ([TableGuardCalled Examples.person Select TableTopLevel;
         ColumnGuardCalled Examples.person "id" Select ColumnInSelectOrReturning;
         ColumnGuardCalled Examples.person "last_name" Select ColumnInWhereOrJoin],
        Ok (SelectQuery Examples.selectFilteringOnLastName)).
Proof. split; reflexivity. Qed.

(** ** C6 *)

(** What a rewritten insert is made of: the columns the guard did not
    answer Omit for, and the values exactly as they were. *)
Lemma Post_transformInsertColumns g tableNode columns :
  Post (fun columns' =>
          columns' = filter (fun column =>
                               negb (isOmit (guard_column g tableNode column
                                                          Insert ColumnInInsert)))
                            columns)
       anyError (transformInsertColumns g tableNode columns).
Proof.
  induction columns as [|column rest IH]; simpl; [now apply Post_ret|].
  eapply Post_bind; [apply Post_callColumnGuard|]. intros guardResult ->.
  apply Post_bind_True; [apply Post_trivial|intros _].
  eapply Post_bind; [exact IH|]. intros rest' ->.
  destruct (guard_column g tableNode column Insert ColumnInInsert);
    now apply Post_ret.
Qed.

Lemma Post_transformInsertQuery_values g nodeStack node :
  Post (fun node' => ins_values node' = ins_values node)
       anyError (transformInsertQuery g nodeStack node).
Proof.
  assert (Hsuper : forall n,
             Post (fun node' => ins_values node' = ins_values n) anyError
                  (super_transformInsertQuery g nodeStack n)).
  { intros n. unfold super_transformInsertQuery.
    eapply Post_bind.
    - apply Post_transformOptional_id. intros rows _.
      apply Post_transformNodeList_id. intros row _.
      apply Post_transformNodeList_id. intros e _.
      apply Post_visitExpression; intros; exact I.
    - intros values' <-.
      apply Post_bind_True; [apply Post_trivial|intros returning'].
      now apply Post_ret. }
  unfold transformInsertQuery.
  apply Post_bind_True; [apply Post_trivial|intros guardResult].
  apply Post_bind_True; [apply Post_trivial|intros _].
  destruct (ins_columns node); [|apply Hsuper].
  apply Post_bind_True; [apply Post_trivial|intros columns'].
  apply (Hsuper (mkInsertQueryNode (ins_into node) (Some columns')
                                   (ins_values node) (ins_returning node))).
Qed.

(** C6 does not hold of the code: the column guard answers Omit for
    [last_name]; the rewritten insert lists the column [first_name] only,
    but its row of values still holds both values. *)
Theorem C6_omitted_insert_column_keeps_its_value :
  guard_column Examples.omitLastNameGuard Examples.person "last_name"
               Insert ColumnInInsert = COmit
  /\ transformQuery Examples.omitLastNameGuard (InsertQuery Examples.insertJohnDoe)
     = ([TableGuardCalled Examples.person Insert TableTopLevel;
         ColumnGuardCalled Examples.person "first_name" Insert ColumnInInsert;
         ColumnGuardCalled Examples.person "last_name" Insert ColumnInInsert],
        Ok (InsertQuery
              (mkInsertQueryNode Examples.person (Some ["first_name"])
                                 (Some [[Examples.str "John"; Examples.str "Doe"]])
                                 None))).
Proof. split; reflexivity. Qed.

Lemma bind_ret_l {A B} (a : A) (f : A -> M B) : bind (ret a) f = f a.
Proof. unfold bind, ret. now destruct (f a). Qed.

(** A denial by the table guard, asked first, is all that happens. *)
Lemma denied_first {B} g t st ctx core msg (k : unit -> M B) :
  throwIfDenyWithReason (guard_table g t st ctx) core = ([], Err (Denied msg)) ->
  bind (callTableGuard g t st ctx)
       (fun guardResult => bind (throwIfDenyWithReason guardResult core) k)
  = ([TableGuardCalled t st ctx], Err (Denied msg)).
Proof.
  intros Hthrow. unfold callTableGuard. unfold bind at 1.
  rewrite (bind_of_err _ _ _ _ Hthrow). reflexivity.
Qed.

(** ** C8 *)

(** C8, as stated, fails for a table that is joined: the table guard
    denies [rsvp], and the statement joining it is rejected with an
    authorization denial, but only after the column guard was called
    for the projected column [person.id]. *)
Lemma C8_column_inspected_before_join_denial :
  (forall s c, guard_table Examples.denyRsvpGuard Examples.rsvp s c = TDeny)
  /\ transformQuery Examples.denyRsvpGuard (SelectQuery Examples.selectJoiningRsvp)
     = ([TableGuardCalled Examples.person Select TableTopLevel;
         ColumnGuardCalled Examples.person "id" Select ColumnInSelectOrReturning;
         TableGuardCalled Examples.rsvp Select TableInJoin],
        Err (Denied "JOIN denied on table rsvp")).
Proof. split; reflexivity. Qed.

(** C8 (amended): for every statement whose primary table (the single
    source table of a select with a selection list, the target of an
    insert, the table of an update, the single source table of a delete)
    is denied by the table guard, the transformation raises an
    Authorization Denial and the only guard call made is that call of
    the table guard: the column guard is not invoked for any column. *)
Theorem C8_denied_primary_table g node statementType tableNode :
  primaryTable node = Some (statementType, tableNode) ->
  denial (guard_table g tableNode statementType TableTopLevel) <> None ->
  exists msg,
    transformQuery g node
    = ([TableGuardCalled tableNode statementType TableTopLevel], Err (Denied msg)).
Proof.
  intros Hprimary Hdenied.
  assert (Hthrow :
            exists msg,
            forall core,
              throwIfDenyWithReason
                (guard_table g tableNode statementType TableTopLevel) core
              = ([], Err (Denied (core ++ msg)))).
  { unfold throwIfDenyWithReason.
    destruct (denial (guard_table g tableNode statementType TableTopLevel))
      as [[reason|]|]; [| |contradiction].
    - exists (": " ++ reason)%string. reflexivity.
    - exists ""%string. intros core.
      replace (core ++ "")%string with core; [reflexivity|].
      clear. induction core; simpl; congruence. }
  destruct Hthrow as [msg Hthrow].
  destruct node as [q|q|q|q]; simpl in Hprimary.
  - destruct q as [from selections joins where_clause].
    cbn [sq_from sq_selections] in Hprimary.
    destruct from as [[|[t|sub alias] [|]]|]; try discriminate.
    destruct selections as [selections|]; try discriminate.
    injection Hprimary as <- <-.
    eexists. unfold transformQuery.
    cbn [depthRoot depthSelect transformSelectQuery].
    erewrite bind_of_err; [reflexivity|].
    unfold transformSelectQueryBody.
    cbn [sq_from sq_selections length Nat.eqb nth_error].
    unfold invariant. rewrite bind_ret_l.
    apply denied_first, Hthrow.
  - injection Hprimary as <- <-.
    eexists. unfold transformQuery.
    erewrite bind_of_err; [reflexivity|].
    unfold transformInsertQuery. apply denied_first, Hthrow.
  - destruct (upd_table q) as [t|sub alias] eqn:Htable; try discriminate.
    injection Hprimary as <- <-.
    eexists. unfold transformQuery.
    erewrite bind_of_err; [reflexivity|].
    unfold transformUpdateQuery. rewrite Htable. apply denied_first, Hthrow.
  - destruct (del_from q) as [|[t|sub alias] [|]] eqn:Hfrom; try discriminate.
    injection Hprimary as <- <-.
    eexists. unfold transformQuery.
    erewrite bind_of_err; [reflexivity|].
    unfold transformDeleteQuery. rewrite Hfrom.
    cbn [length Nat.eqb nth_error].
    unfold invariant. rewrite bind_ret_l.
    apply denied_first, Hthrow.
Qed.

(** C8 on a top-level select from the denied table [rsvp]. *)
Lemma C8_denied_primary_table_witness :
  exists msg,
    transformQuery Examples.denyRsvpGuard
      (SelectQuery (mkSelectQueryNode (Some [TableE Examples.rsvp])
                      (Some [Examples.sel (Examples.col Examples.rsvp "id")])
                      None None))
    = ([TableGuardCalled Examples.rsvp Select TableTopLevel], Err (Denied msg)).
Proof.
  apply (C8_denied_primary_table Examples.denyRsvpGuard _ Select Examples.rsvp).
  - reflexivity.
  - discriminate.
Defined.

(** *** Guards that always allow: nothing is rewritten *)

Section AllowFacts.

Variable g : FullKyselyAccessControlGuard.
Hypothesis g_allows : alwaysAllows g.

Lemma notDenied_thrown m : notDenied (Thrown m).
Proof. exact I. Qed.

Lemma notDenied_invariant m : notDenied (InvariantFailed m).
Proof. exact I. Qed.

Lemma notDenied_type : notDenied TypeError.
Proof. exact I. Qed.

Lemma allows_table t s c :
  denial (guard_table g t s c) <> None -> forall m, notDenied (Denied m).
Proof. rewrite (proj1 g_allows). intros H. now elim H. Qed.

Lemma allows_column t col s c :
  denial (guard_column g t col s c) <> None -> forall m, notDenied (Denied m).
Proof. rewrite (proj2 g_allows). intros H. now elim H. Qed.

#[local] Hint Resolve notDenied_thrown notDenied_invariant notDenied_type
  allows_table allows_column : post.

Lemma allow_visitExpression nodeStack e :
  Post (eq e) notDenied (visitExpression g nodeStack e).
Proof. apply Post_visitExpression; eauto with post. Qed.

Lemma allow_visitWhere nodeStack w :
  Post (eq w) notDenied (visitWhere g nodeStack w).
Proof. apply Post_visitWhere; eauto with post. Qed.

Lemma allow_visitOn nodeStack o : Post (eq o) notDenied (visitOn g nodeStack o).
Proof. apply Post_visitOn; eauto with post. Qed.

Lemma allow_visitSelection nodeStack s :
  Post (eq s) notDenied (visitSelection g nodeStack s).
Proof. apply Post_visitSelection; eauto with post. Qed.

Lemma allow_super_transformReturning nodeStack r :
  Post (eq r) notDenied (super_transformReturning g nodeStack r).
Proof. apply Post_super_transformReturning; eauto with post. Qed.

#[local] Hint Resolve allow_visitExpression allow_visitWhere allow_visitOn
  allow_visitSelection allow_super_transformReturning : post.

Lemma allow_transformSelectionsLoop selections tableNode scoped statementType :
  Post (eq selections) notDenied
       (transformSelectionsLoop g selections tableNode scoped statementType).
Proof.
  induction selections as [|selectionNode rest IH]; simpl; [now apply Post_ret|].
  destruct (selection selectionNode) as [r| |e alias]; [|exact I|exact I].
  destruct (ref_column r) as [column|]; [|exact I].
  apply Post_bind_True.
  { destruct scoped; [destruct (ref_table r)|]; post. }
  intros tableNodeToUse.
  eapply Post_bind; [apply Post_callColumnGuard|]. intros guardResult ->.
  rewrite (proj2 g_allows).
  apply Post_bind_True; [exact I|intros _].
  eapply Post_bind; [exact IH|]. intros rest' <-. now apply Post_ret.
Qed.

Lemma allow__transformSelections nodeStack selections tableNode scoped statementType :
  Post (eq selections) notDenied
       (_transformSelections g nodeStack selections tableNode scoped statementType).
Proof.
  unfold _transformSelections.
  destruct (_ || _); [now apply Post_ret|apply allow_transformSelectionsLoop].
Qed.

#[local] Hint Resolve allow__transformSelections : post.

Lemma allow_transformReturning nodeStack r :
  Post (eq r) notDenied (transformReturning g nodeStack r).
Proof.
  unfold transformReturning.
  destruct (getParentNode nodeStack) as [parentNode|]; [|exact I].
  apply Post_bind_True; [destruct parentNode; post|].
  intros [statementType tableNode].
  destruct tableNode as [[tableNode|sub alias]|]; [|exact I|exact I].
  eapply Post_bind; [apply allow__transformSelections|].
  intros selections <-.
  eapply Post_weaken; [apply allow_super_transformReturning| |auto].
  intros r' <-. now destruct r.
Qed.

Lemma allow_visitReturning nodeStack r :
  Post (eq r) notDenied (visitReturning g nodeStack r).
Proof. apply allow_transformReturning. Qed.

#[local] Hint Resolve allow_visitReturning : post.

Lemma allow__transformWhere nodeStack w :
  Post (eq w) notDenied (_transformWhere g nodeStack TAllow w).
Proof. now apply Post_ret. Qed.

Section AllowNested.

Variable visitSelectQuery : list OperationNode -> SelectQueryNode -> M SelectQueryNode.
Hypothesis visitSelectQuery_id :
  forall s q, Post (eq q) notDenied (visitSelectQuery s q).

Lemma allow_visitTableExpr nodeStack t :
  Post (eq t) notDenied (visitTableExpr visitSelectQuery nodeStack t).
Proof.
  destruct t as [tn|q alias]; simpl; [now apply Post_ret|].
  eapply Post_bind; [apply visitSelectQuery_id|]. intros q' <-. now apply Post_ret.
Qed.

#[local] Hint Resolve allow_visitTableExpr : post.

Lemma allow_super_transformJoin nodeStack node :
  Post (eq node) notDenied (super_transformJoin g visitSelectQuery nodeStack node).
Proof.
  unfold super_transformJoin.
  eapply Post_bind; [apply allow_visitTableExpr|]. intros table' <-.
  eapply Post_bind;
    [apply Post_transformOptional_id; intros o _; apply allow_visitOn|].
  intros on' <-. apply Post_ret. now destruct node.
Qed.

Lemma allow_visitJoin nodeStack node :
  Post (eq node) notDenied (visitJoin g visitSelectQuery nodeStack node).
Proof.
  unfold visitJoin, transformJoin.
  destruct (join_table node) as [tableNode|q alias];
    [|apply allow_super_transformJoin].
  eapply Post_bind; [apply Post_callTableGuard|]. intros guardResult ->.
  rewrite (proj1 g_allows).
  apply Post_bind_True; [exact I|intros _].
  apply allow_super_transformJoin.
Qed.

Lemma allow_guardSecondarySource statementType from :
  Post (eq from) notDenied (guardSecondarySource g statementType from).
Proof.
  destruct from as [tableNode|q alias]; simpl; [|now apply Post_ret].
  eapply Post_bind; [apply Post_callTableGuard|]. intros guardResult ->.
  rewrite (proj1 g_allows).
  apply Post_bind_True; [exact I|intros _]. now apply Post_ret.
Qed.

Lemma allow_visitTableExprs nodeStack froms :
  Post (eq froms) notDenied
       (transformNodeList (visitTableExpr visitSelectQuery nodeStack) froms).
Proof. apply Post_transformNodeList_id. intros t _. apply allow_visitTableExpr. Qed.

Lemma allow_guardSecondarySources statementType froms :
  Post (eq froms) notDenied
       (transformNodeList (guardSecondarySource g statementType) froms).
Proof.
  apply Post_transformNodeList_id. intros t _. apply allow_guardSecondarySource.
Qed.

Lemma allow_visitFrom nodeStack froms :
  Post (eq froms) notDenied (visitFrom g visitSelectQuery nodeStack froms).
Proof.
  unfold visitFrom, transformFrom.
  destruct (getParentNode _) as [parentNode|]; [|exact I].
  destruct parentNode; try apply allow_visitTableExprs.
  eapply Post_bind; [apply allow_guardSecondarySources|]. intros newFroms <-.
  apply allow_visitTableExprs.
Qed.

Lemma allow_visitUsing nodeStack tables :
  Post (eq tables) notDenied (visitUsing g visitSelectQuery nodeStack tables).
Proof.
  unfold visitUsing, transformUsing.
  destruct (getParentNode _) as [parentNode|]; [|exact I].
  destruct parentNode; try apply allow_visitTableExprs.
  eapply Post_bind; [apply allow_guardSecondarySources|]. intros newTables <-.
  apply allow_visitTableExprs.
Qed.

Lemma allow_visitJoins nodeStack joins :
  Post (eq joins) notDenied
       (transformOptional (transformNodeList (visitJoin g visitSelectQuery nodeStack))
                          joins).
Proof.
  apply Post_transformOptional_id. intros js _.
  apply Post_transformNodeList_id. intros j _. apply allow_visitJoin.
Qed.

Lemma allow_visitOptionalWhere nodeStack w :
  Post (eq w) notDenied (transformOptional (visitWhere g nodeStack) w).
Proof. apply Post_transformOptional_id. intros x _. apply allow_visitWhere. Qed.

Lemma allow_visitOptionalReturning nodeStack r :
  Post (eq r) notDenied (transformOptional (visitReturning g nodeStack) r).
Proof. apply Post_transformOptional_id. intros x _. apply allow_visitReturning. Qed.

Lemma allow_super_transformSelectQuery nodeStack node :
  Post (eq node) notDenied
       (super_transformSelectQuery g visitSelectQuery nodeStack node).
Proof.
  unfold super_transformSelectQuery.
  eapply Post_bind;
    [apply Post_transformOptional_id; intros f _; apply allow_visitFrom|].
  intros from' <-.
  eapply Post_bind.
  { apply Post_transformOptional_id. intros l _.
    apply Post_transformNodeList_id. intros x _. apply allow_visitSelection. }
  intros selections' <-.
  eapply Post_bind; [apply allow_visitJoins|]. intros joins' <-.
  eapply Post_bind; [apply allow_visitOptionalWhere|]. intros where' <-.
  apply Post_ret. now destruct node.
Qed.

Lemma allow_transformSelectQueryBody nodeStack node :
  Post (eq node) notDenied
       (transformSelectQueryBody g visitSelectQuery nodeStack node).
Proof.
  unfold transformSelectQueryBody.
  destruct (sq_from node) as [froms|] eqn:Hfrom;
    [|apply allow_super_transformSelectQuery].
  apply Post_bind_True; [apply Post_invariant_True; exact I|intros _].
  destruct (nth_error froms 0) as [[tableNode|sub alias]|]; [|exact I|exact I].
  destruct (sq_selections node) as [selections|] eqn:Hsel; [|exact I].
  eapply Post_bind; [apply Post_callTableGuard|]. intros guardResult ->.
  rewrite (proj1 g_allows).
  apply Post_bind_True; [exact I|intros _].
  eapply Post_bind; [apply allow__transformSelections|]. intros selections' <-.
  eapply Post_bind; [apply allow__transformWhere|]. intros where' <-.
  eapply Post_weaken; [apply allow_super_transformSelectQuery| |auto].
  intros node' <-. rewrite <- Hfrom, <- Hsel. now destruct node.
Qed.

Lemma allow_checkUpdateColumns tableNode updates :
  Post (fun _ => True) notDenied (checkUpdateColumns g tableNode updates).
Proof.
  induction updates as [|u rest IH]; simpl; [now apply Post_ret|].
  eapply Post_bind; [apply Post_callColumnGuard|]. intros guardResult ->.
  rewrite (proj2 g_allows).
  apply Post_bind_True; [exact I|intros _]. exact IH.
Qed.

Lemma allow_visitColumnUpdate nodeStack u :
  Post (eq u) notDenied (visitColumnUpdate g nodeStack u).
Proof.
  unfold visitColumnUpdate.
  eapply Post_bind; [apply allow_visitExpression|]. intros value' <-.
  apply Post_ret. now destruct u.
Qed.

Lemma allow_super_transformUpdateQuery nodeStack node :
  Post (eq node) notDenied
       (super_transformUpdateQuery g visitSelectQuery nodeStack node).
Proof.
  unfold super_transformUpdateQuery.
  eapply Post_bind; [apply allow_visitTableExpr|]. intros table' <-.
  eapply Post_bind;
    [apply Post_transformOptional_id; intros f _; apply allow_visitFrom|].
  intros from' <-.
  eapply Post_bind; [apply allow_visitJoins|]. intros joins' <-.
  eapply Post_bind; [apply allow_visitOptionalWhere|]. intros where' <-.
  eapply Post_bind.
  { apply Post_transformOptional_id. intros l _.
    apply Post_transformNodeList_id. intros x _. apply allow_visitColumnUpdate. }
  intros updates' <-.
  eapply Post_bind; [apply allow_visitOptionalReturning|]. intros returning' <-.
  apply Post_ret. now destruct node.
Qed.

Lemma allow_transformUpdateQuery nodeStack node :
  Post (eq node) notDenied (transformUpdateQuery g visitSelectQuery nodeStack node).
Proof.
  unfold transformUpdateQuery.
  destruct (upd_table node) as [tableNode|sub alias] eqn:Htable; [|exact I].
  eapply Post_bind; [apply Post_callTableGuard|]. intros guardResult ->.
  rewrite (proj1 g_allows).
  apply Post_bind_True; [exact I|intros _].
  apply Post_bind_True.
  { destruct (upd_updates node); [apply allow_checkUpdateColumns|exact I]. }
  intros _.
  eapply Post_bind; [apply allow__transformWhere|]. intros where' <-.
  eapply Post_weaken; [apply allow_super_transformUpdateQuery| |auto].
  intros node' <-. rewrite <- Htable. now destruct node.
Qed.

Lemma allow_super_transformDeleteQuery nodeStack node :
  Post (eq node) notDenied
       (super_transformDeleteQuery g visitSelectQuery nodeStack node).
Proof.
  unfold super_transformDeleteQuery.
  eapply Post_bind; [apply allow_visitFrom|]. intros from' <-.
  eapply Post_bind;
    [apply Post_transformOptional_id; intros u _; apply allow_visitUsing|].
  intros using' <-.
  eapply Post_bind; [apply allow_visitJoins|]. intros joins' <-.
  eapply Post_bind; [apply allow_visitOptionalWhere|]. intros where' <-.
  eapply Post_bind; [apply allow_visitOptionalReturning|]. intros returning' <-.
  apply Post_ret. now destruct node.
Qed.

Lemma allow_transformDeleteQuery nodeStack node :
  Post (eq node) notDenied (transformDeleteQuery g visitSelectQuery nodeStack node).
Proof.
  unfold transformDeleteQuery.
  apply Post_bind_True; [apply Post_invariant_True; exact I|intros _].
  destruct (nth_error (del_from node) 0) as [[tableNode|sub alias]|];
    [|exact I|exact I].
  eapply Post_bind; [apply Post_callTableGuard|]. intros guardResult ->.
  rewrite (proj1 g_allows).
  apply Post_bind_True; [exact I|intros _].
  apply allow_super_transformDeleteQuery.
Qed.

End AllowNested.

Lemma allow_transformInsertColumns tableNode columns :
  Post (eq columns) notDenied (transformInsertColumns g tableNode columns).
Proof.
  induction columns as [|column rest IH]; simpl; [now apply Post_ret|].
  eapply Post_bind; [apply Post_callColumnGuard|]. intros guardResult ->.
  rewrite (proj2 g_allows).
  apply Post_bind_True; [exact I|intros _].
  eapply Post_bind; [exact IH|]. intros rest' <-. now apply Post_ret.
Qed.

Lemma allow_super_transformInsertQuery nodeStack node :
  Post (eq node) notDenied (super_transformInsertQuery g nodeStack node).
Proof.
  unfold super_transformInsertQuery.
  eapply Post_bind.
  { apply Post_transformOptional_id. intros rows _.
    apply Post_transformNodeList_id. intros row _.
    apply Post_transformNodeList_id. intros e _. apply allow_visitExpression. }
  intros values' <-.
  eapply Post_bind; [apply allow_visitOptionalReturning|]. intros returning' <-.
  apply Post_ret. now destruct node.
Qed.

Lemma allow_transformInsertQuery nodeStack node :
  Post (eq node) notDenied (transformInsertQuery g nodeStack node).
Proof.
  unfold transformInsertQuery.
  eapply Post_bind; [apply Post_callTableGuard|]. intros guardResult ->.
  rewrite (proj1 g_allows).
  apply Post_bind_True; [exact I|intros _].
  destruct (ins_columns node) as [columns|] eqn:Hcolumns;
    [|apply allow_super_transformInsertQuery].
  eapply Post_bind; [apply allow_transformInsertColumns|]. intros columns' <-.
  eapply Post_weaken; [apply allow_super_transformInsertQuery| |auto].
  intros node' <-. rewrite <- Hcolumns. now destruct node.
Qed.

Lemma allow_transformSelectQuery fuel : forall nodeStack node,
  Post (eq node) notDenied (transformSelectQuery g fuel nodeStack node).
Proof.
  induction fuel as [|fuel' IH]; intros nodeStack node; simpl; [exact I|].
  now apply allow_transformSelectQueryBody.
Qed.

(** Under a guard that always allows, a statement is returned as it is,
    unless the transformer stops with an error other than a denial. *)
Lemma allow_transformQuery node :
  Post (eq node) notDenied (transformQuery g node).
Proof.
  unfold transformQuery. destruct node as [q|q|q|q].
  - eapply Post_bind; [apply allow_transformSelectQuery|].
    intros q' <-. now apply Post_ret.
  - eapply Post_bind; [apply allow_transformInsertQuery|].
    intros q' <-. now apply Post_ret.
  - eapply Post_bind;
      [apply allow_transformUpdateQuery; apply allow_transformSelectQuery|].
    intros q' <-. now apply Post_ret.
  - eapply Post_bind;
      [apply allow_transformDeleteQuery; apply allow_transformSelectQuery|].
    intros q' <-. now apply Post_ret.
Qed.

End AllowFacts.

(** *** The fuel of [transformQuery] is enough: every guard *)

Section FuelFacts.

Variable g : FullKyselyAccessControlGuard.

Lemma withinFuel_thrown m : withinFuel (Thrown m).
Proof. discriminate. Qed.

Lemma withinFuel_invariant m : withinFuel (InvariantFailed m).
Proof. discriminate. Qed.

Lemma withinFuel_type : withinFuel TypeError.
Proof. discriminate. Qed.

Lemma withinFuel_denied m : withinFuel (Denied m).
Proof. discriminate. Qed.

#[local] Hint Resolve withinFuel_thrown withinFuel_invariant withinFuel_type
  withinFuel_denied : post.

Lemma fuel_visitExpression nodeStack e :
  Post (fun _ => True) withinFuel (visitExpression g nodeStack e).
Proof. eapply Post_True, Post_visitExpression; eauto with post. Qed.

Lemma fuel_visitWhere nodeStack w :
  Post (fun _ => True) withinFuel (visitWhere g nodeStack w).
Proof. eapply Post_True, Post_visitWhere; eauto with post. Qed.

Lemma fuel_visitOn nodeStack o :
  Post (fun _ => True) withinFuel (visitOn g nodeStack o).
Proof. eapply Post_True, Post_visitOn; eauto with post. Qed.

Lemma fuel_visitSelection nodeStack s :
  Post (fun _ => True) withinFuel (visitSelection g nodeStack s).
Proof. eapply Post_True, Post_visitSelection; eauto with post. Qed.

Lemma fuel_super_transformReturning nodeStack r :
  Post (fun _ => True) withinFuel (super_transformReturning g nodeStack r).
Proof. eapply Post_True, Post_super_transformReturning; eauto with post. Qed.

Lemma fuel__transformWhere nodeStack r w :
  Post (fun _ => True) withinFuel (_transformWhere g nodeStack r w).
Proof. eapply Post_True, Post__transformWhere; eauto with post. Qed.

#[local] Hint Resolve fuel_visitExpression fuel_visitWhere fuel_visitOn
  fuel_visitSelection fuel_super_transformReturning fuel__transformWhere : post.

Lemma Post_True_list {A} (f : A -> M A) (l : list A) :
  (forall x, In x l -> Post (fun _ => True) withinFuel (f x)) ->
  Post (fun _ => True) withinFuel (transformNodeList f l).
Proof.
  intros Hf. eapply Post_True.
  apply Post_transformNodeList with (Q := fun _ _ => True). exact Hf.
Qed.

Lemma Post_True_optional {A} (f : A -> M A) (o : option A) :
  (forall x, o = Some x -> Post (fun _ => True) withinFuel (f x)) ->
  Post (fun _ => True) withinFuel (transformOptional f o).
Proof.
  intros Hf. eapply Post_True.
  apply Post_transformOptional with (Q := fun _ _ => True). exact Hf.
Qed.

Lemma fuel_transformSelectionsLoop selections tableNode scoped statementType :
  Post (fun _ => True) withinFuel
       (transformSelectionsLoop g selections tableNode scoped statementType).
Proof. induction selections as [|selectionNode rest IH]; simpl; post. Qed.

Lemma fuel__transformSelections nodeStack selections tableNode scoped statementType :
  Post (fun _ => True) withinFuel
       (_transformSelections g nodeStack selections tableNode scoped statementType).
Proof.
  unfold _transformSelections.
  destruct (_ || _); [now apply Post_ret|apply fuel_transformSelectionsLoop].
Qed.

#[local] Hint Resolve fuel__transformSelections : post.

Lemma fuel_visitReturning nodeStack r :
  Post (fun _ => True) withinFuel (visitReturning g nodeStack r).
Proof. unfold visitReturning, transformReturning. post. Qed.

Lemma fuel_visitOptionalReturning nodeStack r :
  Post (fun _ => True) withinFuel (transformOptional (visitReturning g nodeStack) r).
Proof. apply Post_True_optional. intros x _. apply fuel_visitReturning. Qed.

Lemma fuel_visitOptionalWhere nodeStack w :
  Post (fun _ => True) withinFuel (transformOptional (visitWhere g nodeStack) w).
Proof. apply Post_True_optional. intros x _. apply fuel_visitWhere. Qed.

Lemma fuel_visitSelections nodeStack selections :
  Post (fun _ => True) withinFuel
       (transformOptional (transformNodeList (visitSelection g nodeStack)) selections).
Proof.
  apply Post_True_optional. intros l _.
  apply Post_True_list. intros x _. apply fuel_visitSelection.
Qed.

Lemma fuel_checkUpdateColumns tableNode updates :
  Post (fun _ => True) withinFuel (checkUpdateColumns g tableNode updates).
Proof. induction updates as [|u rest IH]; simpl; post. Qed.

Lemma fuel_transformInsertColumns tableNode columns :
  Post (fun _ => True) withinFuel (transformInsertColumns g tableNode columns).
Proof. induction columns as [|column rest IH]; simpl; post. Qed.

Lemma fuel_transformInsertQuery nodeStack node :
  Post (fun _ => True) withinFuel (transformInsertQuery g nodeStack node).
Proof.
  assert (Hsuper : forall n,
             Post (fun _ => True) withinFuel (super_transformInsertQuery g nodeStack n)).
  { intros n. unfold super_transformInsertQuery.
    apply Post_bind_True.
    - apply Post_True_optional. intros rows _.
      apply Post_True_list. intros row _.
      apply Post_True_list. intros e _. apply fuel_visitExpression.
    - intros values'.
      apply Post_bind_True; [apply fuel_visitOptionalReturning|intros ?].
      now apply Post_ret. }
  unfold transformInsertQuery.
  eapply Post_bind; [apply Post_callTableGuard|]. intros guardResult ->.
  apply Post_bind_True;
    [eapply Post_True, Post_throwIfDenyWithReason; eauto with post|intros _].
  destruct (ins_columns node); [|apply Hsuper].
  apply Post_bind_True; [apply fuel_transformInsertColumns|intros ?]. apply Hsuper.
Qed.

(** [depthSelect], through its joins. *)
Lemma depthSelect_joins q : depthSelect q = S (depthJoins (sq_joins q)).
Proof.
  destruct q as [from selections [joins|] w]; reflexivity.
Qed.

Lemma depthJoins_In joins j n :
  depthJoins (Some joins) <= n -> In j joins -> depthJoin j <= n.
Proof.
  simpl. induction joins as [|j' rest IH]; simpl; [contradiction|].
  intros Hmax [->|Hin]; [lia|]. apply IH; [lia|exact Hin].
Qed.

Lemma depthTableExprs_Forall l n :
  depthTableExprs l <= n -> Forall (fun t => depthTableExpr t <= n) l.
Proof.
  unfold depthTableExprs. induction l as [|t rest IH]; simpl; intros H.
  - constructor.
  - constructor; [lia|apply IH; lia].
Qed.

Lemma nestedDepth_le t : nestedDepth t <= depthTableExpr t.
Proof. destruct t; simpl; lia. Qed.

Section FuelNested.

Variable n : nat.
Variable visitSelectQuery : list OperationNode -> SelectQueryNode -> M SelectQueryNode.
Hypothesis visitSelectQuery_ok :
  forall s q, depthSelect q <= n ->
              Post (fun _ => True) withinFuel
                   (visitSelectQuery (push s (OSelectQuery q)) q).

Lemma fuel_visitTableExpr nodeStack t :
  nestedDepth t <= n ->
  Post (fun _ => True) withinFuel (visitTableExpr visitSelectQuery nodeStack t).
Proof.
  destruct t as [tn|q alias]; simpl; intros Hdepth; [now apply Post_ret|].
  apply Post_bind_True; [now apply visitSelectQuery_ok|intros q'].
  now apply Post_ret.
Qed.

Lemma fuel_visitTableExprs nodeStack l :
  Forall (fun t => nestedDepth t <= n) l ->
  Post (fun _ => True) withinFuel
       (transformNodeList (visitTableExpr visitSelectQuery nodeStack) l).
Proof.
  intros Hall. apply Post_True_list. intros t Hin.
  apply fuel_visitTableExpr. exact (proj1 (Forall_forall _ _) Hall t Hin).
Qed.

Lemma fuel_super_transformJoin nodeStack node :
  nestedDepth (join_table node) <= n ->
  Post (fun _ => True) withinFuel
       (super_transformJoin g visitSelectQuery nodeStack node).
Proof.
  intros Hdepth. unfold super_transformJoin.
  apply Post_bind_True; [now apply fuel_visitTableExpr|intros table'].
  apply Post_bind_True;
    [apply Post_True_optional; intros o _; apply fuel_visitOn|intros on'].
  now apply Post_ret.
Qed.

Lemma fuel_visitJoin nodeStack node :
  depthJoin node <= n ->
  Post (fun _ => True) withinFuel (visitJoin g visitSelectQuery nodeStack node).
Proof.
  destruct node as [joinType table on]. simpl. intros Hdepth.
  unfold visitJoin, transformJoin. cbn [join_table join_type join_on].
  destruct table as [tableNode|q alias]; [|now apply fuel_super_transformJoin].
  eapply Post_bind; [apply Post_callTableGuard|]. intros guardResult ->.
  apply Post_bind_True;
    [eapply Post_True, Post_throwIfDenyWithReason; eauto with post|intros _].
  simpl in Hdepth.
  destruct (guard_table g tableNode Select TableInJoin);
    apply fuel_super_transformJoin; simpl; lia.
Qed.

Lemma fuel_visitJoins nodeStack joins :
  depthJoins joins <= n ->
  Post (fun _ => True) withinFuel
       (transformOptional (transformNodeList (visitJoin g visitSelectQuery nodeStack))
                          joins).
Proof.
  intros Hdepth. apply Post_True_optional. intros js ->.
  apply Post_True_list. intros j Hin. apply fuel_visitJoin.
  now apply depthJoins_In with (joins := js).
Qed.

Lemma fuel_guardSecondarySource statementType from :
  Post (fun from' => depthTableExpr from' <= depthTableExpr from) withinFuel
       (guardSecondarySource g statementType from).
Proof.
  destruct from as [tableNode|q alias]; simpl; [|now apply Post_ret].
  eapply Post_bind; [apply Post_callTableGuard|]. intros guardResult ->.
  apply Post_bind_True;
    [eapply Post_True, Post_throwIfDenyWithReason; eauto with post|intros _].
  destruct (guard_table g tableNode statementType TableInJoin);
    apply Post_ret; simpl; lia.
Qed.

Lemma fuel_guardedSources statementType nodeStack l :
  Forall (fun t => depthTableExpr t <= n) l ->
  Post (fun _ => True) withinFuel
       (newSources <- transformNodeList (guardSecondarySource g statementType) l ;;
        transformNodeList (visitTableExpr visitSelectQuery nodeStack) newSources).
Proof.
  intros Hall.
  eapply Post_bind.
  - apply Post_transformNodeList
      with (Q := fun t t' => depthTableExpr t' <= depthTableExpr t).
    intros t _. apply fuel_guardSecondarySource.
  - intros newSources Hnew. apply fuel_visitTableExprs.
    clear - Hall Hnew. induction Hnew as [|t t' l l' Hle Hrest IH];
      [constructor|].
    inversion Hall; subst.
    constructor; [pose proof (nestedDepth_le t'); lia|now apply IH].
Qed.

Lemma Forall_nestedDepth l :
  Forall (fun t => depthTableExpr t <= n) l ->
  Forall (fun t => nestedDepth t <= n) l.
Proof.
  apply Forall_impl. intros t H. pose proof (nestedDepth_le t). lia.
Qed.

Lemma fuel_visitFrom nodeStack froms :
  Forall (fun t => depthTableExpr t <= n) froms ->
  Post (fun _ => True) withinFuel (visitFrom g visitSelectQuery nodeStack froms).
Proof.
  intros Hall. unfold visitFrom, transformFrom.
  destruct (getParentNode _) as [parentNode|]; [|discriminate].
  destruct parentNode;
    try (apply fuel_visitTableExprs; now apply Forall_nestedDepth).
  now apply fuel_guardedSources.
Qed.

Lemma fuel_visitUsing nodeStack tables :
  Forall (fun t => depthTableExpr t <= n) tables ->
  Post (fun _ => True) withinFuel (visitUsing g visitSelectQuery nodeStack tables).
Proof.
  intros Hall. unfold visitUsing, transformUsing.
  destruct (getParentNode _) as [parentNode|]; [|discriminate].
  destruct parentNode;
    try (apply fuel_visitTableExprs; now apply Forall_nestedDepth).
  now apply fuel_guardedSources.
Qed.

(** The from clause of a select is only copied: its parent on the stack
    is the select itself. *)
Lemma fuel_visitFrom_of_select s q froms :
  Forall (fun t => nestedDepth t <= n) froms ->
  Post (fun _ => True) withinFuel
       (visitFrom g visitSelectQuery (push s (OSelectQuery q)) froms).
Proof.
  intros Hall. unfold visitFrom, transformFrom.
  rewrite getParentNode_push2. now apply fuel_visitTableExprs.
Qed.

Lemma fuel_super_transformSelectQuery s q node :
  (forall froms, sq_from node = Some froms ->
                 Forall (fun t => nestedDepth t <= n) froms) ->
  depthJoins (sq_joins node) <= n ->
  Post (fun _ => True) withinFuel
       (super_transformSelectQuery g visitSelectQuery (push s (OSelectQuery q)) node).
Proof.
  intros Hfrom Hjoins. unfold super_transformSelectQuery.
  apply Post_bind_True.
  { apply Post_True_optional. intros froms Hf.
    apply fuel_visitFrom_of_select. now apply Hfrom. }
  intros from'.
  apply Post_bind_True; [apply fuel_visitSelections|intros selections'].
  apply Post_bind_True; [now apply fuel_visitJoins|intros joins'].
  apply Post_bind_True; [apply fuel_visitOptionalWhere|intros where'].
  now apply Post_ret.
Qed.

Lemma fuel_transformSelectQueryBody s q node :
  depthSelect node <= S n ->
  Post (fun _ => True) withinFuel
       (transformSelectQueryBody g visitSelectQuery (push s (OSelectQuery q)) node).
Proof.
  rewrite depthSelect_joins. intros Hdepth.
  assert (Hjoins : depthJoins (sq_joins node) <= n) by lia.
  unfold transformSelectQueryBody.
  destruct (sq_from node) as [froms|] eqn:Hfrom.
  - eapply Post_bind; [apply Post_invariant; discriminate|].
    intros u Hlen. cbv beta in Hlen. clear u.
    destruct froms as [|[tableNode|sub alias] [|]]; try discriminate Hlen;
      cbn [nth_error]; [|discriminate].
    destruct (sq_selections node) as [selections|]; [|discriminate].
    eapply Post_bind; [apply Post_callTableGuard|]. intros guardResult ->.
    apply Post_bind_True;
      [eapply Post_True, Post_throwIfDenyWithReason; eauto with post|intros _].
    apply Post_bind_True; [apply fuel__transformSelections|intros selections'].
    apply Post_bind_True; [apply fuel__transformWhere|intros where'].
    apply fuel_super_transformSelectQuery; cbn [sq_from sq_joins]; [|exact Hjoins].
    intros froms Hf. injection Hf as <-.
    constructor; [simpl; lia|constructor].
  - apply fuel_super_transformSelectQuery; [|exact Hjoins].
    intros froms Hf. congruence.
Qed.

Lemma fuel_transformUpdateQuery nodeStack node :
  depthRoot (UpdateQuery node) <= n ->
  Post (fun _ => True) withinFuel
       (transformUpdateQuery g visitSelectQuery nodeStack node).
Proof.
  simpl. intros Hdepth. unfold transformUpdateQuery.
  destruct (upd_table node) as [tableNode|sub alias] eqn:Htable; [|discriminate].
  eapply Post_bind; [apply Post_callTableGuard|]. intros guardResult ->.
  apply Post_bind_True;
    [eapply Post_True, Post_throwIfDenyWithReason; eauto with post|intros _].
  apply Post_bind_True.
  { destruct (upd_updates node); [apply fuel_checkUpdateColumns|now apply Post_ret]. }
  intros _.
  apply Post_bind_True; [apply fuel__transformWhere|intros where'].
  unfold super_transformUpdateQuery.
  cbn [upd_table upd_from upd_joins upd_where upd_updates upd_returning].
  apply Post_bind_True; [apply fuel_visitTableExpr; simpl; lia|intros table'].
  apply Post_bind_True.
  { apply Post_True_optional. intros froms Hf. apply fuel_visitFrom.
    apply depthTableExprs_Forall. rewrite Hf in Hdepth. lia. }
  intros from'.
  apply Post_bind_True; [apply fuel_visitJoins; lia|intros joins'].
  apply Post_bind_True; [apply fuel_visitOptionalWhere|intros where''].
  apply Post_bind_True.
  { apply Post_True_optional. intros l _. apply Post_True_list. intros u _.
    unfold visitColumnUpdate.
    apply Post_bind_True; [apply fuel_visitExpression|intros ?].
    now apply Post_ret. }
  intros updates'.
  apply Post_bind_True; [apply fuel_visitOptionalReturning|intros returning'].
  now apply Post_ret.
Qed.

Lemma fuel_transformDeleteQuery nodeStack node :
  depthRoot (DeleteQuery node) <= n ->
  Post (fun _ => True) withinFuel
       (transformDeleteQuery g visitSelectQuery nodeStack node).
Proof.
  simpl. intros Hdepth. unfold transformDeleteQuery.
  apply Post_bind_True; [apply Post_invariant_True; discriminate|intros _].
  destruct (nth_error (del_from node) 0) as [[tableNode|sub alias]|];
    [|discriminate|discriminate].
  eapply Post_bind; [apply Post_callTableGuard|]. intros guardResult ->.
  apply Post_bind_True;
    [eapply Post_True, Post_throwIfDenyWithReason; eauto with post|intros _].
  unfold super_transformDeleteQuery.
  apply Post_bind_True.
  { apply fuel_visitFrom. apply depthTableExprs_Forall. lia. }
  intros from'.
  apply Post_bind_True.
  { apply Post_True_optional. intros tables Hu. apply fuel_visitUsing.
    apply depthTableExprs_Forall. rewrite Hu in Hdepth. lia. }
  intros using'.
  apply Post_bind_True; [apply fuel_visitJoins; lia|intros joins'].
  apply Post_bind_True; [apply fuel_visitOptionalWhere|intros where'].
  apply Post_bind_True; [apply fuel_visitOptionalReturning|intros returning'].
  now apply Post_ret.
Qed.

End FuelNested.

Lemma fuel_transformSelectQuery fuel : forall s q,
  depthSelect q <= fuel ->
  Post (fun _ => True) withinFuel
       (transformSelectQuery g fuel (push s (OSelectQuery q)) q).
Proof.
  induction fuel as [|fuel' IH]; intros s q Hdepth.
  - rewrite depthSelect_joins in Hdepth. lia.
  - simpl. apply fuel_transformSelectQueryBody with (n := fuel');
      [exact IH|exact Hdepth].
Qed.

(** [transformQuery] never stops for lack of fuel. *)
Lemma transformQuery_withinFuel node :
  Post (fun _ => True) withinFuel (transformQuery g node).
Proof.
  unfold transformQuery. destruct node as [q|q|q|q].
  - apply Post_bind_True; [|intros q'; now apply Post_ret].
    apply (fuel_transformSelectQuery (depthRoot (SelectQuery q)) [] q).
    simpl. lia.
  - apply Post_bind_True; [|intros q'; now apply Post_ret].
    apply fuel_transformInsertQuery.
  - apply Post_bind_True; [|intros q'; now apply Post_ret].
    apply fuel_transformUpdateQuery with (n := depthRoot (UpdateQuery q));
      [|lia].
    intros s q0 Hdepth. now apply fuel_transformSelectQuery.
  - apply Post_bind_True; [|intros q'; now apply Post_ret].
    apply fuel_transformDeleteQuery with (n := depthRoot (DeleteQuery q));
      [|lia].
    intros s q0 Hdepth. now apply fuel_transformSelectQuery.
Qed.

End FuelFacts.

(** ** C7 *)

Lemma noGuard_alwaysAllows : alwaysAllows (fullGuard noGuard).
Proof. split; intros; reflexivity. Qed.

(** C7, as stated, fails: with no guard supplied, [select * from person]
    is not returned unchanged; the transformer rejects it, a top-level
    select-all being an unsupported construct whatever the guard. *)
Lemma C7_select_all_rejected_without_guard :
  createAccessControlPlugin noGuard (SelectQuery Examples.selectAllFromPerson)
  = ([TableGuardCalled Examples.person Select TableTopLevel],
     Err (InvariantFailed "kysely-access-control: selection must be a reference node")).
Proof. reflexivity. Qed.

(** C7 (amended): for every statement, transforming it with guards that
    always return Allow (the default guard among them) either returns the
    statement unchanged, or rejects it as an unsupported construct
    (a failed invariant or a thrown error that is not an authorization
    denial); the statement is never rewritten and never denied. *)
Theorem C7_identity_under_allow_guards g node :
  alwaysAllows g ->
  Post (fun node' => node' = node) unsupportedConstruct (transformQuery g node).
Proof.
  intros Hallows.
  pose proof (Post_and _ _ _ _ _ (allow_transformQuery g Hallows node)
                       (transformQuery_withinFuel g node)) as H.
  eapply Post_weaken; [exact H| |].
  - intros node' [Heq _]. now symmetry.
  - intros e [Hnot Hfuel]. destruct e; try exact I; [contradiction|].
    now elim Hfuel.
Qed.

(** C7 with no guard supplied, on a select with a filter: it comes back
    unchanged. *)
Lemma C7_identity_under_allow_guards_witness :
  alwaysAllows (fullGuard noGuard)
  /\ outcome (createAccessControlPlugin noGuard
                (SelectQuery Examples.selectWithFilter))
     = Ok (SelectQuery Examples.selectWithFilter)
  /\ Post (fun node' => node' = SelectQuery Examples.selectWithFilter)
          unsupportedConstruct
          (createAccessControlPlugin noGuard (SelectQuery Examples.selectWithFilter)).
Proof.
  split; [split; intros; reflexivity|]. split; [reflexivity|].
  apply (C7_identity_under_allow_guards (fullGuard noGuard)
           (SelectQuery Examples.selectWithFilter)).
  split; intros; reflexivity.
Defined.

(* ================================================================== *)
(** ** Further properties of the transformer *)
(* ================================================================== *)

Lemma bind_ok_inv {A B} (m : M A) (f : A -> M B) log b :
  bind m f = (log, Ok b) ->
  exists l1 a l2, m = (l1, Ok a) /\ f a = (l2, Ok b) /\ log = l1 ++ l2.
Proof.
  unfold bind. destruct m as [l1 [a|e]]; [|discriminate].
  destruct (f a) as [l2 r] eqn:Hf. intros H. inversion H; subst.
  exists l1, a, l2. repeat split; assumption.
Qed.

(** What [transformQuery] returns is a statement of the same kind, the
    result of the method for that kind run on the root stack. *)
Lemma transformQuery_select g q log r :
  transformQuery g (SelectQuery q) = (log, Ok r) ->
  exists q', r = SelectQuery q'
             /\ transformSelectQueryBody g (transformSelectQuery g (depthJoins (sq_joins q)))
                                         (push [] (OSelectQuery q)) q = (log, Ok q').
Proof.
  unfold transformQuery. intros H.
  apply bind_ok_inv in H as [l1 [q' [l2 [Hrun [Hret ->]]]]].
  inversion Hret; subst. exists q'. split; [reflexivity|].
  rewrite app_nil_r. cbn [depthRoot] in Hrun.
  rewrite depthSelect_joins in Hrun. exact Hrun.
Qed.

Lemma transformQuery_insert g q log r :
  transformQuery g (InsertQuery q) = (log, Ok r) ->
  exists q', r = InsertQuery q'
             /\ transformInsertQuery g [OInsertQuery q] q = (log, Ok q').
Proof.
  unfold transformQuery. intros H.
  apply bind_ok_inv in H as [l1 [q' [l2 [Hrun [Hret ->]]]]].
  inversion Hret; subst. exists q'. now rewrite app_nil_r.
Qed.

Lemma transformQuery_update g q log r :
  transformQuery g (UpdateQuery q) = (log, Ok r) ->
  exists q', r = UpdateQuery q'
             /\ transformUpdateQuery g (transformSelectQuery g (depthRoot (UpdateQuery q)))
                                     [OUpdateQuery q] q = (log, Ok q').
Proof.
  unfold transformQuery. intros H.
  apply bind_ok_inv in H as [l1 [q' [l2 [Hrun [Hret ->]]]]].
  inversion Hret; subst. exists q'. now rewrite app_nil_r.
Qed.

Lemma transformQuery_delete g q log r :
  transformQuery g (DeleteQuery q) = (log, Ok r) ->
  exists q', r = DeleteQuery q'
             /\ transformDeleteQuery g (transformSelectQuery g (depthRoot (DeleteQuery q)))
                                     [ODeleteQuery q] q = (log, Ok q').
Proof.
  unfold transformQuery. intros H.
  apply bind_ok_inv in H as [l1 [q' [l2 [Hrun [Hret ->]]]]].
  inversion Hret; subst. exists q'. now rewrite app_nil_r.
Qed.

(** *** Projection and returning lists *)

Section ProjectionFacts.

Variable g : FullKyselyAccessControlGuard.

Lemma anyError_holds e : anyError e.
Proof. exact I. Qed.

(** The loop of [_transformSelections] accepts a list only if every item
    is an authorized column reference, and returns the items the guard
    did not answer Omit for, in their order. *)
Lemma Post_transformSelectionsLoop selections tableNode scoped statementType :
  Post (fun selections' =>
          Forall (authorizedProjection g tableNode scoped statementType) selections
          /\ selections'
             = filter (keptInProjection g tableNode scoped statementType) selections)
       anyError
       (transformSelectionsLoop g selections tableNode scoped statementType).
Proof.
  induction selections as [|s rest IH]; simpl.
  - apply Post_ret. split; [constructor|reflexivity].
  - destruct (selection s) as [r| |e alias] eqn:Hs; [|exact I|exact I].
    destruct (ref_column r) as [column|] eqn:Hc; [|exact I].
    eapply Post_bind
      with (P := fun t => (if scoped then ref_table r else Some tableNode) = Some t).
    { destruct scoped; [destruct (ref_table r); [now apply Post_ret|exact I]|].
      now apply Post_ret. }
    intros t Ht.
    eapply Post_bind; [apply Post_callColumnGuard|]. intros guardResult ->.
    eapply Post_bind;
      [apply Post_throwIfDenyWithReason with (E := anyError); intros; exact I|].
    intros u Hallowed. cbv beta in Hallowed. clear u.
    eapply Post_bind; [exact IH|]. intros rest' [Hrest ->].
    assert (Hanswer :
              projectionAnswer g tableNode scoped statementType s
              = Some (guard_column g t column statementType ColumnInSelectOrReturning)).
    { unfold projectionAnswer. now rewrite Hs, Hc, Ht. }
    assert (Hhead : authorizedProjection g tableNode scoped statementType s).
    { eexists. split; [exact Hanswer|exact Hallowed]. }
    assert (Hkept :
              keptInProjection g tableNode scoped statementType s
              = negb (isOmit (guard_column g t column statementType
                                           ColumnInSelectOrReturning))).
    { unfold keptInProjection. rewrite Hanswer. now destruct (guard_column _ _ _ _ _). }
    cbn [filter]. rewrite Hkept.
    destruct (guard_column g t column statementType ColumnInSelectOrReturning);
      apply Post_ret; (split; [now constructor|reflexivity]).
Qed.

Lemma Post__transformSelections nodeStack selections tableNode scoped statementType :
  underSecondarySource nodeStack = false ->
  Post (fun selections' =>
          Forall (authorizedProjection g tableNode scoped statementType) selections
          /\ selections'
             = filter (keptInProjection g tableNode scoped statementType) selections)
       anyError
       (_transformSelections g nodeStack selections tableNode scoped statementType).
Proof.
  unfold underSecondarySource, _transformSelections. intros ->.
  apply Post_transformSelectionsLoop.
Qed.

Lemma Post_visitSelections_any nodeStack selections :
  Post (eq selections) anyError
       (transformOptional (transformNodeList (visitSelection g nodeStack)) selections).
Proof.
  apply Post_transformOptional_id. intros l _.
  apply Post_transformNodeList_id. intros x _.
  apply Post_visitSelection; intros; exact I.
Qed.

Lemma Post_super_transformSelectQuery_selections visit nodeStack node :
  Post (fun q' => sq_selections q' = sq_selections node) anyError
       (super_transformSelectQuery g visit nodeStack node).
Proof.
  unfold super_transformSelectQuery.
  apply Post_bind_True; [apply Post_trivial|intros from'].
  eapply Post_bind; [apply Post_visitSelections_any|]. intros selections' <-.
  do 2 (apply Post_bind_True; [apply Post_trivial|intros ?]).
  now apply Post_ret.
Qed.

Lemma Post_transformSelectQueryBody_selections visit nodeStack node :
  sq_from node <> None ->
  underSecondarySource nodeStack = false ->
  Post (fun q' =>
          exists tableNode selections,
            sq_from node = Some [TableE tableNode]
            /\ sq_selections node = Some selections
            /\ Forall (authorizedProjection g tableNode (selectHasJoin node) Select)
                      selections
            /\ sq_selections q'
               = Some (filter (keptInProjection g tableNode (selectHasJoin node) Select)
                              selections))
       anyError (transformSelectQueryBody g visit nodeStack node).
Proof.
  intros Hfrom Htop. unfold transformSelectQueryBody.
  destruct (sq_from node) as [froms|]; [|now elim Hfrom].
  eapply Post_bind; [apply Post_invariant; exact I|].
  intros u Hlen. cbv beta in Hlen. clear u.
  destruct froms as [|[tableNode|sub alias] [|]]; try discriminate Hlen;
    cbn [nth_error]; [|exact I].
  destruct (sq_selections node) as [selections|]; [|exact I].
  apply Post_bind_True; [apply Post_trivial|intros guardResult].
  apply Post_bind_True; [apply Post_trivial|intros _].
  eapply Post_bind; [now apply Post__transformSelections|].
  intros selections' [Hall ->].
  apply Post_bind_True; [apply Post_trivial|intros newWhere].
  eapply Post_weaken;
    [apply Post_super_transformSelectQuery_selections| |auto].
  intros q' Hq'. cbn [sq_selections] in Hq'.
  exists tableNode, selections. now rewrite Hq'.
Qed.

End ProjectionFacts.

(** For every top-level select over a source that is rewritten, the
    source is a single table, every projected item is a column reference
    (qualified with its table when the select has joins) that the column
    guard did not deny, and the rewritten projection is the original one
    without the items the guard answered Omit for. *)
Theorem select_projection_is_filtered g q log r :
  sq_from q <> None ->
  transformQuery g (SelectQuery q) = (log, Ok r) ->
  exists q' tableNode selections,
    r = SelectQuery q'
    /\ sq_from q = Some [TableE tableNode]
    /\ sq_selections q = Some selections
    /\ Forall (authorizedProjection g tableNode (selectHasJoin q) Select) selections
    /\ sq_selections q'
       = Some (filter (keptInProjection g tableNode (selectHasJoin q) Select)
                      selections).
Proof.
  intros Hfrom Hrun.
  apply transformQuery_select in Hrun as [q' [-> Hrun]].
  pose proof (Post_ok _ _ _ _ _
                (Post_transformSelectQueryBody_selections
                   g _ (push [] (OSelectQuery q)) q Hfrom eq_refl)
                Hrun) as [tableNode [selections H]].
  now exists q', tableNode, selections.
Qed.

(** The repository's test: [last_name] is omitted from the projection. *)
Lemma select_projection_is_filtered_witness :
  exists q' tableNode selections,
    SelectQuery
      (mkSelectQueryNode (Some [TableE Examples.person])
                         (Some [Examples.sel (Examples.col Examples.person "first_name")])
                         None None)
    = SelectQuery q'
    /\ sq_from Examples.selectNames = Some [TableE tableNode]
    /\ sq_selections Examples.selectNames = Some selections
    /\ Forall (authorizedProjection Examples.omitLastNameGuard tableNode
                  (selectHasJoin Examples.selectNames) Select) selections
    /\ sq_selections q'
       = Some (filter (keptInProjection Examples.omitLastNameGuard tableNode
                         (selectHasJoin Examples.selectNames) Select) selections).
Proof.
  apply (select_projection_is_filtered Examples.omitLastNameGuard Examples.selectNames
           [TableGuardCalled Examples.person Select TableTopLevel;
            ColumnGuardCalled Examples.person "first_name" Select
                              ColumnInSelectOrReturning;
            ColumnGuardCalled Examples.person "last_name" Select
                              ColumnInSelectOrReturning]).
  - discriminate.
  - reflexivity.
Defined.

(** A top-level select over a source is never accepted when one of its
    projected items is not a column reference: a select-all, a [table.*],
    or an aliased expression. *)
Theorem select_all_is_never_accepted g q selections s log r :
  sq_from q <> None ->
  sq_selections q = Some selections ->
  In s selections ->
  (forall t c, selection s <> SelReference (mkReferenceNode t (ColumnNode c))) ->
  transformQuery g (SelectQuery q) <> (log, Ok r).
Proof.
  intros Hfrom Hsel Hin Hshape Hrun.
  apply transformQuery_select in Hrun as [q' [-> Hrun]].
  pose proof (Post_ok _ _ _ _ _
                (Post_transformSelectQueryBody_selections
                   g _ (push [] (OSelectQuery q)) q Hfrom eq_refl)
                Hrun) as [tableNode [selections' [_ [Hsel' [Hall _]]]]].
  rewrite Hsel in Hsel'. injection Hsel' as <-.
  pose proof (proj1 (Forall_forall _ _) Hall s Hin) as [answer [Hanswer _]].
  unfold projectionAnswer in Hanswer.
  destruct (selection s) as [[t [c|]]| |e alias] eqn:Hs; try discriminate.
  exact (Hshape t c eq_refl).
Qed.

Lemma select_all_is_never_accepted_witness :
  ~ exists log r,
      transformQuery Examples.benGuard (SelectQuery Examples.selectAllFromPerson)
      = (log, Ok r).
Proof.
  intros [log [r Hrun]]. revert Hrun.
  apply (select_all_is_never_accepted Examples.benGuard Examples.selectAllFromPerson
           [createSelectAll] createSelectAll).
  - discriminate.
  - reflexivity.
  - now left.
  - discriminate.
Defined.

Section ReturningFacts.

Variable g : FullKyselyAccessControlGuard.

Lemma Post_transformReturning nodeStack parentNode statementType tableNode node :
  getParentNode nodeStack = Some parentNode ->
  returningOwner parentNode = Some (statementType, tableNode) ->
  underSecondarySource nodeStack = false ->
  Post (fun node' =>
          Forall (authorizedProjection g tableNode false statementType)
                 (ret_selections node)
          /\ ret_selections node'
             = filter (keptInProjection g tableNode false statementType)
                      (ret_selections node))
       anyError (transformReturning g nodeStack node).
Proof.
  intros Hparent Howner Htop. unfold transformReturning. rewrite Hparent.
  assert (Hrest :
            Post (fun node' =>
                    Forall (authorizedProjection g tableNode false statementType)
                           (ret_selections node)
                    /\ ret_selections node'
                       = filter (keptInProjection g tableNode false statementType)
                                (ret_selections node))
                 anyError
                 (transformedSelections <-
                    _transformSelections g nodeStack (ret_selections node) tableNode
                                         false statementType ;;
                  super_transformReturning g nodeStack
                                           (mkReturningNode transformedSelections))).
  { eapply Post_bind; [now apply Post__transformSelections|].
    intros selections' [Hall ->].
    eapply Post_weaken;
      [apply Post_super_transformReturning with (E := anyError); intros; exact I| |auto].
    intros node' <-. now split. }
  destruct parentNode as [q|q|q|q| | | | | | | | | | | |]; simpl in Howner;
    try discriminate; rewrite bind_ret_l.
  - injection Howner as <- <-. exact Hrest.
  - destruct (upd_table q) as [t|sub alias]; [|discriminate].
    injection Howner as <- <-. exact Hrest.
  - destruct (del_from q) as [|[t|sub alias] froms]; try discriminate.
    injection Howner as <- <-. exact Hrest.
Qed.

End ReturningFacts.

(** For every returning clause of an insert, update or delete that is
    rewritten, every item is a column reference the column guard did not
    deny when asked for the owning statement's type and table with the
    projection/returning usage, and the rewritten clause is the original
    one without the items the guard answered Omit for. *)
Theorem returning_is_filtered g nodeStack parentNode statementType tableNode
        node log node' :
  getParentNode nodeStack = Some parentNode ->
  returningOwner parentNode = Some (statementType, tableNode) ->
  underSecondarySource nodeStack = false ->
  transformReturning g nodeStack node = (log, Ok node') ->
  Forall (authorizedProjection g tableNode false statementType) (ret_selections node)
  /\ ret_selections node'
     = filter (keptInProjection g tableNode false statementType) (ret_selections node).
Proof.
  intros Hparent Howner Htop Hrun.
  exact (Post_ok _ _ _ _ _
           (Post_transformReturning g nodeStack parentNode statementType tableNode
                                    node Hparent Howner Htop) Hrun).
Qed.

(** The repository's test: [last_name] is omitted from the returning
    clause of an insert. *)
Lemma returning_is_filtered_witness :
  Forall (authorizedProjection Examples.omitLastNameGuard Examples.person false Insert)
         [Examples.sel (Examples.col Examples.person "first_name");
          Examples.sel (Examples.col Examples.person "last_name")]
  /\ ret_selections
       (mkReturningNode [Examples.sel (Examples.col Examples.person "first_name")])
     = filter (keptInProjection Examples.omitLastNameGuard Examples.person false Insert)
              [Examples.sel (Examples.col Examples.person "first_name");
               Examples.sel (Examples.col Examples.person "last_name")].
Proof.
  apply (returning_is_filtered Examples.omitLastNameGuard
           [OInsertQuery Examples.insertReturningNames;
            OReturning (mkReturningNode
                          [Examples.sel (Examples.col Examples.person "first_name");
                           Examples.sel (Examples.col Examples.person "last_name")])]
           (OInsertQuery Examples.insertReturningNames) Insert Examples.person
           (mkReturningNode
              [Examples.sel (Examples.col Examples.person "first_name");
               Examples.sel (Examples.col Examples.person "last_name")])
           [ColumnGuardCalled Examples.person "first_name" Insert
                              ColumnInSelectOrReturning;
            ColumnGuardCalled Examples.person "last_name" Insert
                              ColumnInSelectOrReturning]);
    reflexivity.
Defined.

(** *** The set clause of an update *)

Section UpdateFacts.

Variable g : FullKyselyAccessControlGuard.

Lemma Post_checkUpdateColumns tableNode updates :
  Post (fun _ =>
          Forall (fun u => guard_column g tableNode (cu_column u) Update
                                        ColumnInUpdateSet = CAllow) updates)
       anyError (checkUpdateColumns g tableNode updates).
Proof.
  induction updates as [|u rest IH]; simpl; [apply Post_ret; constructor|].
  eapply Post_bind; [apply Post_callColumnGuard|]. intros guardResult ->.
  eapply Post_bind;
    [apply Post_throwIfDenyWithReason with (E := anyError); intros; exact I|].
  intros x Hallowed. cbv beta in Hallowed. clear x.
  destruct (guard_column g tableNode (cu_column u) Update ColumnInUpdateSet)
    eqn:Hanswer; try discriminate Hallowed; [|exact I].
  eapply Post_weaken; [exact IH| |auto].
  intros x Hrest. cbv beta in Hrest. now constructor.
Qed.

Lemma Post_super_transformUpdateQuery_updates visit nodeStack node :
  Post (fun q' => upd_updates q' = upd_updates node) anyError
       (super_transformUpdateQuery g visit nodeStack node).
Proof.
  unfold super_transformUpdateQuery.
  do 4 (apply Post_bind_True; [apply Post_trivial|intros ?]).
  eapply Post_bind.
  { apply Post_transformOptional_id. intros l _.
    apply Post_transformNodeList_id. intros u _. unfold visitColumnUpdate.
    eapply Post_bind;
      [apply Post_visitExpression with (E := anyError); intros; exact I|].
    intros value' <-. apply Post_ret. now destruct u. }
  intros updates' <-.
  apply Post_bind_True; [apply Post_trivial|intros ?].
  now apply Post_ret.
Qed.

Lemma Post_transformUpdateQuery_updates visit nodeStack node tableNode updates :
  upd_table node = TableE tableNode ->
  upd_updates node = Some updates ->
  Post (fun q' =>
          Forall (fun u => guard_column g tableNode (cu_column u) Update
                                        ColumnInUpdateSet = CAllow) updates
          /\ upd_updates q' = Some updates)
       anyError (transformUpdateQuery g visit nodeStack node).
Proof.
  intros Htable Hupdates. unfold transformUpdateQuery. rewrite Htable, Hupdates.
  apply Post_bind_True; [apply Post_trivial|intros guardResult].
  apply Post_bind_True; [apply Post_trivial|intros _].
  eapply Post_bind; [apply Post_checkUpdateColumns|].
  intros x Hall. cbv beta in Hall. clear x.
  apply Post_bind_True; [apply Post_trivial|intros newWhere].
  eapply Post_weaken; [apply Post_super_transformUpdateQuery_updates| |auto].
  intros q' Hq'. now split.
Qed.

End UpdateFacts.

(** For every update that is rewritten, the column guard answered plain
    Allow for every column of the set clause, asked with statement type
    Update and the set-clause usage (Deny and Omit both stop the
    transformation), and the set clause is returned unchanged. *)
Theorem update_set_columns_are_all_allowed g visit nodeStack node tableNode updates
        log node' :
  upd_table node = TableE tableNode ->
  upd_updates node = Some updates ->
  transformUpdateQuery g visit nodeStack node = (log, Ok node') ->
  Forall (fun u => guard_column g tableNode (cu_column u) Update ColumnInUpdateSet
                   = CAllow) updates
  /\ upd_updates node' = Some updates.
Proof.
  intros Htable Hupdates Hrun.
  exact (Post_ok _ _ _ _ _
           (Post_transformUpdateQuery_updates g visit nodeStack node tableNode updates
                                              Htable Hupdates) Hrun).
Qed.

Lemma update_set_columns_are_all_allowed_witness :
  Forall (fun u => guard_column Examples.benGuard Examples.person (cu_column u)
                                Update ColumnInUpdateSet = CAllow)
         [mkColumnUpdateNode "first_name" (Examples.str "Jane")]
  /\ upd_updates
       (mkUpdateQueryNode (TableE Examples.person) None None
                          (Some (mkWhereNode (Examples.firstNameIs "Ben")))
                          (Some [mkColumnUpdateNode "first_name" (Examples.str "Jane")])
                          None)
     = Some [mkColumnUpdateNode "first_name" (Examples.str "Jane")].
Proof.
  apply (update_set_columns_are_all_allowed Examples.benGuard
           (transformSelectQuery Examples.benGuard 0)
           [OUpdateQuery Examples.updateWithoutFilter] Examples.updateWithoutFilter
           Examples.person _
           [TableGuardCalled Examples.person Update TableTopLevel;
            ColumnGuardCalled Examples.person "first_name" Update ColumnInUpdateSet;
            ColumnGuardCalled Examples.person "first_name" Select ColumnInWhereOrJoin]);
    reflexivity.
Defined.

(** An update whose set clause holds a column the guard answers Omit for
    is never accepted. *)
Theorem update_set_omit_is_rejected g visit nodeStack node tableNode updates u log node' :
  upd_table node = TableE tableNode ->
  upd_updates node = Some updates ->
  In u updates ->
  guard_column g tableNode (cu_column u) Update ColumnInUpdateSet = COmit ->
  transformUpdateQuery g visit nodeStack node <> (log, Ok node').
Proof.
  intros Htable Hupdates Hin Homit Hrun.
  pose proof (Post_ok _ _ _ _ _
                (Post_transformUpdateQuery_updates g visit nodeStack node tableNode
                                                   updates Htable Hupdates) Hrun)
    as [Hall _].
  pose proof (proj1 (Forall_forall _ _) Hall u Hin) as Hallow.
  cbv beta in Hallow. rewrite Homit in Hallow. discriminate.
Qed.

Lemma update_set_omit_is_rejected_witness :
  ~ exists log node',
      transformUpdateQuery Examples.omitLastNameGuard
        (transformSelectQuery Examples.omitLastNameGuard 0)
        [OUpdateQuery
           (mkUpdateQueryNode (TableE Examples.person) None None None
                              (Some [mkColumnUpdateNode "last_name" (Examples.str "Doe")])
                              None)]
        (mkUpdateQueryNode (TableE Examples.person) None None None
                           (Some [mkColumnUpdateNode "last_name" (Examples.str "Doe")])
                           None)
      = (log, Ok node').
Proof.
  intros [log [node' Hrun]]. revert Hrun.
  apply (update_set_omit_is_rejected Examples.omitLastNameGuard _ _ _ Examples.person
           [mkColumnUpdateNode "last_name" (Examples.str "Doe")]
           (mkColumnUpdateNode "last_name" (Examples.str "Doe")));
    try reflexivity.
  now left.
Defined.

(** *** Delete statements *)

Lemma Post_transformDeleteQuery_from_where g visit s q0 node :
  Post (fun q' =>
          exists tableNode,
            del_from node = [TableE tableNode]
            /\ del_from q' = del_from node
            /\ del_where q' = del_where node)
       anyError (transformDeleteQuery g visit (push s (ODeleteQuery q0)) node).
Proof.
  unfold transformDeleteQuery.
  eapply Post_bind; [apply Post_invariant; exact I|].
  intros u Hlen. cbv beta in Hlen. clear u.
  destruct (del_from node) as [|[tableNode|sub alias] [|]] eqn:Hfrom;
    try discriminate Hlen; cbn [nth_error]; [|exact I].
  apply Post_bind_True; [apply Post_trivial|intros guardResult].
  apply Post_bind_True; [apply Post_trivial|intros _].
  unfold super_transformDeleteQuery. rewrite Hfrom.
  unfold visitFrom, transformFrom. rewrite getParentNode_push2.
  eapply Post_bind with (P := eq [TableE tableNode]); [reflexivity|].
  intros from' <-.
  do 2 (apply Post_bind_True; [apply Post_trivial|intros ?]).
  eapply Post_bind.
  { apply Post_transformOptional_id. intros w _.
    apply Post_visitWhere with (E := anyError); intros; exact I. }
  intros where' <-.
  apply Post_bind_True; [apply Post_trivial|intros ?].
  apply Post_ret. now exists tableNode.
Qed.

(** For every delete that is rewritten, its source is a single table and
    both the source and the filter clause are returned unchanged,
    whatever the table guard answered: a predicate returned with Allow is
    not applied to the rows a delete removes. *)
Theorem delete_source_and_filter_are_untouched g q log r :
  transformQuery g (DeleteQuery q) = (log, Ok r) ->
  exists q' tableNode,
    r = DeleteQuery q'
    /\ del_from q = [TableE tableNode]
    /\ del_from q' = del_from q
    /\ del_where q' = del_where q.
Proof.
  intros Hrun.
  apply transformQuery_delete in Hrun as [q' [-> Hrun]].
  pose proof (Post_ok _ _ _ _ _
                (Post_transformDeleteQuery_from_where g _ [] q q) Hrun)
    as [tableNode H].
  now exists q', tableNode.
Qed.

(** Under the guard that puts [first_name = 'Ben'] on [person], a delete
    keeps its own filter only. *)
Lemma delete_source_and_filter_are_untouched_witness :
  exists q' tableNode,
    DeleteQuery Examples.deleteDoe = DeleteQuery q'
    /\ del_from Examples.deleteDoe = [TableE tableNode]
    /\ del_from q' = del_from Examples.deleteDoe
    /\ del_where q' = del_where Examples.deleteDoe.
Proof.
  apply (delete_source_and_filter_are_untouched Examples.benGuard Examples.deleteDoe
           [TableGuardCalled Examples.person Delete TableTopLevel;
            ColumnGuardCalled Examples.person "last_name" Select ColumnInWhereOrJoin]).
  reflexivity.
Defined.

(** *** The column list of an insert *)

Lemma Post_transformInsertColumns_authorized g tableNode columns :
  Post (fun columns' =>
          Forall (fun column =>
                    denial (guard_column g tableNode column Insert ColumnInInsert)
                    = None) columns
          /\ columns'
             = filter (fun column =>
                         negb (isOmit (guard_column g tableNode column
                                                    Insert ColumnInInsert)))
                      columns)
       anyError (transformInsertColumns g tableNode columns).
Proof.
  induction columns as [|column rest IH]; simpl.
  - apply Post_ret. split; [constructor|reflexivity].
  - eapply Post_bind; [apply Post_callColumnGuard|]. intros guardResult ->.
    eapply Post_bind;
      [apply Post_throwIfDenyWithReason with (E := anyError); intros; exact I|].
    intros u Hallowed. cbv beta in Hallowed. clear u.
    eapply Post_bind; [exact IH|]. intros rest' [Hrest ->].
    assert (Hall : Forall (fun column =>
                             denial (guard_column g tableNode column Insert
                                                  ColumnInInsert) = None)
                          (column :: rest)) by now constructor.
    destruct (guard_column g tableNode column Insert ColumnInInsert);
      apply Post_ret; (split; [exact Hall|reflexivity]).
Qed.

(** For every insert with a column list that is rewritten, the column
    guard denied none of the listed columns, asked with statement type
    Insert and the insert usage, and the rewritten column list is the
    original one without the columns the guard answered Omit for; the
    target table is unchanged. *)
Theorem insert_columns_are_filtered g nodeStack node columns log node' :
  ins_columns node = Some columns ->
  transformInsertQuery g nodeStack node = (log, Ok node') ->
  Forall (fun column =>
            denial (guard_column g (ins_into node) column Insert ColumnInInsert) = None)
         columns
  /\ ins_columns node'
     = Some (filter (fun column =>
                       negb (isOmit (guard_column g (ins_into node) column
                                                  Insert ColumnInInsert)))
                    columns)
  /\ ins_into node' = ins_into node.
Proof.
  intros Hcolumns Hrun.
  refine (Post_ok
            (fun node' =>
               Forall (fun column =>
                         denial (guard_column g (ins_into node) column Insert
                                              ColumnInInsert) = None) columns
               /\ ins_columns node'
                  = Some (filter (fun column =>
                                    negb (isOmit (guard_column g (ins_into node) column
                                                               Insert ColumnInInsert)))
                                 columns)
               /\ ins_into node' = ins_into node)
            anyError _ _ _ _ Hrun).
  unfold transformInsertQuery. rewrite Hcolumns.
  apply Post_bind_True; [apply Post_trivial|intros guardResult].
  apply Post_bind_True; [apply Post_trivial|intros _].
  eapply Post_bind; [apply Post_transformInsertColumns_authorized|].
  intros columns' [Hall ->].
  unfold super_transformInsertQuery.
  do 2 (apply Post_bind_True; [apply Post_trivial|intros ?]).
  apply Post_ret. now repeat split.
Qed.

Lemma insert_columns_are_filtered_witness :
  Forall (fun column =>
            denial (guard_column Examples.omitLastNameGuard
                                 (ins_into Examples.insertJohnDoe) column
                                 Insert ColumnInInsert) = None)
         ["first_name"; "last_name"]
  /\ ins_columns
       (mkInsertQueryNode Examples.person (Some ["first_name"])
                          (Some [[Examples.str "John"; Examples.str "Doe"]]) None)
     = Some (filter (fun column =>
                       negb (isOmit (guard_column Examples.omitLastNameGuard
                                                  (ins_into Examples.insertJohnDoe)
                                                  column Insert ColumnInInsert)))
                    ["first_name"; "last_name"])
  /\ ins_into
       (mkInsertQueryNode Examples.person (Some ["first_name"])
                          (Some [[Examples.str "John"; Examples.str "Doe"]]) None)
     = ins_into Examples.insertJohnDoe.
Proof.
  apply (insert_columns_are_filtered Examples.omitLastNameGuard
           [OInsertQuery Examples.insertJohnDoe] Examples.insertJohnDoe
           ["first_name"; "last_name"]
           [TableGuardCalled Examples.person Insert TableTopLevel;
            ColumnGuardCalled Examples.person "first_name" Insert ColumnInInsert;
            ColumnGuardCalled Examples.person "last_name" Insert ColumnInInsert]);
    reflexivity.
Defined.

(** *** Column references outside filters and joins *)

Lemma isAChildOf_push is_ nodeStack n :
  isAChildOf is_ (push nodeStack n) = isAChildOf is_ nodeStack || is_ n.
Proof.
  unfold isAChildOf, push. rewrite existsb_app. simpl. now rewrite orb_false_r.
Qed.

(** An expression made of column references, values, binary operations,
    conjunctions, disjunctions, parentheses and raw text (no sub-select),
    with neither a where clause nor a join above it, is copied and no
    guard is asked about the columns it mentions: the column references
    written in the values of an insert or in the values assigned by an
    update are not subject to column authorization. *)
Theorem expression_outside_filter_is_not_guarded g e : forall nodeStack,
  isAChildOf WhereNode_is nodeStack = false ->
  isAChildOf JoinNode_is nodeStack = false ->
  transformExpression g nodeStack e = ([], Ok e).
Proof.
  assert (Hvisit : forall nodeStack child,
             isAChildOf WhereNode_is nodeStack = false ->
             isAChildOf JoinNode_is nodeStack = false ->
             isAChildOf WhereNode_is (push nodeStack (OExpression child)) = false
             /\ isAChildOf JoinNode_is (push nodeStack (OExpression child)) = false).
  { intros nodeStack child Hw Hj. rewrite !isAChildOf_push, Hw, Hj. now split. }
  induction e as [r|v|l IHl op r IHr|l IHl r IHr|l IHl r IHr|e1 IH|sql];
    intros nodeStack Hw Hj; simpl;
    try (destruct (Hvisit nodeStack l Hw Hj) as [Hwl Hjl];
         destruct (Hvisit nodeStack r Hw Hj) as [Hwr Hjr];
         rewrite (IHl _ Hwl Hjl), (IHr _ Hwr Hjr)); try reflexivity.
  - unfold transformReference. now rewrite Hw, Hj.
  - destruct (Hvisit nodeStack e1 Hw Hj) as [Hw1 Hj1]. now rewrite (IH _ Hw1 Hj1).
Qed.

(** The value assigned in the set clause of a top-level update mentions
    [ssn]; under a guard that denies every column, it is copied without a
    guard call all the same. *)
Lemma expression_outside_filter_is_not_guarded_witness :
  transformExpression
    (fullGuard (mkPartialGuard None (Some (fun _ _ _ _ => CDeny))))
    [OUpdateQuery Examples.updateWithoutFilter;
     OColumnUpdate (mkColumnUpdateNode "first_name"
                      (ReferenceExpr (Examples.col Examples.person "ssn")));
     OExpression (ReferenceExpr (Examples.col Examples.person "ssn"))]
    (ReferenceExpr (Examples.col Examples.person "ssn"))
  = ([], Ok (ReferenceExpr (Examples.col Examples.person "ssn"))).
Proof.
  apply expression_outside_filter_is_not_guarded; reflexivity.
Defined.

(** *** Denials of tables *)

(** A joined table is always authorized as part of a Select, whatever
    statement carries the join: the first guard call of [transformJoin]
    on a table is the table guard with statement type Select and the
    in-join usage, and a denial stops there with the message
    "JOIN denied on table <name>", followed by the reason if one was
    given. *)
Theorem join_is_authorized_as_select g visit nodeStack joinType tableNode on :
  (exists rest,
      events (transformJoin g visit nodeStack (mkJoinNode joinType (TableE tableNode) on))
      = TableGuardCalled tableNode Select TableInJoin :: rest)
  /\ (guard_table g tableNode Select TableInJoin = TDeny ->
      transformJoin g visit nodeStack (mkJoinNode joinType (TableE tableNode) on)
      = ([TableGuardCalled tableNode Select TableInJoin],
         Err (Denied ("JOIN denied on table " ++ qualifiedTableName tableNode))))
  /\ (forall reason,
         guard_table g tableNode Select TableInJoin = TDenyReason reason ->
         transformJoin g visit nodeStack (mkJoinNode joinType (TableE tableNode) on)
         = ([TableGuardCalled tableNode Select TableInJoin],
            Err (Denied ("JOIN denied on table " ++ qualifiedTableName tableNode
                           ++ ": " ++ reason)))).
Proof.
  unfold transformJoin. cbn [join_table]. split; [|split].
  - rewrite events_bind. cbn [outcome callTableGuard snd events fst].
    eexists. reflexivity.
  - intros Hdeny. apply denied_first. rewrite Hdeny. reflexivity.
  - intros reason Hdeny. apply denied_first. rewrite Hdeny.
    reflexivity.
Qed.

(** A denied primary table stops the transformation with the message
    "<OPERATION> denied on table <name>", the name qualified by the
    schema when the table has one, followed by ": <reason>" when the
    guard gave a reason. *)
Theorem table_denial_message g node statementType tableNode :
  primaryTable node = Some (statementType, tableNode) ->
  (guard_table g tableNode statementType TableTopLevel = TDeny ->
   transformQuery g node
   = ([TableGuardCalled tableNode statementType TableTopLevel],
      Err (Denied (operationName statementType ++ " denied on table "
                     ++ qualifiedTableName tableNode))))
  /\ (forall reason,
         guard_table g tableNode statementType TableTopLevel = TDenyReason reason ->
         transformQuery g node
         = ([TableGuardCalled tableNode statementType TableTopLevel],
            Err (Denied (operationName statementType ++ " denied on table "
                           ++ qualifiedTableName tableNode ++ ": " ++ reason)))).
Proof.
  intros Hprimary.
  destruct node as [q|q|q|q]; simpl in Hprimary.
  - destruct q as [from selections joins where_clause].
    cbn [sq_from sq_selections] in Hprimary.
    destruct from as [[|[t|sub alias] [|]]|]; try discriminate.
    destruct selections as [selections|]; try discriminate.
    injection Hprimary as <- <-.
    unfold transformQuery.
    cbn [depthRoot depthSelect transformSelectQuery].
    unfold transformSelectQueryBody.
    cbn [sq_from sq_selections length Nat.eqb nth_error].
    unfold invariant. rewrite bind_ret_l.
    split; [intros Hdeny|intros reason Hdeny];
      (erewrite bind_of_err; [reflexivity|]);
      apply denied_first; rewrite Hdeny; reflexivity.
  - injection Hprimary as <- <-.
    unfold transformQuery, transformInsertQuery.
    split; [intros Hdeny|intros reason Hdeny];
      (erewrite bind_of_err; [reflexivity|]);
      apply denied_first; rewrite Hdeny; reflexivity.
  - destruct (upd_table q) as [t|sub alias] eqn:Htable; try discriminate.
    injection Hprimary as <- <-.
    unfold transformQuery, transformUpdateQuery. rewrite Htable.
    split; [intros Hdeny|intros reason Hdeny];
      (erewrite bind_of_err; [reflexivity|]);
      apply denied_first; rewrite Hdeny; reflexivity.
  - destruct (del_from q) as [|[t|sub alias] [|]] eqn:Hfrom; try discriminate.
    injection Hprimary as <- <-.
    unfold transformQuery, transformDeleteQuery. rewrite Hfrom.
    cbn [length Nat.eqb nth_error].
    unfold invariant. rewrite bind_ret_l.
    split; [intros Hdeny|intros reason Hdeny];
      (erewrite bind_of_err; [reflexivity|]);
      apply denied_first; rewrite Hdeny; reflexivity.
Qed.

Lemma table_denial_message_witness :
  transformQuery Examples.denyWithReasonGuard (DeleteQuery Examples.deleteDoe)
  = ([TableGuardCalled Examples.person Delete TableTopLevel],
     Err (Denied "DELETE denied on table person: read only")).
Proof.
  exact (proj2 (table_denial_message Examples.denyWithReasonGuard
                  (DeleteQuery Examples.deleteDoe) Delete Examples.person eq_refl)
               "read only" eq_refl).
Defined.

(** *** Secondary sources of update and delete *)

Lemma Forall2_compose {A} (Q1 Q2 R : A -> A -> Prop) :
  (forall a b c, Q1 a b -> Q2 b c -> R a c) ->
  forall l l1, Forall2 Q1 l l1 -> forall l2, Forall2 Q2 l1 l2 -> Forall2 R l l2.
Proof.
  intros H l l1 H1.
  induction H1 as [|a b l l1 Hab _ IH]; intros l2 H2; inversion H2; subst;
    constructor; eauto.
Qed.

Section SecondarySourceFacts.

Variable g : FullKyselyAccessControlGuard.

Lemma Post_guardSecondarySource statementType t :
  Post (guardedSource g statementType t) anyError
       (guardSecondarySource g statementType t).
Proof.
  unfold guardedSource.
  destruct t as [tableNode|sub alias]; cbn [guardSecondarySource];
    [|now apply Post_ret].
  eapply Post_bind; [apply Post_callTableGuard|]. intros r ->.
  eapply Post_bind;
    [apply Post_throwIfDenyWithReason with (E := anyError); intros; exact I|].
  intros u Hallowed. cbv beta in Hallowed. clear u.
  destruct (guard_table g tableNode statementType TableInJoin) as [|p| |reason];
    try discriminate Hallowed; now apply Post_ret.
Qed.

Lemma Post_visitTableExpr_source fuel nodeStack t :
  Post (visitedSource g t) anyError
       (visitTableExpr (transformSelectQuery g fuel) nodeStack t).
Proof.
  unfold visitedSource.
  destruct t as [tableNode|sub alias]; cbn [visitTableExpr];
    [now apply Post_ret|].
  eapply Post_bind with
    (P := fun q' =>
            forall tableNode,
              sub = selectAllFrom tableNode ->
              exists w,
                q' = mkSelectQueryNode (Some [TableE tableNode])
                                       (Some [createSelectAll]) None w
                /\ splicedWhere (guard_table g tableNode Select TableTopLevel)
                                None w).
  - unfold Post.
    destruct (outcome (transformSelectQuery g fuel _ sub)) as [q'|e] eqn:Hrun;
      [|exact I].
    intros tableNode ->.
    pose proof (Post_transformSelectQuery_selectAllFrom
                  g fuel
                  (push nodeStack (OTableExpr (AliasE (selectAllFrom tableNode) alias)))
                  tableNode) as H.
    unfold Post in H. rewrite Hrun in H. exact H.
  - intros q' Hq'. apply Post_ret. exists q'. split; [reflexivity|exact Hq'].
Qed.

Lemma secondarySource_steps statementType t t1 t' :
  guardedSource g statementType t t1 ->
  visitedSource g t1 t' ->
  secondarySourceRewritten g statementType t t'.
Proof.
  unfold guardedSource, visitedSource, secondarySourceRewritten.
  destruct t as [tableNode|sub alias].
  - destruct (guard_table g tableNode statementType TableInJoin);
      intros H1 H2; try contradiction; subst t1.
    + exact H2.
    + unfold rlsSubquery in H2. destruct H2 as [q' [-> Hq']].
      destruct (Hq' tableNode eq_refl) as [w [-> Hw]]. now exists w.
  - intros -> [q' [-> _]]. now exists q'.
Qed.

(** The two passes of [transformFrom] and [transformUsing]: the guard on
    each source, then the copying transformer on the result. *)
Lemma Post_guardedSources statementType fuel nodeStack sources :
  Post (Forall2 (secondarySourceRewritten g statementType) sources) anyError
       (newSources <- transformNodeList (guardSecondarySource g statementType) sources ;;
        transformNodeList (visitTableExpr (transformSelectQuery g fuel) nodeStack)
                          newSources).
Proof.
  eapply Post_bind.
  { apply Post_transformNodeList with (Q := guardedSource g statementType).
    intros t _. apply Post_guardSecondarySource. }
  intros newSources Hguarded.
  eapply Post_weaken;
    [apply Post_transformNodeList with (Q := visitedSource g);
     intros t _; apply Post_visitTableExpr_source| |auto].
  intros sources' Hvisited. cbv beta in Hvisited.
  exact (Forall2_compose _ _ _ (secondarySource_steps statementType)
                         _ _ Hguarded _ Hvisited).
Qed.

Lemma Post_transformUpdateQuery_from fuel s q0 node froms :
  upd_from node = Some froms ->
  Post (fun q' =>
          exists froms',
            upd_from q' = Some froms'
            /\ Forall2 (secondarySourceRewritten g Update) froms froms')
       anyError
       (transformUpdateQuery g (transformSelectQuery g fuel)
                             (push s (OUpdateQuery q0)) node).
Proof.
  intros Hfrom. unfold transformUpdateQuery.
  destruct (upd_table node) as [tableNode|sub alias]; [|exact I].
  do 4 (apply Post_bind_True; [apply Post_trivial|intros ?]).
  unfold super_transformUpdateQuery.
  cbn [upd_table upd_from upd_joins upd_where upd_updates upd_returning].
  apply Post_bind_True; [apply Post_trivial|intros table'].
  rewrite Hfrom.
  eapply Post_bind.
  { apply Post_transformOptional
      with (Q := fun froms0 froms' =>
                   Forall2 (secondarySourceRewritten g Update) froms0 froms').
    intros x Hx. unfold visitFrom, transformFrom. rewrite getParentNode_push2.
    apply Post_guardedSources. }
  intros from' Hfrom'. destruct from' as [froms'|]; [|contradiction].
  do 4 (apply Post_bind_True; [apply Post_trivial|intros ?]).
  apply Post_ret. now exists froms'.
Qed.

Lemma Post_transformDeleteQuery_using fuel s q0 node tables :
  del_using node = Some tables ->
  Post (fun q' =>
          exists tables',
            del_using q' = Some tables'
            /\ Forall2 (secondarySourceRewritten g Delete) tables tables')
       anyError
       (transformDeleteQuery g (transformSelectQuery g fuel)
                             (push s (ODeleteQuery q0)) node).
Proof.
  intros Husing. unfold transformDeleteQuery.
  apply Post_bind_True; [apply Post_trivial|intros _].
  destruct (nth_error (del_from node) 0) as [[tableNode|sub alias]|]; try exact I.
  do 2 (apply Post_bind_True; [apply Post_trivial|intros ?]).
  unfold super_transformDeleteQuery.
  apply Post_bind_True; [apply Post_trivial|intros from'].
  rewrite Husing.
  eapply Post_bind.
  { apply Post_transformOptional
      with (Q := fun tables0 tables' =>
                   Forall2 (secondarySourceRewritten g Delete) tables0 tables').
    intros x Hx. unfold visitUsing, transformUsing. rewrite getParentNode_push2.
    apply Post_guardedSources. }
  intros using' Husing'. destruct using' as [tables'|]; [|contradiction].
  do 3 (apply Post_bind_True; [apply Post_trivial|intros ?]).
  apply Post_ret. now exists tables'.
Qed.

End SecondarySourceFacts.

(** For every update with a from list that is rewritten, each source of
    the list was treated in turn: a named table is submitted to the table
    guard with statement type Update and the in-join usage; a denied
    table stops the update; a table allowed without predicate is kept; a
    table allowed with a predicate is replaced by [select * from t]
    aliased with the table's name and filtered as the table guard decides
    for a top-level Select on that table; a sub-select keeps its alias. *)
Theorem update_from_sources_are_guarded g q froms log r :
  upd_from q = Some froms ->
  transformQuery g (UpdateQuery q) = (log, Ok r) ->
  exists q' froms',
    r = UpdateQuery q'
    /\ upd_from q' = Some froms'
    /\ Forall2 (secondarySourceRewritten g Update) froms froms'.
Proof.
  intros Hfrom Hrun.
  apply transformQuery_update in Hrun as [q' [-> Hrun]].
  pose proof (Post_ok _ _ _ _ _
                (Post_transformUpdateQuery_from g _ [] q q froms Hfrom) Hrun)
    as [froms' H].
  now exists q', froms'.
Qed.

Lemma update_from_sources_are_guarded_witness :
  exists q' froms',
    UpdateQuery
      (mkUpdateQueryNode (TableE Examples.rsvp) (Some [Examples.personOfBen]) None
                         (Some (mkWhereNode Examples.rsvpOfPerson))
                         (Some [mkColumnUpdateNode "attended" (ValueNode (VBool true))])
                         None)
    = UpdateQuery q'
    /\ upd_from q' = Some froms'
    /\ Forall2 (secondarySourceRewritten Examples.benGuard Update)
               [TableE Examples.person] froms'.
Proof.
  apply (update_from_sources_are_guarded Examples.benGuard
           Examples.updateRsvpFromPerson [TableE Examples.person]
           [TableGuardCalled Examples.rsvp Update TableTopLevel;
            ColumnGuardCalled Examples.rsvp "attended" Update ColumnInUpdateSet;
            TableGuardCalled Examples.person Update TableInJoin;
            TableGuardCalled Examples.person Select TableTopLevel;
            ColumnGuardCalled Examples.person "first_name" Select ColumnInWhereOrJoin;
            ColumnGuardCalled Examples.rsvp "person_id" Select ColumnInWhereOrJoin;
            ColumnGuardCalled Examples.person "id" Select ColumnInWhereOrJoin]);
    reflexivity.
Defined.

(** The same for the using list of a delete, the table guard being asked
    with statement type Delete. *)
Theorem delete_using_sources_are_guarded g q tables log r :
  del_using q = Some tables ->
  transformQuery g (DeleteQuery q) = (log, Ok r) ->
  exists q' tables',
    r = DeleteQuery q'
    /\ del_using q' = Some tables'
    /\ Forall2 (secondarySourceRewritten g Delete) tables tables'.
Proof.
  intros Husing Hrun.
  apply transformQuery_delete in Hrun as [q' [-> Hrun]].
  pose proof (Post_ok _ _ _ _ _
                (Post_transformDeleteQuery_using g _ [] q q tables Husing) Hrun)
    as [tables' H].
  now exists q', tables'.
Qed.

Lemma delete_using_sources_are_guarded_witness :
  exists q' tables',
    DeleteQuery
      (mkDeleteQueryNode [TableE Examples.rsvp] (Some [Examples.personOfBen]) None
                         (Some (mkWhereNode Examples.rsvpOfPerson)) None)
    = DeleteQuery q'
    /\ del_using q' = Some tables'
    /\ Forall2 (secondarySourceRewritten Examples.benGuard Delete)
               [TableE Examples.person] tables'.
Proof.
  apply (delete_using_sources_are_guarded Examples.benGuard
           Examples.deleteRsvpUsingPerson [TableE Examples.person]
           [TableGuardCalled Examples.rsvp Delete TableTopLevel;
            TableGuardCalled Examples.person Delete TableInJoin;
            TableGuardCalled Examples.person Select TableTopLevel;
            ColumnGuardCalled Examples.person "first_name" Select ColumnInWhereOrJoin;
            ColumnGuardCalled Examples.rsvp "person_id" Select ColumnInWhereOrJoin;
            ColumnGuardCalled Examples.person "id" Select ColumnInWhereOrJoin]);
    reflexivity.
Defined.
(** *** Column references written without their table *)

Lemma findIndex_first {A} (p : A -> bool) l x l' :
  existsb p l = false -> p x = true ->
  findIndex p (l ++ x :: l') = Some (length l).
Proof.
  induction l as [|y l IH]; simpl; intros Hl Hx.
  - now rewrite Hx.
  - apply orb_false_iff in Hl as [Hy Hl]. now rewrite Hy, IH.
Qed.

Lemma existsb_rev_same {A} (p : A -> bool) l : existsb p (rev l) = existsb p l.
Proof.
  induction l as [|x l IH]; simpl; [reflexivity|].
  rewrite existsb_app, IH. simpl. rewrite orb_false_r. apply orb_comm.
Qed.

Lemma nth_error_second {A} (l : list A) a b l' :
  nth_error (l ++ a :: b :: l') (length l + 1) = Some b.
Proof.
  rewrite nth_error_app2 by lia.
  replace (length l + 1 - length l) with 1 by lia. reflexivity.
Qed.

(** A reference without table below a where clause is resolved against
    the node right above the innermost where clause of the stack. *)
Lemma resolveReferenceTable_unqualified s stmt w es column :
  isAChildOf WhereNode_is es = false ->
  resolveReferenceTable (s ++ stmt :: OWhere w :: es) (mkReferenceNode None column)
  = (hasJoins <- _topLevelHasMoreThanOneTable stmt ;;
     if hasJoins : bool
     then throw (Thrown "kysely-access-control: if joins are present, each column reference in where must specify the table")
     else _getTableNodeFromTopLevelQueryNode stmt).
Proof.
  intros Hes. unfold resolveReferenceTable. cbn [ref_table].
  assert (Hchild : isAChildOf WhereNode_is (s ++ stmt :: OWhere w :: es) = true).
  { unfold isAChildOf. rewrite existsb_app. cbn [existsb WhereNode_is].
    now rewrite !orb_true_r. }
  rewrite Hchild. cbn [negb].
  assert (Hrev : rev (s ++ stmt :: OWhere w :: es)
                 = rev es ++ OWhere w :: stmt :: rev s).
  { rewrite rev_app_distr. cbn [rev]. now rewrite <- !app_assoc. }
  rewrite Hrev.
  rewrite findIndex_first; [|now rewrite existsb_rev_same|reflexivity].
  rewrite length_rev. rewrite <- (length_rev es).
  now rewrite nth_error_second.
Qed.

(** A column written without its table in the filter of a select (at any
    depth of the filter expression, and of the statement in the stack):
    when the select has joins the reference is rejected, before any guard
    is asked; otherwise the column guard is asked about the column on the
    select's single source table, for a Select statement and the
    filter/join usage, and the reference is returned as written unless
    the guard denies. *)
Theorem unqualified_filter_column_is_resolved g s q w es c :
  isAChildOf WhereNode_is es = false ->
  (selectHasJoin q = true ->
   transformReference g (s ++ OSelectQuery q :: OWhere w :: es)
                      (mkReferenceNode None (ColumnNode c))
   = ([], Err (Thrown "kysely-access-control: if joins are present, each column reference in where must specify the table")))
  /\ (forall t,
         selectHasJoin q = false ->
         sq_from q = Some [TableE t] ->
         events (transformReference g (s ++ OSelectQuery q :: OWhere w :: es)
                                    (mkReferenceNode None (ColumnNode c)))
         = [ColumnGuardCalled t c Select ColumnInWhereOrJoin]
         /\ (denial (guard_column g t c Select ColumnInWhereOrJoin) = None ->
             outcome (transformReference g (s ++ OSelectQuery q :: OWhere w :: es)
                                         (mkReferenceNode None (ColumnNode c)))
             = Ok (mkReferenceNode None (ColumnNode c)))).
Proof.
  intros Hes.
  assert (Hchild : isAChildOf WhereNode_is (s ++ OSelectQuery q :: OWhere w :: es)
                   = true).
  { unfold isAChildOf. rewrite existsb_app. cbn [existsb WhereNode_is].
    now rewrite !orb_true_r. }
  unfold transformReference. rewrite Hchild. cbn [negb andb].
  rewrite (resolveReferenceTable_unqualified s (OSelectQuery q) w es (ColumnNode c) Hes).
  cbn [_topLevelHasMoreThanOneTable _getTableNodeFromTopLevelQueryNode ref_column].
  unfold selectHasJoin.
  split.
  - intros Hjoin. destruct (sq_joins q) as [joins|]; [|discriminate Hjoin].
    rewrite bind_ret_l, Hjoin. reflexivity.
  - intros t Hjoin Hfrom.
    assert (Hresolved :
              (hasJoins <- match sq_joins q with
                           | Some joins => ret (0 <? length joins)%nat
                           | None => ret false
                           end ;;
               if hasJoins : bool
               then throw (Thrown "kysely-access-control: if joins are present, each column reference in where must specify the table")
               else match sq_from q with
                    | Some [TableE t0] => ret t0
                    | Some [AliasE _ _] =>
                        throw (InvariantFailed "kysely-access-control: select query must have a table")
                    | _ =>
                        throw (InvariantFailed "kysely-access-control: select query must have exactly one from")
                    end)
              = ret t).
    { destruct (sq_joins q) as [joins|]; rewrite bind_ret_l;
        [rewrite Hjoin|]; now rewrite Hfrom. }
    rewrite Hresolved, bind_ret_l.
    unfold callColumnGuard, throwIfDenyWithReason, super_transformReference,
      bind, throw, ret, events, outcome.
    destruct (denial (guard_column g t c Select ColumnInWhereOrJoin)) as [[reason|]|];
      split; try reflexivity; intros H; discriminate H.
Qed.

(** [select first_name from person where last_name = 'Doe']: the filter
    column is checked on [person]. *)
Lemma unqualified_filter_column_is_resolved_witness :
  events (transformReference Examples.benGuard
            ([] ++ OSelectQuery Examples.selectUnqualified
                :: OWhere (mkWhereNode
                             (Examples.equals
                                (ReferenceExpr (mkReferenceNode None (ColumnNode "last_name")))
                                (Examples.str "Doe")))
                :: [OExpression
                      (Examples.equals
                         (ReferenceExpr (mkReferenceNode None (ColumnNode "last_name")))
                         (Examples.str "Doe"));
                    OExpression
                      (ReferenceExpr (mkReferenceNode None (ColumnNode "last_name")))])
            (mkReferenceNode None (ColumnNode "last_name")))
  = [ColumnGuardCalled Examples.person "last_name" Select ColumnInWhereOrJoin].
Proof.
  exact (proj1 (proj2 (unqualified_filter_column_is_resolved
                         Examples.benGuard [] Examples.selectUnqualified
                         (mkWhereNode
                            (Examples.equals
                               (ReferenceExpr
                                  (mkReferenceNode None (ColumnNode "last_name")))
                               (Examples.str "Doe")))
                         [OExpression
                            (Examples.equals
                               (ReferenceExpr
                                  (mkReferenceNode None (ColumnNode "last_name")))
                               (Examples.str "Doe"));
                          OExpression
                            (ReferenceExpr
                               (mkReferenceNode None (ColumnNode "last_name")))]
                         "last_name" eq_refl)
                      Examples.person eq_refl eq_refl)).
Defined.

(** *** The grants as a whole *)

Lemma forallb_grantHasNoPredicate (gs : list Grant) :
  forallb grantHasNoPredicate gs = negb (existsb isGrantWithWhereClause gs).
Proof.
  induction gs as [|x gs IH]; simpl; [reflexivity|].
  rewrite IH. unfold grantHasNoPredicate. now rewrite negb_orb.
Qed.

(** The three answers of the grant-resolved table guard. *)
Lemma grantTableGuard_cases grants table statementType ctx :
  let allowGrants := allowGrantsOf grants table statementType in
  let P := wheresOf (grantsWithPermissiveWheresOf allowGrants) in
  let R := wheresOf (grantsWithRestrictiveWheresOf allowGrants) in
  (allowGrants = [] -> grantTableGuard grants table statementType ctx = TDeny)
  /\ (allowGrants <> [] ->
      existsb isGrantWithWhereClause allowGrants = false ->
      grantTableGuard grants table statementType ctx = TAllow)
  /\ (existsb isGrantWithWhereClause allowGrants = true ->
      exists e,
        grantTableGuard grants table statementType ctx = TAllowWhere e
        /\ forall atom,
            holds atom e = existsb (holds atom) P && forallb (holds atom) R).
Proof.
  intros allowGrants P R.
  pose proof (no_predicates_iff allowGrants) as Hnp.
  rewrite forallb_grantHasNoPredicate in Hnp.
  split; [|split].
  - intros Hnone. unfold grantTableGuard. fold allowGrants. now rewrite Hnone.
  - intros Hsome Hplain. unfold grantTableGuard. fold allowGrants.
    destruct (length allowGrants =? 0)%nat eqn:E0.
    { apply length_eqb_0 in E0. contradiction. }
    rewrite Hplain in Hnp. destruct (proj2 Hnp eq_refl) as [Hr Hp].
    now rewrite Hr, Hp.
  - intros Hpredicate.
    assert (Hcase : grantsWithRestrictiveWheresOf allowGrants = []
                    \/ grantsWithRestrictiveWheresOf allowGrants <> []).
    { destruct (grantsWithRestrictiveWheresOf allowGrants);
        [now left|right; discriminate]. }
    destruct Hcase as [Hr|Hr].
    + assert (Hp : grantsWithPermissiveWheresOf allowGrants <> []).
      { intros Hp. rewrite Hpredicate in Hnp.
        discriminate (proj1 Hnp (conj Hr Hp)). }
      assert (HP : P <> []).
      { unfold P. intros E.
        apply wheresOf_nil_iff in E; [contradiction|apply permissive_have_where]. }
      unfold grantTableGuard. fold allowGrants.
      destruct (length allowGrants =? 0)%nat eqn:E0.
      { apply length_eqb_0 in E0. unfold grantsWithPermissiveWheresOf in Hp.
        rewrite E0 in Hp. now elim Hp. }
      rewrite Hr. cbn [length Nat.eqb Nat.ltb Nat.leb andb].
      destruct (length (grantsWithPermissiveWheresOf allowGrants) =? 0)%nat eqn:E3.
      { apply length_eqb_0 in E3. contradiction. }
      eexists. split; [reflexivity|]. intros atom. fold P.
      rewrite holds_eb_or by exact HP. unfold R. rewrite Hr.
      cbn [wheresOf forallb]. now rewrite andb_true_r.
    + destruct (grantTableGuard_restricted grants table statementType ctx)
        as [e [He Hh]].
      { fold allowGrants. intros E.
        apply wheresOf_nil_iff in E; [contradiction|apply restrictive_have_where]. }
      exists e. split; [exact He|exact Hh].
Qed.

Lemma grantColumnGuard_existsb grants table column statementType ctx :
  grantColumnGuard grants table column statementType ctx
  = if existsb (columnGrantMatches table column statementType ctx) grants
    then CAllow else CDeny.
Proof.
  unfold grantColumnGuard.
  induction grants as [|x grants IH]; simpl; [reflexivity|].
  now destruct (columnGrantMatches table column statementType ctx x).
Qed.

Lemma Permutation_filter_same {A} (f : A -> bool) l l' :
  Permutation l l' -> Permutation (filter f l) (filter f l').
Proof.
  induction 1 as [|x l l' _ IH|x y l|l l' l'' _ IH1 _ IH2]; simpl.
  - constructor.
  - destruct (f x); [now constructor|exact IH].
  - destruct (f x), (f y); try apply Permutation_refl. apply perm_swap.
  - now apply perm_trans with (filter f l').
Qed.

Lemma Permutation_wheresOf gs gs' :
  Permutation gs gs' -> Permutation (wheresOf gs) (wheresOf gs').
Proof.
  induction 1 as [|x l l' _ IH|x y l|l l' l'' _ IH1 _ IH2]; simpl.
  - constructor.
  - destruct (g_whereClause x); [now constructor|exact IH].
  - destruct (g_whereClause x), (g_whereClause y); try apply Permutation_refl.
    apply perm_swap.
  - now apply perm_trans with (wheresOf l').
Qed.

Lemma Permutation_existsb {A} (f : A -> bool) l l' :
  Permutation l l' -> existsb f l = existsb f l'.
Proof.
  induction 1 as [|x l l' _ IH|x y l|l l' l'' _ IH1 _ IH2]; simpl.
  - reflexivity.
  - now rewrite IH.
  - now destruct (f x), (f y).
  - now rewrite IH1.
Qed.

Lemma Permutation_forallb {A} (f : A -> bool) l l' :
  Permutation l l' -> forallb f l = forallb f l'.
Proof.
  induction 1 as [|x l l' _ IH|x y l|l l' l'' _ IH1 _ IH2]; simpl.
  - reflexivity.
  - now rewrite IH.
  - now destruct (f x), (f y).
  - now rewrite IH1.
Qed.

(** Whenever a matching grant carries a predicate, the table guard
    answers Allow with a predicate that holds of a row exactly when one
    of the permissive predicates holds of it and every restrictive
    predicate does, however many there are of each (a predicate without
    type counts as permissive; without restrictive predicates the
    permissive ones alone decide; without permissive ones no row
    passes). *)
Theorem grant_predicates_combine grants table statementType ctx :
  let allowGrants := allowGrantsOf grants table statementType in
  let P := wheresOf (grantsWithPermissiveWheresOf allowGrants) in
  let R := wheresOf (grantsWithRestrictiveWheresOf allowGrants) in
  existsb isGrantWithWhereClause allowGrants = true ->
  exists e,
    grantTableGuard grants table statementType ctx = TAllowWhere e
    /\ forall atom,
        holds atom e = existsb (holds atom) P && forallb (holds atom) R.
Proof.
  intros allowGrants P R.
  exact (proj2 (proj2 (grantTableGuard_cases grants table statementType ctx))).
Qed.

(** Two permissive predicates and no restrictive one. *)
Lemma grant_predicates_combine_witness :
  exists e,
    grantTableGuard [Examples.benGrant; Examples.georgeGrant]
                    Examples.person Select TableTopLevel = TAllowWhere e
    /\ forall atom,
        holds atom e
        = existsb (holds atom) [Examples.firstNameIs "Ben"; Examples.firstNameIs "George"]
          && forallb (holds atom) [].
Proof.
  apply (grant_predicates_combine [Examples.benGrant; Examples.georgeGrant]
           Examples.person Select TableTopLevel).
  reflexivity.
Defined.

(** The order in which the grants are listed does not matter: the column
    guard answers the same, and the table guard takes the same decision,
    with a predicate that holds of the same rows. *)
Theorem grant_order_is_irrelevant grants grants' table column statementType
        tableUsage columnUsage :
  Permutation grants grants' ->
  grantColumnGuard grants table column statementType columnUsage
  = grantColumnGuard grants' table column statementType columnUsage
  /\ equivalentTableAnswers
       (grantTableGuard grants table statementType tableUsage)
       (grantTableGuard grants' table statementType tableUsage).
Proof.
  intros Hperm. split.
  - rewrite !grantColumnGuard_existsb.
    now rewrite (Permutation_existsb _ _ _ Hperm).
  - pose proof (grantTableGuard_cases grants table statementType tableUsage)
      as [Hdeny [Hallow Hwhere]].
    pose proof (grantTableGuard_cases grants' table statementType tableUsage)
      as [Hdeny' [Hallow' Hwhere']].
    cbv zeta in Hdeny, Hallow, Hwhere, Hdeny', Hallow', Hwhere'.
    assert (Hmatching : Permutation (allowGrantsOf grants table statementType)
                                    (allowGrantsOf grants' table statementType))
      by now apply Permutation_filter_same.
    pose proof (Permutation_existsb isGrantWithWhereClause _ _ Hmatching) as Hsame.
    assert (Hcase : allowGrantsOf grants table statementType = []
                    \/ allowGrantsOf grants table statementType <> []).
    { destruct (allowGrantsOf grants table statementType);
        [now left|right; discriminate]. }
    destruct Hcase as [Hnone|Hsome].
    { assert (Hnone' : allowGrantsOf grants' table statementType = []).
      { rewrite Hnone in Hmatching. now apply Permutation_nil. }
      rewrite (Hdeny Hnone), (Hdeny' Hnone'). exact I. }
    assert (Hsome' : allowGrantsOf grants' table statementType <> []).
    { intros E. rewrite E in Hmatching.
      apply Permutation_sym, Permutation_nil in Hmatching. contradiction. }
    destruct (existsb isGrantWithWhereClause
                      (allowGrantsOf grants table statementType)) eqn:Hpredicate.
    + destruct (Hwhere eq_refl) as [e [-> He]].
      destruct (Hwhere' (eq_sym Hsame)) as [e' [-> He']].
      intros atom. rewrite He, He'. f_equal.
      * apply Permutation_existsb, Permutation_wheresOf.
        unfold grantsWithPermissiveWheresOf.
        now do 2 apply Permutation_filter_same.
      * apply Permutation_forallb, Permutation_wheresOf.
        unfold grantsWithRestrictiveWheresOf.
        now do 2 apply Permutation_filter_same.
    + rewrite (Hallow Hsome eq_refl), (Hallow' Hsome' (eq_sym Hsame)). exact I.
Qed.

Lemma grant_order_is_irrelevant_witness :
  grantColumnGuard [Examples.benGrant; Examples.smithGrant]
                   Examples.person "id" Select ColumnInSelectOrReturning
  = grantColumnGuard [Examples.smithGrant; Examples.benGrant]
                     Examples.person "id" Select ColumnInSelectOrReturning
  /\ equivalentTableAnswers
       (grantTableGuard [Examples.benGrant; Examples.smithGrant]
                        Examples.person Select TableTopLevel)
       (grantTableGuard [Examples.smithGrant; Examples.benGrant]
                        Examples.person Select TableTopLevel).
Proof.
  apply (grant_order_is_irrelevant [Examples.benGrant; Examples.smithGrant]
           [Examples.smithGrant; Examples.benGrant]).
  apply perm_swap.
Defined.

(** Adding grants never takes access away: a column the column guard
    allows stays allowed, and a table the table guard does not deny is
    still not denied (the rows it admits can change, through the
    predicates of the new grants). *)
Theorem more_grants_never_revoke grants grants' table column statementType
        tableUsage columnUsage :
  incl grants grants' ->
  (grantColumnGuard grants table column statementType columnUsage = CAllow ->
   grantColumnGuard grants' table column statementType columnUsage = CAllow)
  /\ (grantTableGuard grants table statementType tableUsage <> TDeny ->
      grantTableGuard grants' table statementType tableUsage <> TDeny).
Proof.
  intros Hincl. split.
  - rewrite !grantColumnGuard_existsb.
    destruct (existsb _ grants) eqn:Hsome; [intros _|discriminate].
    apply existsb_exists in Hsome as [x [Hin Hx]].
    replace (existsb (columnGrantMatches table column statementType columnUsage)
                     grants') with true; [reflexivity|].
    symmetry. apply existsb_exists. exists x. split; [now apply Hincl|exact Hx].
  - pose proof (grantTableGuard_cases grants table statementType tableUsage)
      as [Hdeny _].
    pose proof (grantTableGuard_cases grants' table statementType tableUsage)
      as [_ [Hallow' Hwhere']].
    cbv zeta in Hdeny, Hallow', Hwhere'.
    intros Hsome.
    assert (Hmatching : exists x, In x (allowGrantsOf grants table statementType)).
    { destruct (allowGrantsOf grants table statementType) as [|x rest] eqn:Hm.
      - elim Hsome. now apply Hdeny.
      - exists x. now left. }
    destruct Hmatching as [x Hin].
    assert (Hx : In x (allowGrantsOf grants' table statementType)).
    { unfold allowGrantsOf in *. apply filter_In in Hin as [Hin Hmatch].
      apply filter_In. split; [now apply Hincl|exact Hmatch]. }
    assert (Hsome' : allowGrantsOf grants' table statementType <> [])
      by (intros E; rewrite E in Hx; exact Hx).
    destruct (existsb isGrantWithWhereClause
                      (allowGrantsOf grants' table statementType)) eqn:Hpredicate.
    + destruct (Hwhere' eq_refl) as [e [-> _]]. discriminate.
    + rewrite (Hallow' Hsome' eq_refl). discriminate.
Qed.

Lemma more_grants_never_revoke_witness :
  (grantColumnGuard [Examples.selectGrant ["id"]]
                    Examples.person "id" Select ColumnInSelectOrReturning = CAllow ->
   grantColumnGuard [Examples.smithGrant; Examples.selectGrant ["id"]]
                    Examples.person "id" Select ColumnInSelectOrReturning = CAllow)
  /\ (grantTableGuard [Examples.selectGrant ["id"]]
                      Examples.person Select TableTopLevel <> TDeny ->
      grantTableGuard [Examples.smithGrant; Examples.selectGrant ["id"]]
                      Examples.person Select TableTopLevel <> TDeny).
Proof.
  apply (more_grants_never_revoke [Examples.selectGrant ["id"]]
           [Examples.smithGrant; Examples.selectGrant ["id"]]).
  intros x Hx. now right.
Defined.

(** *** The grants behind the transformer *)

(** With a guard built from grants, no projected column is ever dropped:
    every select over a source that is rewritten had each of its
    projected columns allowed by the grants, and keeps its projection
    unchanged. *)
Theorem grants_never_drop_a_projected_column grants q log r :
  sq_from q <> None ->
  transformQuery (fullGuard (createKyselyGrantGuard grants)) (SelectQuery q)
  = (log, Ok r) ->
  exists q' tableNode selections,
    r = SelectQuery q'
    /\ sq_from q = Some [TableE tableNode]
    /\ sq_selections q = Some selections
    /\ Forall (fun s =>
                 projectionAnswer (fullGuard (createKyselyGrantGuard grants))
                                  tableNode (selectHasJoin q) Select s
                 = Some CAllow) selections
    /\ sq_selections q' = Some selections.
Proof.
  intros Hfrom Hrun.
  apply transformQuery_select in Hrun as [q' [-> Hrun]].
  pose proof (Post_ok _ _ _ _ _
                (Post_transformSelectQueryBody_selections
                   (fullGuard (createKyselyGrantGuard grants)) _
                   (push [] (OSelectQuery q)) q Hfrom eq_refl)
                Hrun) as [tableNode [selections [Hsource [Hsel [Hall Hkept]]]]].
  assert (Hallowed :
            Forall (fun s =>
                      projectionAnswer (fullGuard (createKyselyGrantGuard grants))
                                       tableNode (selectHasJoin q) Select s
                      = Some CAllow) selections).
  { apply Forall_forall. intros s Hin.
    destruct (proj1 (Forall_forall _ _) Hall s Hin) as [answer [Hanswer Hok]].
    rewrite Hanswer. f_equal.
    unfold projectionAnswer in Hanswer.
    destruct (selection s) as [[t [c|]]| |e alias]; try discriminate.
    cbn [ref_column ref_table] in Hanswer.
    destruct (if selectHasJoin q then t else Some tableNode) as [t0|];
      [|discriminate].
    injection Hanswer as <-.
    change (guard_column (fullGuard (createKyselyGrantGuard grants)))
      with (grantColumnGuard grants) in *.
    rewrite grantColumnGuard_existsb in *.
    now destruct (existsb _ grants). }
  exists q', tableNode, selections. repeat split; try assumption.
  rewrite Hkept. f_equal. apply forallb_filter_id.
  apply forallb_forall. intros s Hin. unfold keptInProjection.
  now rewrite (proj1 (Forall_forall _ _) Hallowed s Hin).
Qed.

Lemma grants_never_drop_a_projected_column_witness :
  exists q' tableNode selections,
    SelectQuery Examples.selectNames = SelectQuery q'
    /\ sq_from Examples.selectNames = Some [TableE tableNode]
    /\ sq_selections Examples.selectNames = Some selections
    /\ Forall (fun s =>
                 projectionAnswer
                   (fullGuard (createKyselyGrantGuard
                                 [Examples.selectGrant ["first_name"; "last_name"]]))
                   tableNode (selectHasJoin Examples.selectNames) Select s
                 = Some CAllow) selections
    /\ sq_selections q' = Some selections.
Proof.
  apply (grants_never_drop_a_projected_column
           [Examples.selectGrant ["first_name"; "last_name"]] Examples.selectNames
           [TableGuardCalled Examples.person Select TableTopLevel;
            ColumnGuardCalled Examples.person "first_name" Select
                              ColumnInSelectOrReturning;
            ColumnGuardCalled Examples.person "last_name" Select
                              ColumnInSelectOrReturning]).
  - discriminate.
  - reflexivity.
Defined.

(** *** Selects nested below a join, a from list or a using list *)

Lemma noProjectionCheck_ret {A} (a : A) : noProjectionCheck (ret a).
Proof. constructor. Qed.

Lemma noProjectionCheck_throw {A} e : noProjectionCheck (throw e : M A).
Proof. constructor. Qed.

Lemma noProjectionCheck_bind {A B} (m : M A) (f : A -> M B) :
  noProjectionCheck m -> (forall a, noProjectionCheck (f a)) ->
  noProjectionCheck (bind m f).
Proof.
  unfold noProjectionCheck. intros Hm Hf. rewrite events_bind.
  destruct (outcome m) as [a|e]; [|exact Hm].
  apply Forall_app. split; [exact Hm|apply Hf].
Qed.

Lemma noProjectionCheck_transformNodeList {A} (f : A -> M A) (l : list A) :
  (forall x, noProjectionCheck (f x)) -> noProjectionCheck (transformNodeList f l).
Proof.
  intros Hf. induction l as [|x rest IH]; cbn [transformNodeList].
  - apply noProjectionCheck_ret.
  - apply noProjectionCheck_bind; [apply Hf|intros x'].
    apply noProjectionCheck_bind; [exact IH|intros rest'].
    apply noProjectionCheck_ret.
Qed.

Lemma noProjectionCheck_transformOptional {A} (f : A -> M A) (o : option A) :
  (forall x, noProjectionCheck (f x)) -> noProjectionCheck (transformOptional f o).
Proof.
  intros Hf. destruct o as [x|]; cbn [transformOptional].
  - apply noProjectionCheck_bind; [apply Hf|intros x'; apply noProjectionCheck_ret].
  - apply noProjectionCheck_ret.
Qed.

Lemma noProjectionCheck_invariant c msg : noProjectionCheck (invariant c msg).
Proof. destruct c; constructor. Qed.

Lemma noProjectionCheck_throwIfDenyWithReason {R} `{GuardResult R} (r : R) msg :
  noProjectionCheck (throwIfDenyWithReason r msg).
Proof.
  unfold throwIfDenyWithReason. destruct (denial r) as [[reason|]|]; constructor.
Qed.

Lemma noProjectionCheck_callTableGuard g t s c :
  noProjectionCheck (callTableGuard g t s c).
Proof. repeat constructor. Qed.

Lemma noProjectionCheck_callColumnGuard_filter g t column s :
  noProjectionCheck (callColumnGuard g t column s ColumnInWhereOrJoin).
Proof. repeat constructor. Qed.

Lemma noProjectionCheck_resolveReferenceTable nodeStack node :
  noProjectionCheck (resolveReferenceTable nodeStack node).
Proof.
  unfold noProjectionCheck. rewrite events_resolveReferenceTable. constructor.
Qed.

Create HintDb logs discriminated.

#[export] Hint Resolve noProjectionCheck_invariant
  noProjectionCheck_throwIfDenyWithReason noProjectionCheck_callTableGuard
  noProjectionCheck_callColumnGuard_filter
  noProjectionCheck_resolveReferenceTable : logs.

(** One step through a computation, for its guard calls. *)
Ltac logs_step :=
  lazymatch goal with
  | |- noProjectionCheck (ret _) => apply noProjectionCheck_ret
  | |- noProjectionCheck (throw _) => apply noProjectionCheck_throw
  | |- noProjectionCheck (bind _ _) => apply noProjectionCheck_bind; [|intros ?]
  | |- noProjectionCheck (transformOptional _ _) =>
      apply noProjectionCheck_transformOptional; intros ?
  | |- noProjectionCheck (transformNodeList _ _) =>
      apply noProjectionCheck_transformNodeList; intros ?
  | |- noProjectionCheck (match ?x with _ => _ end) => destruct x
  end.

Ltac logs := repeat logs_step; eauto with logs.

Section ProjectionCheckTransformer.

Variable g : FullKyselyAccessControlGuard.

Lemma noProjectionCheck_transformReference nodeStack node :
  noProjectionCheck (transformReference g nodeStack node).
Proof. unfold transformReference, super_transformReference. logs. Qed.

Lemma noProjectionCheck_transformExpression e : forall nodeStack,
  noProjectionCheck (transformExpression g nodeStack e).
Proof.
  induction e as [r|v|l IHl op r IHr|l IHl r IHr|l IHl r IHr|e IH|sql];
    intros nodeStack; cbn [transformExpression]; logs.
  apply noProjectionCheck_transformReference.
Qed.

Lemma noProjectionCheck_visitExpression nodeStack e :
  noProjectionCheck (visitExpression g nodeStack e).
Proof. apply noProjectionCheck_transformExpression. Qed.

#[local] Hint Resolve noProjectionCheck_transformReference
  noProjectionCheck_visitExpression : logs.

Lemma noProjectionCheck_visitWhere nodeStack w :
  noProjectionCheck (visitWhere g nodeStack w).
Proof. unfold visitWhere, super_transformWhere. logs. Qed.

Lemma noProjectionCheck_visitOn nodeStack o :
  noProjectionCheck (visitOn g nodeStack o).
Proof. unfold visitOn. logs. Qed.

Lemma noProjectionCheck_visitSelection nodeStack s :
  noProjectionCheck (visitSelection g nodeStack s).
Proof. unfold visitSelection. logs. Qed.

Lemma noProjectionCheck__transformWhere nodeStack r w :
  noProjectionCheck (_transformWhere g nodeStack r w).
Proof. unfold _transformWhere, super_transformWhere. logs. Qed.

Lemma noProjectionCheck_guardSecondarySource statementType from :
  noProjectionCheck (guardSecondarySource g statementType from).
Proof. unfold guardSecondarySource. logs. Qed.

#[local] Hint Resolve noProjectionCheck_visitWhere noProjectionCheck_visitOn
  noProjectionCheck_visitSelection noProjectionCheck__transformWhere
  noProjectionCheck_guardSecondarySource : logs.

Lemma underSecondarySource_push nodeStack n :
  underSecondarySource nodeStack = true ->
  underSecondarySource (push nodeStack n) = true.
Proof.
  unfold underSecondarySource. rewrite !isAChildOf_push. intros H.
  destruct (isAChildOf JoinNode_is nodeStack), (isAChildOf FromNode_is nodeStack),
    (isAChildOf UsingNode_is nodeStack); try discriminate H;
    cbn [orb]; rewrite ?orb_true_r; reflexivity.
Qed.

Section ProjectionCheckNested.

Variable visitSelectQuery : list OperationNode -> SelectQueryNode -> M SelectQueryNode.
Hypothesis visitSelectQuery_ok :
  forall s q, underSecondarySource s = true -> noProjectionCheck (visitSelectQuery s q).

Lemma noProjectionCheck_visitTableExpr nodeStack t :
  underSecondarySource nodeStack = true ->
  noProjectionCheck (visitTableExpr visitSelectQuery nodeStack t).
Proof.
  intros Hunder. destruct t as [tableNode|sub alias]; cbn [visitTableExpr]; logs.
  apply visitSelectQuery_ok. now do 2 apply underSecondarySource_push.
Qed.

Lemma noProjectionCheck_super_transformJoin nodeStack node :
  underSecondarySource nodeStack = true ->
  noProjectionCheck (super_transformJoin g visitSelectQuery nodeStack node).
Proof.
  intros Hunder. unfold super_transformJoin. logs.
  now apply noProjectionCheck_visitTableExpr.
Qed.

Lemma noProjectionCheck_visitJoin nodeStack node :
  underSecondarySource nodeStack = true ->
  noProjectionCheck (visitJoin g visitSelectQuery nodeStack node).
Proof.
  intros Hunder. unfold visitJoin, transformJoin. logs;
    apply noProjectionCheck_super_transformJoin;
    now apply underSecondarySource_push.
Qed.

Lemma noProjectionCheck_visitFrom nodeStack froms :
  underSecondarySource nodeStack = true ->
  noProjectionCheck (visitFrom g visitSelectQuery nodeStack froms).
Proof.
  intros Hunder. unfold visitFrom, transformFrom. logs;
    apply noProjectionCheck_visitTableExpr;
    now apply underSecondarySource_push.
Qed.

Lemma noProjectionCheck_super_transformSelectQuery nodeStack node :
  underSecondarySource nodeStack = true ->
  noProjectionCheck (super_transformSelectQuery g visitSelectQuery nodeStack node).
Proof.
  intros Hunder. unfold super_transformSelectQuery. logs.
  - now apply noProjectionCheck_visitFrom.
  - now apply noProjectionCheck_visitJoin.
Qed.

Lemma noProjectionCheck_transformSelectQueryBody nodeStack node :
  underSecondarySource nodeStack = true ->
  noProjectionCheck (transformSelectQueryBody g visitSelectQuery nodeStack node).
Proof.
  intros Hunder. unfold transformSelectQueryBody, _transformSelections.
  pose proof Hunder as Hallowed. unfold underSecondarySource in Hallowed.
  rewrite Hallowed.
  logs; now apply noProjectionCheck_super_transformSelectQuery.
Qed.

Lemma Post_transformSelectQueryBody_nested nodeStack node :
  underSecondarySource nodeStack = true ->
  Post (fun q' => sq_selections q' = sq_selections node) anyError
       (transformSelectQueryBody g visitSelectQuery nodeStack node).
Proof.
  intros Hunder. unfold transformSelectQueryBody, _transformSelections.
  pose proof Hunder as Hallowed. unfold underSecondarySource in Hallowed.
  rewrite Hallowed.
  destruct (sq_from node) as [froms|];
    [|apply Post_super_transformSelectQuery_selections].
  apply Post_bind_True; [apply Post_trivial|intros _].
  destruct (nth_error froms 0) as [[tableNode|sub alias]|]; try exact I.
  destruct (sq_selections node) as [selections|] eqn:Hsel; [|exact I].
  do 2 (apply Post_bind_True; [apply Post_trivial|intros ?]).
  rewrite bind_ret_l.
  apply Post_bind_True; [apply Post_trivial|intros newWhere].
  eapply Post_weaken; [apply Post_super_transformSelectQuery_selections| |auto].
  intros q' Hq'. exact Hq'.
Qed.

End ProjectionCheckNested.

Lemma noProjectionCheck_transformSelectQuery fuel : forall nodeStack q,
  underSecondarySource nodeStack = true ->
  noProjectionCheck (transformSelectQuery g fuel nodeStack q).
Proof.
  induction fuel as [|fuel IH]; intros nodeStack q Hunder;
    cbn [transformSelectQuery].
  - apply noProjectionCheck_throw.
  - now apply noProjectionCheck_transformSelectQueryBody.
Qed.

End ProjectionCheckTransformer.

(** For every select nested below a join, the from list of an update or
    the using list of a delete, the column guard is never asked about a
    projected column as a projection: when the nested select is
    rewritten, its projection is returned as written (a select-all and
    the columns the guard would answer Omit or Deny for in a projection
    included), here and in every select nested further down. *)
Theorem nested_select_projection_is_not_guarded g fuel nodeStack q log q' :
  underSecondarySource nodeStack = true ->
  transformSelectQuery g fuel nodeStack q = (log, Ok q') ->
  sq_selections q' = sq_selections q
  /\ Forall (fun ev => isProjectionCheck ev = false) log.
Proof.
  intros Hunder Hrun. split.
  - destruct fuel as [|fuel]; [discriminate Hrun|].
    cbn [transformSelectQuery] in Hrun.
    exact (Post_ok _ _ _ _ _
             (Post_transformSelectQueryBody_nested g _ nodeStack q Hunder) Hrun).
  - pose proof (noProjectionCheck_transformSelectQuery g fuel nodeStack q Hunder)
      as Hlog.
    unfold noProjectionCheck in Hlog. now rewrite Hrun in Hlog.
Qed.

(** Under a column guard that answers Omit for [last_name], the
    sub-select in the from list of an update keeps [last_name]. *)
Lemma nested_select_projection_is_not_guarded_witness :
  sq_selections Examples.selectNames = sq_selections Examples.selectNames
  /\ Forall (fun ev => isProjectionCheck ev = false)
            [TableGuardCalled Examples.person Select TableTopLevel].
Proof.
  apply (nested_select_projection_is_not_guarded Examples.omitLastNameGuard 1
           Examples.stackAtUpdateFromSubselect Examples.selectNames);
    reflexivity.
Defined.

(** ** C10 *)

(** *** Every filter/join-usage call names Select *)

Lemma selectUsage_ret {A} (a : A) : selectUsage (ret a).
Proof. constructor. Qed.

Lemma selectUsage_throw {A} e : selectUsage (throw e : M A).
Proof. constructor. Qed.

Lemma selectUsage_bind {A B} (m : M A) (f : A -> M B) :
  selectUsage m -> (forall a, selectUsage (f a)) -> selectUsage (bind m f).
Proof.
  unfold selectUsage. intros Hm Hf. rewrite events_bind.
  destruct (outcome m) as [a|e]; [|exact Hm].
  apply Forall_app. split; [exact Hm|apply Hf].
Qed.

Lemma selectUsage_transformNodeList {A} (f : A -> M A) (l : list A) :
  (forall x, selectUsage (f x)) -> selectUsage (transformNodeList f l).
Proof.
  intros Hf. induction l as [|x rest IH]; cbn [transformNodeList].
  - apply selectUsage_ret.
  - apply selectUsage_bind; [apply Hf|intros x'].
    apply selectUsage_bind; [exact IH|intros rest'].
    apply selectUsage_ret.
Qed.

Lemma selectUsage_transformOptional {A} (f : A -> M A) (o : option A) :
  (forall x, selectUsage (f x)) -> selectUsage (transformOptional f o).
Proof.
  intros Hf. destruct o as [x|]; cbn [transformOptional].
  - apply selectUsage_bind; [apply Hf|intros x'; apply selectUsage_ret].
  - apply selectUsage_ret.
Qed.

Lemma selectUsage_invariant c msg : selectUsage (invariant c msg).
Proof. destruct c; constructor. Qed.

Lemma selectUsage_throwIfDenyWithReason {R} `{GuardResult R} (r : R) msg :
  selectUsage (throwIfDenyWithReason r msg).
Proof.
  unfold throwIfDenyWithReason. destruct (denial r) as [[reason|]|]; constructor.
Qed.

Lemma selectUsage_callTableGuard g t s c : selectUsage (callTableGuard g t s c).
Proof. repeat constructor. Qed.

Lemma selectUsage_callColumnGuard g t column s c :
  filterUsageIsSelect (ColumnGuardCalled t column s c) ->
  selectUsage (callColumnGuard g t column s c).
Proof. intros H. constructor; [exact H|constructor]. Qed.

Lemma selectUsage_resolveReferenceTable nodeStack node :
  selectUsage (resolveReferenceTable nodeStack node).
Proof.
  unfold selectUsage. rewrite events_resolveReferenceTable. constructor.
Qed.

Create HintDb usage discriminated.

#[export] Hint Resolve selectUsage_invariant selectUsage_throwIfDenyWithReason
  selectUsage_callTableGuard selectUsage_resolveReferenceTable : usage.

(** One step through a computation, for the usage its guard calls name. *)
Ltac usage_step :=
  lazymatch goal with
  | |- selectUsage (ret _) => apply selectUsage_ret
  | |- selectUsage (throw _) => apply selectUsage_throw
  | |- selectUsage (bind _ _) => apply selectUsage_bind; [|intros ?]
  | |- selectUsage (callColumnGuard _ _ _ _ _) =>
      apply selectUsage_callColumnGuard; first [exact I|reflexivity]
  | |- selectUsage (transformOptional _ _) =>
      apply selectUsage_transformOptional; intros ?
  | |- selectUsage (transformNodeList _ _) =>
      apply selectUsage_transformNodeList; intros ?
  | |- selectUsage (match ?x with _ => _ end) => destruct x
  end.

Ltac usage := repeat usage_step; eauto with usage.

Section SelectUsageFacts.

Variable g : FullKyselyAccessControlGuard.

Lemma selectUsage_transformReference nodeStack node :
  selectUsage (transformReference g nodeStack node).
Proof. unfold transformReference, super_transformReference. usage. Qed.

Lemma selectUsage_transformExpression e : forall nodeStack,
  selectUsage (transformExpression g nodeStack e).
Proof.
  induction e as [r|v|l IHl op r IHr|l IHl r IHr|l IHl r IHr|e IH|sql];
    intros nodeStack; cbn [transformExpression]; usage.
  apply selectUsage_transformReference.
Qed.

Lemma selectUsage_visitExpression nodeStack e :
  selectUsage (visitExpression g nodeStack e).
Proof. apply selectUsage_transformExpression. Qed.

#[local] Hint Resolve selectUsage_transformReference
  selectUsage_visitExpression : usage.

Lemma selectUsage_visitWhere nodeStack w : selectUsage (visitWhere g nodeStack w).
Proof. unfold visitWhere, super_transformWhere. usage. Qed.

Lemma selectUsage_visitOn nodeStack o : selectUsage (visitOn g nodeStack o).
Proof. unfold visitOn. usage. Qed.

Lemma selectUsage_visitSelection nodeStack s :
  selectUsage (visitSelection g nodeStack s).
Proof. unfold visitSelection. usage. Qed.

Lemma selectUsage__transformWhere nodeStack r w :
  selectUsage (_transformWhere g nodeStack r w).
Proof. unfold _transformWhere, super_transformWhere. usage. Qed.

Lemma selectUsage_guardSecondarySource statementType from :
  selectUsage (guardSecondarySource g statementType from).
Proof. unfold guardSecondarySource. usage. Qed.

Lemma selectUsage_transformSelectionsLoop selections tableNode scoped statementType :
  selectUsage (transformSelectionsLoop g selections tableNode scoped statementType).
Proof.
  induction selections as [|selectionNode rest IH];
    cbn [transformSelectionsLoop]; usage.
Qed.

#[local] Hint Resolve selectUsage_visitWhere selectUsage_visitOn
  selectUsage_visitSelection selectUsage__transformWhere
  selectUsage_guardSecondarySource selectUsage_transformSelectionsLoop : usage.

Lemma selectUsage__transformSelections nodeStack selections tableNode scoped
      statementType :
  selectUsage (_transformSelections g nodeStack selections tableNode scoped
                                    statementType).
Proof. unfold _transformSelections. usage. Qed.

#[local] Hint Resolve selectUsage__transformSelections : usage.

Lemma selectUsage_visitReturning nodeStack r :
  selectUsage (visitReturning g nodeStack r).
Proof.
  unfold visitReturning, transformReturning, super_transformReturning. usage.
Qed.

Lemma selectUsage_checkUpdateColumns tableNode updates :
  selectUsage (checkUpdateColumns g tableNode updates).
Proof.
  induction updates as [|u rest IH]; cbn [checkUpdateColumns]; usage.
Qed.

Lemma selectUsage_transformInsertColumns tableNode columns :
  selectUsage (transformInsertColumns g tableNode columns).
Proof.
  induction columns as [|column rest IH]; cbn [transformInsertColumns]; usage.
Qed.

Lemma selectUsage_visitColumnUpdate nodeStack u :
  selectUsage (visitColumnUpdate g nodeStack u).
Proof. unfold visitColumnUpdate. usage. Qed.

#[local] Hint Resolve selectUsage_visitReturning selectUsage_checkUpdateColumns
  selectUsage_transformInsertColumns selectUsage_visitColumnUpdate : usage.

Lemma selectUsage_transformInsertQuery nodeStack node :
  selectUsage (transformInsertQuery g nodeStack node).
Proof. unfold transformInsertQuery, super_transformInsertQuery. usage. Qed.

Section SelectUsageNested.

Variable visitSelectQuery : list OperationNode -> SelectQueryNode -> M SelectQueryNode.
Hypothesis visitSelectQuery_ok : forall s q, selectUsage (visitSelectQuery s q).

Lemma selectUsage_visitTableExpr nodeStack t :
  selectUsage (visitTableExpr visitSelectQuery nodeStack t).
Proof. unfold visitTableExpr. usage. Qed.

#[local] Hint Resolve selectUsage_visitTableExpr : usage.

Lemma selectUsage_visitJoin nodeStack node :
  selectUsage (visitJoin g visitSelectQuery nodeStack node).
Proof. unfold visitJoin, transformJoin, super_transformJoin. usage. Qed.

Lemma selectUsage_visitFrom nodeStack froms :
  selectUsage (visitFrom g visitSelectQuery nodeStack froms).
Proof. unfold visitFrom, transformFrom. usage. Qed.

Lemma selectUsage_visitUsing nodeStack tables :
  selectUsage (visitUsing g visitSelectQuery nodeStack tables).
Proof. unfold visitUsing, transformUsing. usage. Qed.

#[local] Hint Resolve selectUsage_visitJoin selectUsage_visitFrom
  selectUsage_visitUsing : usage.

Lemma selectUsage_transformSelectQueryBody nodeStack node :
  selectUsage (transformSelectQueryBody g visitSelectQuery nodeStack node).
Proof. unfold transformSelectQueryBody, super_transformSelectQuery. usage. Qed.

Lemma selectUsage_transformUpdateQuery nodeStack node :
  selectUsage (transformUpdateQuery g visitSelectQuery nodeStack node).
Proof. unfold transformUpdateQuery, super_transformUpdateQuery. usage. Qed.

Lemma selectUsage_transformDeleteQuery nodeStack node :
  selectUsage (transformDeleteQuery g visitSelectQuery nodeStack node).
Proof. unfold transformDeleteQuery, super_transformDeleteQuery. usage. Qed.

End SelectUsageNested.

Lemma selectUsage_transformSelectQuery fuel : forall nodeStack q,
  selectUsage (transformSelectQuery g fuel nodeStack q).
Proof.
  induction fuel as [|fuel IH]; intros nodeStack q; cbn [transformSelectQuery].
  - apply selectUsage_throw.
  - now apply selectUsage_transformSelectQueryBody.
Qed.

Lemma selectUsage_transformQuery node : selectUsage (transformQuery g node).
Proof.
  unfold transformQuery. destruct node as [q|q|q|q].
  - apply selectUsage_bind; [apply selectUsage_transformSelectQuery|intros q'].
    apply selectUsage_ret.
  - apply selectUsage_bind; [apply selectUsage_transformInsertQuery|intros q'].
    apply selectUsage_ret.
  - apply selectUsage_bind; [|intros q'; apply selectUsage_ret].
    apply selectUsage_transformUpdateQuery. apply selectUsage_transformSelectQuery.
  - apply selectUsage_bind; [|intros q'; apply selectUsage_ret].
    apply selectUsage_transformDeleteQuery. apply selectUsage_transformSelectQuery.
Qed.

End SelectUsageFacts.

(** *** The transformer reaches every filter and join-condition column *)

Section ChecksFacts.

Variable g : FullKyselyAccessControlGuard.

Lemma Checks_nil {A} (m : M A) : Checks g [] m.
Proof. intros log a _. split; [apply incl_nil_l|constructor]. Qed.

Lemma Checks_throw {A} need e : Checks g need (throw e : M A).
Proof. intros log a H. discriminate H. Qed.

Lemma Checks_bind {A B} n1 n2 (P : A -> Prop) (m : M A) (f : A -> M B) :
  Checks g n1 m -> Post P anyError m -> (forall a, P a -> Checks g n2 (f a)) ->
  Checks g (n1 ++ n2) (bind m f).
Proof.
  intros Hm HP Hf log b Hrun.
  apply bind_ok_inv in Hrun as [l1 [a [l2 [Hm' [Hf' ->]]]]].
  destruct (Hm l1 a Hm') as [Hin1 Hok1].
  destruct (Hf a (Post_ok _ _ _ _ _ HP Hm') l2 b Hf') as [Hin2 Hok2].
  split.
  - apply incl_app; [now apply incl_appl|now apply incl_appr].
  - apply Forall_app. now split.
Qed.

Lemma Checks_bind_l {A B} need (m : M A) (f : A -> M B) :
  Checks g need m -> Checks g need (bind m f).
Proof.
  intros Hm. rewrite <- (app_nil_r need).
  apply Checks_bind with (P := fun _ => True);
    [exact Hm|apply Post_trivial|intros; apply Checks_nil].
Qed.

Lemma Checks_bind_post {A B} need (P : A -> Prop) (m : M A) (f : A -> M B) :
  Post P anyError m -> (forall a, P a -> Checks g need (f a)) ->
  Checks g need (bind m f).
Proof.
  intros HP Hf. change need with ([] ++ need).
  apply Checks_bind with (P := P); [apply Checks_nil|exact HP|exact Hf].
Qed.

Lemma Checks_bind_r {A B} need (m : M A) (f : A -> M B) :
  (forall a, Checks g need (f a)) -> Checks g need (bind m f).
Proof.
  intros Hf. apply Checks_bind_post with (P := fun _ => True);
    [apply Post_trivial|intros a _; apply Hf].
Qed.

Lemma Checks_both {A} n1 n2 (m : M A) :
  Checks g n1 m -> Checks g n2 m -> Checks g (n1 ++ n2) m.
Proof.
  intros H1 H2 log a Hrun.
  destruct (H1 log a Hrun) as [Hin1 Hok1]. destruct (H2 log a Hrun) as [Hin2 Hok2].
  split; [now apply incl_app|apply Forall_app; now split].
Qed.

Lemma Checks_incl {A} need need' (m : M A) :
  incl need' need -> Checks g need m -> Checks g need' m.
Proof.
  intros Hincl Hm log a Hrun. destruct (Hm log a Hrun) as [Hin Hok]. split.
  - now apply incl_tran with need.
  - apply Forall_forall. intros ev Hev.
    exact (proj1 (Forall_forall _ _) Hok ev (Hincl ev Hev)).
Qed.

Lemma Checks_transformNodeList {A} (need : A -> list Event) (f : A -> M A) l :
  (forall x, Checks g (need x) (f x)) ->
  Checks g (flat_map need l) (transformNodeList f l).
Proof.
  intros Hf. induction l as [|x rest IH]; cbn [transformNodeList flat_map].
  - apply Checks_nil.
  - apply Checks_bind with (P := fun _ => True);
      [apply Hf|apply Post_trivial|intros x' _].
    apply Checks_bind_l. exact IH.
Qed.

Lemma Checks_transformOptional {A} (need : A -> list Event) (f : A -> M A) o :
  (forall x, Checks g (need x) (f x)) ->
  Checks g (match o with Some x => need x | None => [] end) (transformOptional f o).
Proof.
  intros Hf. destruct o as [x|]; cbn [transformOptional].
  - apply Checks_bind_l. apply Hf.
  - apply Checks_nil.
Qed.

(** A reference below a where clause or a join whose table is found. *)
Lemma Checks_transformReference_resolved nodeStack r t c :
  isAChildOf WhereNode_is nodeStack || isAChildOf JoinNode_is nodeStack = true ->
  resolveReferenceTable nodeStack r = ret t ->
  ref_column r = ColumnNode c ->
  Checks g [ColumnGuardCalled t c Select ColumnInWhereOrJoin]
         (transformReference g nodeStack r).
Proof.
  intros Hchild Hresolved Hcolumn log r' Hrun. unfold transformReference in Hrun.
  replace (negb (isAChildOf WhereNode_is nodeStack)
           && negb (isAChildOf JoinNode_is nodeStack)) with false in Hrun
    by (rewrite <- negb_orb, Hchild; reflexivity).
  rewrite Hresolved, bind_ret_l, Hcolumn in Hrun.
  unfold callColumnGuard, throwIfDenyWithReason, super_transformReference,
    bind, throw, ret in Hrun.
  destruct (denial (guard_column g t c Select ColumnInWhereOrJoin))
    as [[reason|]|] eqn:Hanswer; try discriminate Hrun.
  injection Hrun as <- _. split; [apply incl_refl|].
  constructor; [exact Hanswer|constructor].
Qed.

Lemma filterPosition_push nodeStack n :
  isAChildOf WhereNode_is nodeStack || isAChildOf JoinNode_is nodeStack = true ->
  isAChildOf WhereNode_is (push nodeStack n)
  || isAChildOf JoinNode_is (push nodeStack n) = true.
Proof.
  rewrite !isAChildOf_push. intros H.
  destruct (isAChildOf WhereNode_is nodeStack), (isAChildOf JoinNode_is nodeStack);
    try discriminate H; cbn [orb]; rewrite ?orb_true_r; reflexivity.
Qed.

(** Expressions, for any set [K] of node stacks that is closed under
    descending into an expression and on which references are checked. *)
Section ChecksExpression.

Variable scope : option TableNode.
Variable K : list OperationNode -> Prop.
Hypothesis K_push : forall s child, K s -> K (push s (OExpression child)).
Hypothesis K_reference :
  forall s r, K s ->
              Checks g (filterChecks scope (ReferenceExpr r)) (transformReference g s r).

Lemma Checks_transformExpression e : forall nodeStack,
  K nodeStack ->
  Checks g (filterChecks scope e) (transformExpression g nodeStack e).
Proof.
  induction e as [r|v|l IHl op r IHr|l IHl r IHr|l IHl r IHr|e IH|sql];
    intros nodeStack HK; cbn [transformExpression].
  - apply Checks_bind_l. now apply K_reference.
  - apply Checks_nil.
  - cbn [filterChecks].
    apply Checks_bind with (P := fun _ => True);
      [now apply IHl, K_push|apply Post_trivial|intros l' _].
    apply Checks_bind_l. now apply IHr, K_push.
  - cbn [filterChecks].
    apply Checks_bind with (P := fun _ => True);
      [now apply IHl, K_push|apply Post_trivial|intros l' _].
    apply Checks_bind_l. now apply IHr, K_push.
  - cbn [filterChecks].
    apply Checks_bind with (P := fun _ => True);
      [now apply IHl, K_push|apply Post_trivial|intros l' _].
    apply Checks_bind_l. now apply IHr, K_push.
  - cbn [filterChecks]. apply Checks_bind_l. now apply IH, K_push.
  - apply Checks_nil.
Qed.

End ChecksExpression.

(** Join conditions: every column written with its table is checked. *)
Lemma Checks_transformExpression_qualified e nodeStack :
  isAChildOf WhereNode_is nodeStack || isAChildOf JoinNode_is nodeStack = true ->
  Checks g (filterChecks None e) (transformExpression g nodeStack e).
Proof.
  apply (Checks_transformExpression None
           (fun s => isAChildOf WhereNode_is s || isAChildOf JoinNode_is s = true)).
  - intros s child. apply filterPosition_push.
  - intros s [[t|] [c|]] Hs; try apply Checks_nil.
    apply Checks_transformReference_resolved;
      [exact Hs|now apply resolveReferenceTable_explicit|reflexivity].
Qed.

(** A column without table in the filter of [stmt] is one of the table
    in scope. *)
Lemma resolveReferenceTable_scoped s stmt w es column t :
  isAChildOf WhereNode_is es = false ->
  filterScopeOf stmt = Some t ->
  resolveReferenceTable (s ++ stmt :: OWhere w :: es) (mkReferenceNode None column)
  = ret t.
Proof.
  intros Hes Hscope. rewrite resolveReferenceTable_unqualified by exact Hes.
  destruct stmt as [q|q|q|q| | | | | | | | | | | |]; try discriminate Hscope;
    cbn [filterScopeOf _topLevelHasMoreThanOneTable
         _getTableNodeFromTopLevelQueryNode] in *.
  - unfold selectHasJoin in Hscope.
    destruct (sq_joins q) as [joins|]; rewrite bind_ret_l;
      [destruct (0 <? length joins)%nat; [discriminate Hscope|]|];
      destruct (sq_from q) as [[|[t0|sub alias] [|]]|]; try discriminate Hscope;
      now injection Hscope as ->.
  - destruct (upd_from q) as [[|from froms]|]; try discriminate Hscope;
      rewrite bind_ret_l; cbn [length Nat.ltb Nat.leb];
      destruct (upd_table q) as [t0|sub alias]; try discriminate Hscope;
      now injection Hscope as ->.
  - destruct (del_using q) as [[|table tables]|]; try discriminate Hscope;
      rewrite bind_ret_l; cbn [length Nat.ltb Nat.leb];
      destruct (del_from q) as [|[t0|sub alias] [|]]; try discriminate Hscope;
      now injection Hscope as ->.
Qed.

Lemma isAChildOf_below_where is_ s stmt w es :
  isAChildOf WhereNode_is (s ++ stmt :: OWhere w :: es)
  || isAChildOf is_ (s ++ stmt :: OWhere w :: es) = true.
Proof.
  unfold isAChildOf. rewrite (existsb_app WhereNode_is).
  cbn [existsb WhereNode_is]. now rewrite !orb_true_r.
Qed.

(** Filters: every column is checked, those written without their table
    on the table in scope. *)
Lemma Checks_transformExpression_filter e s stmt w es :
  isAChildOf WhereNode_is es = false ->
  Checks g (filterChecks (filterScopeOf stmt) e)
         (transformExpression g (s ++ stmt :: OWhere w :: es) e).
Proof.
  intros Hes.
  apply (Checks_transformExpression (filterScopeOf stmt)
           (fun nodeStack =>
              exists es', nodeStack = s ++ stmt :: OWhere w :: es'
                          /\ isAChildOf WhereNode_is es' = false)).
  - intros nodeStack child [es' [-> Hes']].
    exists (es' ++ [OExpression child]). split.
    + unfold push. rewrite <- app_assoc. reflexivity.
    + change (es' ++ [OExpression child]) with (push es' (OExpression child)).
      rewrite isAChildOf_push, Hes'. reflexivity.
  - intros nodeStack [[t|] [c|]] [es' [-> Hes']]; cbn [filterChecks ref_column ref_table];
      try apply Checks_nil.
    + apply Checks_transformReference_resolved;
        [apply isAChildOf_below_where
        |now apply resolveReferenceTable_explicit|reflexivity].
    + destruct (filterScopeOf stmt) as [t|] eqn:Hscope; [|apply Checks_nil].
      apply Checks_transformReference_resolved;
        [apply isAChildOf_below_where
        |now apply resolveReferenceTable_scoped|reflexivity].
  - exists es. now split.
Qed.

Lemma Checks_visitWhere s stmt w :
  Checks g (filterChecks (filterScopeOf stmt) (where_ w))
         (visitWhere g (push s stmt) w).
Proof.
  unfold visitWhere, super_transformWhere, visitExpression.
  apply Checks_bind_l.
  replace (push (push (push s stmt) (OWhere w)) (OExpression (where_ w)))
    with (s ++ stmt :: OWhere w :: [OExpression (where_ w)])
    by (unfold push; rewrite <- !app_assoc; reflexivity).
  now apply Checks_transformExpression_filter.
Qed.

Lemma Checks_visitOptionalWhere s stmt w :
  Checks g (whereChecks (filterScopeOf stmt) w)
         (transformOptional (visitWhere g (push s stmt)) w).
Proof.
  apply (Checks_transformOptional
           (fun w0 => filterChecks (filterScopeOf stmt) (where_ w0))).
  intros w0. apply Checks_visitWhere.
Qed.

Lemma whereChecks_spliced scope r w w' :
  splicedWhere r w w' -> incl (whereChecks scope w) (whereChecks scope w').
Proof.
  unfold splicedWhere. destruct r as [|p| |reason]; try contradiction; intros ->.
  - apply incl_refl.
  - destruct w as [w0|]; cbn [whereChecks where_ filterChecks].
    + apply incl_appr, incl_refl.
    + apply incl_nil_l.
Qed.

Section ChecksNested.

Variable visitSelectQuery : list OperationNode -> SelectQueryNode -> M SelectQueryNode.

Lemma Checks_super_transformJoin nodeStack node :
  isAChildOf JoinNode_is nodeStack = true ->
  Checks g (joinChecks node) (super_transformJoin g visitSelectQuery nodeStack node).
Proof.
  intros Hjoin. unfold super_transformJoin, joinChecks.
  apply Checks_bind_r. intros table'. apply Checks_bind_l.
  apply (Checks_transformOptional (fun o => filterChecks None (on_ o))).
  intros o. unfold visitOn, visitExpression. apply Checks_bind_l.
  apply Checks_transformExpression_qualified.
  do 2 apply filterPosition_push. rewrite Hjoin. apply orb_true_r.
Qed.

Lemma Checks_visitJoin nodeStack node :
  Checks g (joinChecks node) (visitJoin g visitSelectQuery nodeStack node).
Proof.
  assert (Hjoin : isAChildOf JoinNode_is (push nodeStack (OJoin node)) = true).
  { rewrite isAChildOf_push. apply orb_true_r. }
  unfold visitJoin, transformJoin.
  destruct (join_table node) as [tableNode|sub alias];
    [|now apply Checks_super_transformJoin].
  apply Checks_bind_r. intros guardResult. apply Checks_bind_r. intros _.
  destruct guardResult; try now apply Checks_super_transformJoin.
  all: change (joinChecks node)
         with (joinChecks (mkJoinNode (join_type node) (rlsSubquery tableNode)
                                      (join_on node)));
    now apply Checks_super_transformJoin.
Qed.

Lemma Checks_visitJoins nodeStack joins :
  Checks g (joinsChecks joins)
         (transformOptional (transformNodeList (visitJoin g visitSelectQuery nodeStack))
                            joins).
Proof.
  apply (Checks_transformOptional (flat_map joinChecks)). intros js.
  apply Checks_transformNodeList. intros j. apply Checks_visitJoin.
Qed.

Lemma Checks_super_transformSelectQuery s stmt node :
  Checks g (whereChecks (filterScopeOf stmt) (sq_where node)
            ++ joinsChecks (sq_joins node))
         (super_transformSelectQuery g visitSelectQuery (push s stmt) node).
Proof.
  unfold super_transformSelectQuery. apply Checks_both.
  - do 3 (apply Checks_bind_r; intros ?). apply Checks_bind_l.
    apply Checks_visitOptionalWhere.
  - do 2 (apply Checks_bind_r; intros ?). apply Checks_bind_l.
    apply Checks_visitJoins.
Qed.

Lemma Checks_transformSelectQueryBody s stmt node :
  Checks g (whereChecks (filterScopeOf stmt) (sq_where node)
            ++ joinsChecks (sq_joins node))
         (transformSelectQueryBody g visitSelectQuery (push s stmt) node).
Proof.
  unfold transformSelectQueryBody.
  destruct (sq_from node) as [froms|]; [|apply Checks_super_transformSelectQuery].
  apply Checks_bind_r. intros _.
  destruct (nth_error froms 0) as [[tableNode|sub alias]|]; try apply Checks_throw.
  destruct (sq_selections node) as [selections|]; [|apply Checks_throw].
  apply Checks_bind_r. intros guardResult. apply Checks_bind_r. intros _.
  apply Checks_bind_r. intros transformedSelections.
  apply Checks_bind_post with (P := splicedWhere guardResult (sq_where node));
    [apply Post__transformWhere_any|intros newWhere Hspliced].
  eapply Checks_incl; [|apply Checks_super_transformSelectQuery].
  cbn [sq_where sq_joins].
  apply incl_app; [apply incl_appl|apply incl_appr, incl_refl].
  now apply whereChecks_spliced with (r := guardResult).
Qed.

Lemma Checks_super_transformUpdateQuery s stmt node :
  Checks g (whereChecks (filterScopeOf stmt) (upd_where node)
            ++ joinsChecks (upd_joins node))
         (super_transformUpdateQuery g visitSelectQuery (push s stmt) node).
Proof.
  unfold super_transformUpdateQuery. apply Checks_both.
  - do 3 (apply Checks_bind_r; intros ?). apply Checks_bind_l.
    apply Checks_visitOptionalWhere.
  - do 2 (apply Checks_bind_r; intros ?). apply Checks_bind_l.
    apply Checks_visitJoins.
Qed.

Lemma Checks_transformUpdateQuery s stmt node :
  Checks g (whereChecks (filterScopeOf stmt) (upd_where node)
            ++ joinsChecks (upd_joins node))
         (transformUpdateQuery g visitSelectQuery (push s stmt) node).
Proof.
  unfold transformUpdateQuery.
  destruct (upd_table node) as [tableNode|sub alias]; [|apply Checks_throw].
  apply Checks_bind_r. intros guardResult. apply Checks_bind_r. intros _.
  apply Checks_bind_r. intros _.
  apply Checks_bind_post with (P := splicedWhere guardResult (upd_where node));
    [apply Post__transformWhere_any|intros newWhere Hspliced].
  eapply Checks_incl; [|apply Checks_super_transformUpdateQuery].
  cbn [upd_where upd_joins].
  apply incl_app; [apply incl_appl|apply incl_appr, incl_refl].
  now apply whereChecks_spliced with (r := guardResult).
Qed.

Lemma Checks_transformDeleteQuery s stmt node :
  Checks g (whereChecks (filterScopeOf stmt) (del_where node)
            ++ joinsChecks (del_joins node))
         (transformDeleteQuery g visitSelectQuery (push s stmt) node).
Proof.
  unfold transformDeleteQuery.
  apply Checks_bind_r. intros _.
  destruct (nth_error (del_from node) 0) as [[tableNode|sub alias]|];
    try apply Checks_throw.
  apply Checks_bind_r. intros guardResult. apply Checks_bind_r. intros _.
  unfold super_transformDeleteQuery. apply Checks_both.
  - do 3 (apply Checks_bind_r; intros ?). apply Checks_bind_l.
    apply Checks_visitOptionalWhere.
  - do 2 (apply Checks_bind_r; intros ?). apply Checks_bind_l.
    apply Checks_visitJoins.
Qed.

End ChecksNested.

Lemma Checks_transformQuery node :
  Checks g (statementFilterChecks node) (transformQuery g node).
Proof.
  unfold transformQuery, statementFilterChecks.
  destruct node as [q|q|q|q]; cbn [rootOperationNode].
  - apply Checks_bind_l. cbn [depthRoot]. rewrite depthSelect_joins.
    cbn [transformSelectQuery].
    apply (Checks_transformSelectQueryBody _ [] (OSelectQuery q) q).
  - apply Checks_nil.
  - apply Checks_bind_l.
    apply (Checks_transformUpdateQuery _ [] (OUpdateQuery q) q).
  - apply Checks_bind_l.
    apply (Checks_transformDeleteQuery _ [] (ODeleteQuery q) q).
Qed.

End ChecksFacts.

(** C10: for every statement, whatever its type: every call the
    transformer makes to the column guard with the filter/join usage
    names the statement type Select, never Update or Delete; and
    whenever the statement is rewritten, the transformer has made that
    call for every column of the statement's filter clause and of the
    conditions of its joins (for a column written without its table, on
    the statement's table when it is the only one in scope), and the
    guard denied none of them. *)
Theorem C10_filter_column_is_select_usage g node :
  Forall filterUsageIsSelect (events (transformQuery g node))
  /\ (forall log node',
         transformQuery g node = (log, Ok node') ->
         incl (statementFilterChecks node) log
         /\ Forall (notDeniedBy g) (statementFilterChecks node)).
Proof.
  split.
  - apply selectUsage_transformQuery.
  - apply Checks_transformQuery.
Qed.

(** C10 on an Update statement: under the guard that puts
    [first_name = 'Ben'] on [person], the column [person.id] of the
    update's filter is asked about as a Select filter column. *)
Lemma C10_filter_column_is_select_usage_witness :
  incl [ColumnGuardCalled Examples.person "id" Select ColumnInWhereOrJoin]
       [TableGuardCalled Examples.person Update TableTopLevel;
        ColumnGuardCalled Examples.person "first_name" Update ColumnInUpdateSet;
        ColumnGuardCalled Examples.person "first_name" Select ColumnInWhereOrJoin;
        ColumnGuardCalled Examples.person "id" Select ColumnInWhereOrJoin]
  /\ Forall (notDeniedBy Examples.benGuard)
            [ColumnGuardCalled Examples.person "id" Select ColumnInWhereOrJoin].
Proof.
  eapply (proj2 (C10_filter_column_is_select_usage
                   Examples.benGuard (UpdateQuery Examples.updateWithFilter))
                [TableGuardCalled Examples.person Update TableTopLevel;
                 ColumnGuardCalled Examples.person "first_name" Update
                                   ColumnInUpdateSet;
                 ColumnGuardCalled Examples.person "first_name" Select
                                   ColumnInWhereOrJoin;
                 ColumnGuardCalled Examples.person "id" Select ColumnInWhereOrJoin]).
  reflexivity.
Defined.
